(** * A maze game: grid search and game loop of maze1.py

    A shallow embedding of the path planners ([astar], [bfs_path]), the
    level loader ([load_level]) and the game logic of [main], followed by
    the properties of the specification that hold (or fail) on them. *)

From Stdlib Require Import ZArith List Lia Ascii String DecimalString.
From stdpp Require Import base option list gmap fin_sets strings.

Local Open Scope Z_scope.

#[local] Set Warnings "-clear-no-such-hyp".

(** ** Configuration and cell kinds (module constants of maze1.py) *)

Abbreviation pos := (Z * Z)%type (only parsing).

Definition PAC_MOVE_INTERVAL : Z := 120.
Definition GHOST_MOVE_INTERVAL : Z := 260.

Definition EMPTY : Z := 0.
Definition WALL : Z := 1.
Definition START : Z := 2.
Definition GOAL : Z := 3.
Definition REWARD : Z := 7.

(** [heuristic]: Manhattan distance. *)
Definition heuristic (a b : pos) : Z :=
  Z.abs (a.1 - b.1) + Z.abs (a.2 - b.2).

(** The neighbour offsets, in the order of the source's [for dr, dc in ...]. *)
Definition directions : list pos := [(1, 0); (-1, 0); (0, 1); (0, -1)].

Definition move (p d : pos) : pos := (p.1 + d.1, p.2 + d.2).

(** What a planner call does: return a value ([None] or a path), raise
    [IndexError] on a grid that is too small, or exhaust the fuel that
    bounds the [while] loops of the model. *)
Inductive outcome : Type :=
  | Ret (r : option (list pos))
  | Raise
  | Timeout.

(** A grid is a list of rows of cell kinds; [grid[r][c]] raises when the
    index is out of range ([None] here).  Only non-negative indices are
    ever looked up. *)
Definition grid_get (grid : list (list Z)) (p : pos) : option Z :=
  row ← grid !! Z.to_nat p.1; row !! Z.to_nat p.2.

(** ** The open set of [astar]

    Entries are the tuples [(f, counter, node)] of the source, compared as
    Python compares tuples.  The heap is kept as the ascending sequence of
    its entries: [heappush] and [heappop] of [heapq] always deliver the
    least tuple, and the array layout is not observable otherwise. *)
Abbreviation entry := (Z * Z * (Z * Z))%type (only parsing).

Definition pos_ltb (a b : pos) : bool :=
  (a.1 <? b.1) || ((a.1 =? b.1) && (a.2 <? b.2)).

Definition entry_ltb (a b : entry) : bool :=
  let '(fa, ca, na) := a in
  let '(fb, cb, nb) := b in
  (fa <? fb) || ((fa =? fb) && ((ca <? cb) || ((ca =? cb) && pos_ltb na nb))).

Fixpoint heappush (h : list entry) (e : entry) : list entry :=
  match h with
  | [] => [e]
  | x :: h' => if entry_ltb e x then e :: x :: h' else x :: heappush h' e
  end.

Definition heappop (h : list entry) : option (entry * list entry) :=
  match h with
  | [] => None
  | x :: h' => Some (x, h')
  end.

(** ** Following predecessor links

    [while current in came_from: current = came_from[current]; path.append(current)],
    the loop shared by [reconstruct_path] and [bfs_path].  [chain] yields the
    cells in the order they are appended. *)
Fixpoint chain (fuel : nat) (came_from : gmap (Z * Z) (Z * Z)) (current : pos)
  : option (list pos) :=
  match came_from !! current with
  | None => Some [current]
  | Some prev =>
      match fuel with
      | O => None
      | S fuel' => (current ::.) <$> chain fuel' came_from prev
      end
  end.

(** [reconstruct_path(came_from, current, start)]; [start] is unused in the
    source as well. *)
Definition reconstruct_path (came_from : gmap (Z * Z) (Z * Z)) (current : pos)
  : option (list pos) :=
  reverse <$> chain (S (size came_from)) came_from current.

(** A sequence of cells in which every step goes to an adjacent cell that
    satisfies [ok]; nothing is asked of the first cell. *)
Inductive trail (ok : pos → Prop) : list pos → Prop :=
  | trail_one (a : pos) : trail ok [a]
  | trail_cons (a b : pos) (l : list pos) :
      Z.abs (a.1 - b.1) + Z.abs (a.2 - b.2) = 1 → ok b →
      trail ok (b :: l) → trail ok (a :: b :: l).

(** [p] leads from [s] to [t] over [ok] cells. *)
Definition route (ok : pos → Prop) (s : pos) (p : list pos) (t : pos) : Prop :=
  head p = Some s ∧ last p = Some t ∧ trail ok p.

Section Maze.

(** The grid size ([ROWS, COLS = 30, 30] in the source). *)
Variables ROWS COLS : Z.

Definition in_bounds (p : pos) : bool :=
  (0 <=? p.1) && (p.1 <? ROWS) && (0 <=? p.2) && (p.2 <? COLS).

Definition make_grid : list (list Z) :=
  replicate (Z.to_nat ROWS) (replicate (Z.to_nat COLS) EMPTY).

Definition corner_positions : list pos :=
  [(0, 0); (0, COLS - 1); (ROWS - 1, 0); (ROWS - 1, COLS - 1)].

(** ** A* search *)

Record astar_state : Type := AStar {
  g_score : gmap pos Z;          (* a missing key stands for float('inf') *)
  came_from : gmap pos pos;
  open_set : list entry;
  in_open : gset pos;
  counter : Z
}.

(** [a < g_score[n]] where a missing key is infinite. *)
Definition lt_inf (a : Z) (b : option Z) : bool :=
  match b with
  | None => true
  | Some b => a <? b
  end.

(** The three [continue] tests of the neighbour loop: [Some true] when the
    neighbour is relaxed, [None] when [grid[nr][nc]] raises. *)
Definition passable (grid : list (list Z)) (blocked : gset pos) (n : pos)
  : option bool :=
  if in_bounds n then
    v ← grid_get grid n;
    Some (negb (v =? WALL) && negb (bool_decide (n ∈ blocked)))
  else Some false.

(** The body of the neighbour loop after the [continue] tests.  The
    dictionary [f_score] is only read back at the key just written, so the
    value pushed is computed in place. *)
Definition relax (goal current : pos) (st : astar_state) (neighbor : pos)
  : astar_state :=
  match g_score st !! current with
  | None => st
  | Some gc =>
      let tentative_g := gc + 1 in
      if lt_inf tentative_g (g_score st !! neighbor) then
        let g' := <[neighbor := tentative_g]> (g_score st) in
        let cf' := <[neighbor := current]> (came_from st) in
        if bool_decide (neighbor ∈ in_open st) then
          AStar g' cf' (open_set st) (in_open st) (counter st)
        else
          AStar g' cf'
            (heappush (open_set st)
               (tentative_g + heuristic neighbor goal, counter st + 1, neighbor))
            ({[neighbor]} ∪ in_open st) (counter st + 1)
      else st
  end.

Definition visit (grid : list (list Z)) (blocked : gset pos) (goal current : pos)
  (acc : option astar_state) (d : pos) : option astar_state :=
  st ← acc;
  ok ← passable grid blocked (move current d);
  Some (if ok : bool then relax goal current st (move current d) else st).

Definition expand (grid : list (list Z)) (blocked : gset pos) (goal current : pos)
  (st : astar_state) : option astar_state :=
  foldl (visit grid blocked goal current) (Some st) directions.

Fixpoint astar_loop (fuel : nat) (grid : list (list Z)) (blocked : gset pos)
  (goal : pos) (st : astar_state) : outcome :=
  match fuel with
  | O => Timeout
  | S fuel' =>
      match heappop (open_set st) with
      | None => Ret None
      | Some ((_, _, current), rest) =>
          let st1 := AStar (g_score st) (came_from st) rest
                       (in_open st ∖ {[current]}) (counter st) in
          if bool_decide (current = goal) then
            match reconstruct_path (came_from st1) goal with
            | Some path => Ret (Some path)
            | None => Timeout
            end
          else
            match expand grid blocked goal current st1 with
            | None => Raise
            | Some st2 => astar_loop fuel' grid blocked goal st2
            end
      end
  end.

Definition cells : nat := Z.to_nat ROWS * Z.to_nat COLS.

(** More iterations than the loop can make: every push follows a strict
    decrease of some [g_score], and no finite score exceeds the number of
    cells. *)
Definition astar_fuel : nat := S (S (cells * S cells)).

Definition astar_init (start goal : pos) : astar_state :=
  AStar {[start := 0]} ∅ [(heuristic start goal, 0, start)] {[start]} 0.

Definition astar (grid : list (list Z)) (start goal : option pos)
  (blocked : option (gset pos)) : outcome :=
  match start, goal with
  | Some start, Some goal =>
      astar_loop astar_fuel grid (default ∅ blocked) goal (astar_init start goal)
  | _, _ => Ret None
  end.

(** ** Breadth-first search of the ghosts *)

Record bfs_state : Type := Bfs {
  q : list pos;
  visited : gset pos;
  bfs_came_from : gmap pos pos
}.

Definition bfs_visit (grid : list (list Z)) (current : pos)
  (acc : option bfs_state) (d : pos) : option bfs_state :=
  st ← acc;
  let nxt := move current d in
  if in_bounds nxt then
    v ← grid_get grid nxt;
    if v =? WALL then Some st
    else if bool_decide (nxt ∈ visited st) then Some st
    else Some (Bfs (q st ++ [nxt]) ({[nxt]} ∪ visited st)
                 (<[nxt := current]> (bfs_came_from st)))
  else Some st.

Definition bfs_expand (grid : list (list Z)) (current : pos) (st : bfs_state)
  : option bfs_state :=
  foldl (bfs_visit grid current) (Some st) directions.

Fixpoint bfs_loop (fuel : nat) (grid : list (list Z)) (goal : pos)
  (st : bfs_state) : outcome :=
  match fuel with
  | O => Timeout
  | S fuel' =>
      match q st with
      | [] => Ret None
      | current :: rest =>
          let st1 := Bfs rest (visited st) (bfs_came_from st) in
          if bool_decide (current = goal) then
            match reconstruct_path (bfs_came_from st1) current with
            | Some path => Ret (Some path)
            | None => Timeout
            end
          else
            match bfs_expand grid current st1 with
            | None => Raise
            | Some st2 => bfs_loop fuel' grid goal st2
            end
      end
  end.

(** Every cell enters the queue at most once. *)
Definition bfs_fuel : nat := S (S cells).

Definition bfs_path (grid : list (list Z)) (start goal : option pos) : outcome :=
  match start, goal with
  | Some start, Some goal =>
      if bool_decide (start = goal) then Ret (Some [start])
      else bfs_loop bfs_fuel grid goal (Bfs [start] {[start]} ∅)
  | _, _ => Ret None
  end.

(** ** Level loading *)

(** The characters [str.strip] removes (code points below 256). *)
Definition is_space (ch : ascii) : bool :=
  let n := nat_of_ascii ch in
  ((9 <=? n) && (n <=? 13) || (28 <=? n) && (n <=? 32)
   || (n =? 133) || (n =? 160))%nat.

Definition newline : ascii := ascii_of_nat 10.
Definition carriage_return : ascii := ascii_of_nat 13.

(** What [open(filename, "r")] makes of the text of the file: in text mode
    newlines are universal, so ["\r\n"] and a ["\r"] on its own are both
    read as ["\n"]. *)
Fixpoint universal_newlines (s : list ascii) : list ascii :=
  match s with
  | [] => []
  | ch :: s' =>
      if Ascii.eqb ch carriage_return then
        match s' with
        | ch' :: s'' =>
            if Ascii.eqb ch' newline then newline :: universal_newlines s''
            else newline :: universal_newlines s'
        | [] => [newline]
        end
      else ch :: universal_newlines s'
  end.

(** The lines a text file object yields from the text so read: each ends
    with its newline, except possibly the last. *)
Fixpoint file_lines (cur : list ascii) (s : list ascii) : list (list ascii) :=
  match s with
  | [] => match cur with [] => [] | _ => [reverse cur] end
  | ch :: s' =>
      if Ascii.eqb ch newline then reverse (ch :: cur) :: file_lines [] s'
      else file_lines (ch :: cur) s'
  end.

(** [line.rstrip("\n")] *)
Fixpoint rstrip_newline (line : list ascii) : list ascii :=
  match line with
  | [] => []
  | ch :: rest =>
      match rstrip_newline rest with
      | [] => if Ascii.eqb ch newline then [] else [ch]
      | rest' => ch :: rest'
      end
  end.

(** [[line.rstrip("\n") for line in f if line.strip()]], for the file [f]
    whose text is [content]. *)
Definition level_lines (content : string) : list (list ascii) :=
  map rstrip_newline
    (filter (λ line, forallb is_space line = false)
       (file_lines [] (universal_newlines (list_ascii_of_string content)))).

Record level : Type := Level {
  lv_grid : list (list Z);
  lv_start : option pos;
  lv_goal : option pos;
  lv_rewards : gset pos;
  lv_ghosts : list pos
}.

(** [grid[r][c] = v] for an index in range. *)
Definition grid_set (grid : list (list Z)) (p : pos) (v : Z) : list (list Z) :=
  alter (λ row, <[Z.to_nat p.2 := v]> row) (Z.to_nat p.1) grid.

(** The body of the inner loop of [load_level] at grid cell [p]. *)
Definition place (p : pos) (ch : ascii) (lv : level) : level :=
  if in_bounds p then
    if Ascii.eqb ch "#" then
      Level (grid_set (lv_grid lv) p WALL) (lv_start lv) (lv_goal lv)
        (lv_rewards lv) (lv_ghosts lv)
    else if Ascii.eqb ch "S" then
      Level (grid_set (lv_grid lv) p START) (Some p) (lv_goal lv)
        (lv_rewards lv) (lv_ghosts lv)
    else if Ascii.eqb ch "G" then
      Level (grid_set (lv_grid lv) p GOAL) (lv_start lv) (Some p)
        (lv_rewards lv) (lv_ghosts lv)
    else if Ascii.eqb ch "D" then
      Level (grid_set (lv_grid lv) p REWARD) (lv_start lv) (lv_goal lv)
        ({[p]} ∪ lv_rewards lv) (lv_ghosts lv)
    else if Ascii.eqb ch "X" then
      Level (lv_grid lv) (lv_start lv) (lv_goal lv) (lv_rewards lv)
        (lv_ghosts lv ++ [p])
    else
      Level (grid_set (lv_grid lv) p EMPTY) (lv_start lv) (lv_goal lv)
        (lv_rewards lv) (lv_ghosts lv)
  else lv.

(** [for c, ch in enumerate(line)], with [gc = c + col_offset] carried along. *)
Fixpoint load_row (gr gc : Z) (line : list ascii) (lv : level) : level :=
  match line with
  | [] => lv
  | ch :: rest => load_row gr (gc + 1) rest (place (gr, gc) ch lv)
  end.

(** [for r, line in enumerate(lines)], with [gr = r + row_offset]. *)
Fixpoint load_rows (gr col_offset : Z) (lines : list (list ascii)) (lv : level)
  : level :=
  match lines with
  | [] => lv
  | line :: rest =>
      load_rows (gr + 1) col_offset rest (load_row gr col_offset line lv)
  end.

Definition empty_level : level := Level make_grid None None ∅ [].

Definition level_rows (lines : list (list ascii)) : Z := Z.of_nat (length lines).

Definition level_cols (lines : list (list ascii)) : Z :=
  foldr Z.max 0 (map (λ line, Z.of_nat (length line)) lines).

Definition row_offset (lines : list (list ascii)) : Z := (ROWS - level_rows lines) `div` 2.
Definition col_offset (lines : list (list ascii)) : Z := (COLS - level_cols lines) `div` 2.

(** [load_level(filename)]: [file] is the text in the file (code points
    below 256, its line ends not yet translated), [None] when there is no
    such file. *)
Definition load_level (file : option string) : level :=
  match file with
  | None => empty_level
  | Some content =>
      let lines := level_lines content in
      match lines with
      | [] => empty_level
      | _ => load_rows (row_offset lines) (col_offset lines) lines empty_level
      end
  end.

(** ** The game state of [main] *)

Inductive reason_t : Type := Win | Ghost | Stuck.

Record game : Type := Game {
  grid : list (list Z);
  start : option pos;
  goal : option pos;
  reward_cells : gset pos;
  pac_pos : option pos;
  ghost_positions : list pos;
  playing : bool;
  game_over : bool;
  reason : option reason_t;
  score : Z;
  final_score : option Z;
  start_time : option Z;
  end_time : option Z;
  last_pac_move_time : Z;
  last_ghost_move_time : Z
}.

(** [list.remove(x)]: drops the first occurrence. *)
Fixpoint list_remove (x : pos) (l : list pos) : list pos :=
  match l with
  | [] => []
  | y :: l' => if bool_decide (y = x) then l' else y :: list_remove x l'
  end.

(** Corner ghosts: appended where the corner is in the grid and not a wall;
    [dedup] is the extra [not in ghost_positions] test of the [L] key. *)
Definition spawn_corner (dedup : bool) (g : list (list Z))
  (acc : option (list pos)) (p : pos) : option (list pos) :=
  ghosts ← acc;
  if in_bounds p then
    v ← grid_get g p;
    if v =? WALL then Some ghosts
    else if dedup && bool_decide (p ∈ ghosts) then Some ghosts
    else Some (ghosts ++ [p])
  else Some ghosts.

Definition spawn_corners (dedup : bool) (g : list (list Z)) (ghosts : list pos)
  : option (list pos) :=
  foldl (spawn_corner dedup g) (Some ghosts) corner_positions.

(** The state before the first frame. *)
Definition initial : option game :=
  ghosts ← spawn_corners false make_grid [];
  Some (Game make_grid None None ∅ None ghosts false false None 0 None None None 0 0).

Inductive key : Type := K_c | K_l | K_SPACE | K_r | K_other.

(** One [KEYDOWN] event; [level1] is the text of level1.txt and [ticks] what
    [pygame.time.get_ticks()] returns at that moment. *)
Definition keydown (level1 : option string) (ticks : Z) (k : key) (st : game)
  : option game :=
  match k with
  | K_c =>
      ghosts ← spawn_corners false make_grid [];
      Some (Game make_grid None None ∅ None ghosts false false None 0 None None None
              (last_pac_move_time st) (last_ghost_move_time st))
  | K_l =>
      let lv := load_level level1 in
      ghosts ← spawn_corners true (lv_grid lv) (lv_ghosts lv);
      Some (Game (lv_grid lv) (lv_start lv) (lv_goal lv) (lv_rewards lv) None ghosts
              false false None 0 None None None
              (last_pac_move_time st) (last_ghost_move_time st))
  | K_SPACE =>
      if bool_decide (is_Some (start st)) && bool_decide (is_Some (goal st))
         && negb (playing st) then
        Some (Game (grid st) (start st) (goal st) (reward_cells st) (start st)
                (ghost_positions st) true false None 0 None (Some ticks) None
                ticks ticks)
      else Some st
  | K_r =>
      Some (Game (grid st) (start st) (goal st) (reward_cells st) None
              (ghost_positions st) false false None (score st) None None None
              (last_pac_move_time st) (last_ghost_move_time st))
  | K_other => Some st
  end.

(** *** Mouse editing *)

Definition WIDTH : Z := 600.
Definition CELL_SIZE : Z := WIDTH `div` COLS.

(** [get_cell_from_mouse(pos)]; the outer [None] is the ZeroDivisionError of
    a grid with more columns than pixels. *)
Definition get_cell_from_mouse (xy : pos) : option (option pos) :=
  if CELL_SIZE =? 0 then None
  else
    let c := xy.1 `div` CELL_SIZE in
    let r := xy.2 `div` CELL_SIZE in
    Some (if in_bounds (r, c) then Some (r, c) else None).

Definition with_board (st : game) (g : list (list Z)) (s gl : option pos)
  (rw : gset pos) (gh : list pos) : game :=
  Game g s gl rw (pac_pos st) gh (playing st) (game_over st) (reason st)
    (score st) (final_score st) (start_time st) (end_time st)
    (last_pac_move_time st) (last_ghost_move_time st).

(** Left button held on [cell], with the Shift and G keys as given. *)
Definition left_click (shift gkey : bool) (cell : pos) (st : game) : game :=
  if shift then
    if bool_decide (Some cell ≠ start st) && bool_decide (Some cell ≠ goal st) then
      with_board st (grid_set (grid st) cell REWARD) (start st) (goal st)
        ({[cell]} ∪ reward_cells st) (ghost_positions st)
    else st
  else if gkey then
    if bool_decide (cell ∈ ghost_positions st) then st
    else with_board st (grid st) (start st) (goal st) (reward_cells st)
           (ghost_positions st ++ [cell])
  else
    match start st with
    | None =>
        with_board st (grid_set (grid st) cell START) (Some cell) (goal st)
          (reward_cells st ∖ {[cell]}) (ghost_positions st)
    | Some _ =>
        if bool_decide (goal st = None) && bool_decide (Some cell ≠ start st) then
          with_board st (grid_set (grid st) cell GOAL) (start st) (Some cell)
            (reward_cells st ∖ {[cell]}) (ghost_positions st)
        else if bool_decide (Some cell ≠ start st)
                && bool_decide (Some cell ≠ goal st) then
          with_board st (grid_set (grid st) cell WALL) (start st) (goal st)
            (reward_cells st ∖ {[cell]})
            (if bool_decide (cell ∈ ghost_positions st)
             then list_remove cell (ghost_positions st)
             else ghost_positions st)
        else st
    end.

(** Right button held on [cell]. *)
Definition right_click (cell : pos) (st : game) : game :=
  let s := if bool_decide (Some cell = start st) then None else start st in
  let gl := if bool_decide (Some cell = start st) then goal st
            else if bool_decide (Some cell = goal st) then None else goal st in
  with_board st (grid_set (grid st) cell EMPTY) s gl
    (reward_cells st ∖ {[cell]})
    (if bool_decide (cell ∈ ghost_positions st)
     then list_remove cell (ghost_positions st)
     else ghost_positions st).

Record mouse : Type := Mouse {
  left_pressed : bool;
  right_pressed : bool;
  mouse_pos : pos;
  shift_held : bool;
  g_held : bool
}.

Definition mouse_edit (m : mouse) (st : game) : option game :=
  if negb (playing st) && negb (game_over st) then
    if left_pressed m then
      cell ← get_cell_from_mouse (mouse_pos m);
      Some (match cell with
            | Some cell => left_click (shift_held m) (g_held m) cell st
            | None => st
            end)
    else if right_pressed m then
      cell ← get_cell_from_mouse (mouse_pos m);
      Some (match cell with
            | Some cell => right_click cell st
            | None => st
            end)
    else Some st
  else Some st.

(** *** Game logic *)

Definition terminal (r : reason_t) (ticks : Z) (st : game) : game :=
  Game (grid st) (start st) (goal st) (reward_cells st) (pac_pos st)
    (ghost_positions st) false true (Some r) (score st) (Some (score st))
    (start_time st) (Some ticks) (last_pac_move_time st) (last_ghost_move_time st).

(** Pac-Man's move: the block under [if now - last_pac_move_time >= PAC_MOVE_INTERVAL]. *)
Definition seeker_step (now : Z) (st : game) : option game :=
  let st := Game (grid st) (start st) (goal st) (reward_cells st) (pac_pos st)
              (ghost_positions st) (playing st) (game_over st) (reason st)
              (score st) (final_score st) (start_time st) (end_time st)
              now (last_ghost_move_time st) in
  let blocked : gset pos := list_to_set (ghost_positions st) in
  match astar (grid st) (pac_pos st) (goal st) (Some blocked) with
  | Raise | Timeout => None
  | Ret None => Some (terminal Stuck now st)
  | Ret (Some path) =>
      match path with
      | _ :: next_cell :: _ =>
          let collect := bool_decide (next_cell ∈ reward_cells st) in
          let st' :=
            Game (grid st) (start st) (goal st)
              (if collect then reward_cells st ∖ {[next_cell]} else reward_cells st)
              (Some next_cell) (ghost_positions st) (playing st) (game_over st)
              (reason st) (if collect then score st + 1 else score st)
              (final_score st) (start_time st) (end_time st)
              (last_pac_move_time st) (last_ghost_move_time st) in
          Some (if bool_decide (Some next_cell = goal st) then terminal Win now st'
                else st')
      | _ => Some (terminal Stuck now st)
      end
  end.

(** The cell one ghost moves to. *)
Definition ghost_move (g : list (list Z)) (target : option pos) (gpos : pos)
  : option pos :=
  match bfs_path g (Some gpos) target with
  | Raise | Timeout => None
  | Ret (Some (_ :: second :: _)) => Some second
  | Ret _ => Some gpos
  end.

(** The ghosts' move: the block under [if ghost_positions and ... >= GHOST_MOVE_INTERVAL]. *)
Definition pursuer_step (now : Z) (st : game) : option game :=
  new_ghost_positions ← mapM (ghost_move (grid st) (pac_pos st)) (ghost_positions st);
  Some (Game (grid st) (start st) (goal st) (reward_cells st) (pac_pos st)
          new_ghost_positions (playing st) (game_over st) (reason st) (score st)
          (final_score st) (start_time st) (end_time st)
          (last_pac_move_time st) now).

Definition caught (st : game) : bool :=
  match pac_pos st with
  | Some p => bool_decide (p ∈ ghost_positions st)
  | None => false
  end.

(** [# Check collision with any ghost]; [ticks] is the clock read there. *)
Definition collision_check (ticks : Z) (st : game) : game :=
  if caught st then terminal Ghost ticks st else st.

Definition seeker_due (now : Z) (st : game) : bool :=
  bool_decide (PAC_MOVE_INTERVAL ≤ now - last_pac_move_time st).

Definition pursuer_due (now : Z) (st : game) : bool :=
  match ghost_positions st, pac_pos st with
  | _ :: _, Some _ => bool_decide (GHOST_MOVE_INTERVAL ≤ now - last_ghost_move_time st)
  | _, _ => false
  end.

(** The [# GAME LOGIC] block of one frame: [now] is the clock at its start,
    [ticks] the clock at the collision check. *)
Definition game_logic (now ticks : Z) (st : game) : option game :=
  if playing st && negb (game_over st) && bool_decide (is_Some (pac_pos st)) then
    st1 ← (if seeker_due now st then seeker_step now st else Some st);
    st2 ← (if pursuer_due now st1 then pursuer_step now st1 else Some st1);
    Some (collision_check ticks st2)
  else Some st.

(** One iteration of [while True]: the key events of the frame in order,
    mouse editing, then the game logic. *)
Definition frame (level1 : option string) (events : list (key * Z)) (m : mouse)
  (now ticks : Z) (st : game) : option game :=
  st1 ← foldl (λ acc ev, st ← acc; keydown level1 ev.2 ev.1 st) (Some st) events;
  st2 ← mouse_edit m st1;
  game_logic now ticks st2.

(** ** Vocabulary of the properties *)

(** A grid of the configured size, as [make_grid] builds it. *)
Definition wf_grid (g : list (list Z)) : Prop :=
  length g = Z.to_nat ROWS ∧ ∀ row, row ∈ g → length row = Z.to_nat COLS.

(** The cell kind a level character stands for. *)
Definition kind_of_char (ch : ascii) : Z :=
  if Ascii.eqb ch "#" then WALL
  else if Ascii.eqb ch "S" then START
  else if Ascii.eqb ch "G" then GOAL
  else if Ascii.eqb ch "D" then REWARD
  else EMPTY.

(** Character [ch] stands at row [r], column [c] of the region. *)
Definition region_char (lines : list (list ascii)) (r c : nat) (ch : ascii) : Prop :=
  ∃ line, lines !! r = Some line ∧ line !! c = Some ch.

(** Where the loader puts row [r], column [c] of the region. *)
Definition dest (lines : list (list ascii)) (r c : nat) : pos :=
  (Z.of_nat r + (ROWS - level_rows lines) `div` 2,
   Z.of_nat c + (COLS - level_cols lines) `div` 2).

(** The characters a row, and a block of rows, put on the grid. *)
Definition row_chars (gr gc : Z) (line : list ascii) (p : pos) (ch : ascii) : Prop :=
  ∃ c : nat, line !! c = Some ch ∧ p = (gr, gc + Z.of_nat c) ∧ in_bounds p = true.

Definition rows_chars (gr gc : Z) (lines : list (list ascii)) (p : pos) (ch : ascii)
  : Prop :=
  ∃ (r : nat) line, lines !! r = Some line ∧ row_chars (gr + Z.of_nat r) gc line p ch.

(** A level holds exactly the characters [chars]. *)
Record loaded (chars : pos → ascii → Prop) (lv : level) : Prop := Loaded {
  loaded_wf : wf_grid (lv_grid lv);
  loaded_bounds : ∀ p ch, chars p ch → in_bounds p = true;
  loaded_cell : ∀ p ch, chars p ch → grid_get (lv_grid lv) p = Some (kind_of_char ch);
  loaded_rest : ∀ p, in_bounds p = true → (∀ ch, ¬ chars p ch) →
                grid_get (lv_grid lv) p = Some EMPTY;
  loaded_rewards : ∀ p, p ∈ lv_rewards lv ↔ chars p "D"%char;
  loaded_ghosts : ∀ p, p ∈ lv_ghosts lv ↔ chars p "X"%char;
  loaded_start : ∀ p, lv_start lv = Some p → chars p "S"%char;
  loaded_start_some : (∃ p, chars p "S"%char) → is_Some (lv_start lv);
  loaded_goal : ∀ p, lv_goal lv = Some p → chars p "G"%char;
  loaded_goal_some : (∃ p, chars p "G"%char) → is_Some (lv_goal lv)
}.

(** *** Paths on the grid *)

(** Two cells are 4-adjacent. *)
Definition adjacent (a b : pos) : Prop :=
  Z.abs (a.1 - b.1) + Z.abs (a.2 - b.2) = 1.

(** A cell a planner may step on: inside the grid and not a Wall. *)
Definition walkable (g : list (list Z)) (p : pos) : Prop :=
  in_bounds p = true ∧ ∃ v, grid_get g p = Some v ∧ v ≠ WALL.

(** The same, outside the blocked set as well. *)
Definition free (g : list (list Z)) (blocked : gset pos) (p : pos) : Prop :=
  walkable g p ∧ p ∉ blocked.

(** All cells of the grid. *)
Definition all_cells : list pos := list_prod (seqZ 0 ROWS) (seqZ 0 COLS).

(** *** Invariant of the breadth-first search

    [lv] gives every visited cell its BFS level and [k] is the level being
    expanded; [cur] is the cell under expansion and [pending] its
    neighbours not looked at yet (empty at the head of the loop). *)
Record bfs_inv (g : list (list Z)) (s t cur : pos) (pending : list pos)
  (lv : gmap pos nat) (k : nat) (st : bfs_state) : Prop := BfsInv {
  bi_dom : ∀ p, p ∈ visited st ↔ is_Some (lv !! p);
  bi_start : lv !! s = Some 0%nat;
  bi_cf : ∀ n p, bfs_came_from st !! n = Some p →
          walkable g n ∧ adjacent p n ∧ ∃ j, lv !! p = Some j ∧ lv !! n = Some (S j);
  bi_root : ∀ n, n ∈ visited st → bfs_came_from st !! n = None → n = s;
  bi_size : ∀ n j, lv !! n = Some j → (j ≤ size (bfs_came_from st))%nat;
  bi_queue : ∃ q1 q2, q st = q1 ++ q2 ∧ (∀ x, x ∈ q1 → lv !! x = Some k)
                      ∧ (∀ x, x ∈ q2 → lv !! x = Some (S k));
  bi_closed : ∀ n j, lv !! n = Some j → n ∉ q st →
              (j ≤ k)%nat
              ∧ ∀ m, adjacent n m → walkable g m →
                  (n = cur ∧ m ∈ pending) ∨ ∃ i, lv !! m = Some i ∧ (i ≤ S j)%nat;
  bi_goal : t ∈ visited st → t ∈ q st;
  bi_cells : ∀ p, p ∈ visited st → p = s ∨ in_bounds p = true
}.

(** What [bfs_visit] does with one neighbour on a grid of the right size. *)
Definition bfs_step (g : list (list Z)) (current : pos) (st : bfs_state) (nxt : pos)
  : bfs_state :=
  if in_bounds nxt
     && match grid_get g nxt with Some v => negb (v =? WALL) | None => false end
     && negb (bool_decide (nxt ∈ visited st))
  then Bfs (q st ++ [nxt]) ({[nxt]} ∪ visited st) (<[nxt := current]> (bfs_came_from st))
  else st.

(** *** Invariant of the A* search

    [cur] is the cell under expansion and [pending] its neighbours not
    looked at yet (empty at the head of the loop). *)
Record astar_inv (g : list (list Z)) (blocked : gset pos) (s t cur : pos)
  (pending : list pos) (st : astar_state) : Prop := AStarInv {
  ai_start : g_score st !! s = Some 0;
  ai_bound : ∀ n x, g_score st !! n = Some x → 0 ≤ x ≤ Z.of_nat (size (came_from st));
  ai_cf : ∀ n p, came_from st !! n = Some p →
          free g blocked n ∧ adjacent p n
          ∧ ∃ gp gn, g_score st !! p = Some gp ∧ g_score st !! n = Some gn ∧ gp < gn;
  ai_root : ∀ n, is_Some (g_score st !! n) → came_from st !! n = None → n = s;
  ai_heap : ∀ n, n ∈ in_open st ↔ n ∈ (open_set st).*2;
  ai_nodup : NoDup (open_set st).*2;
  ai_open : ∀ n, n ∈ in_open st → is_Some (g_score st !! n);
  ai_closed : ∀ n x, g_score st !! n = Some x → n ∉ in_open st →
              ∀ m, adjacent n m → free g blocked m →
                (n = cur ∧ m ∈ pending) ∨ ∃ y, g_score st !! m = Some y ∧ y ≤ x + 1;
  ai_goal : is_Some (g_score st !! t) → t ∈ in_open st;
  ai_cells : ∀ n, is_Some (g_score st !! n) → n = s ∨ in_bounds n = true
}.

(** The three [continue] tests as one boolean, for a grid of the right size. *)
Definition freeb (g : list (list Z)) (blocked : gset pos) (n : pos) : bool :=
  in_bounds n
  && match grid_get g n with Some v => negb (v =? WALL) | None => false end
  && negb (bool_decide (n ∈ blocked)).

(** What [visit] does with one neighbour when [grid[nr][nc]] does not raise. *)
Definition astar_step (g : list (list Z)) (blocked : gset pos) (goal current : pos)
  (st : astar_state) (n : pos) : astar_state :=
  if freeb g blocked n then relax goal current st n else st.

(** The measure that bounds the search: every cell weighs its score, or
    more than any score while it has none, and every heap entry weighs one. *)
Definition weight (gs : gmap pos Z) (v : pos) : nat :=
  match gs !! v with
  | None => S cells
  | Some x => Z.to_nat x
  end.

Definition potential (st : astar_state) : nat :=
  sum_list_with (weight (g_score st)) all_cells + length (open_set st).

(** The guard of the game logic: the state machine is in its running state. *)
Definition running (st : game) : Prop :=
  playing st = true ∧ game_over st = false ∧ is_Some (pac_pos st).

(** The game logic over successive frames, given the two clock readings of each. *)
Definition play (clock : list (Z * Z)) (st : game) : option game :=
  foldl (λ acc t, st ← acc; game_logic t.1 t.2 st) (Some st) clock.

(** No ghost stands on a wall. *)
Definition ghosts_off_walls (st : game) : Prop :=
  ∀ p, p ∈ ghost_positions st → grid_get (grid st) p ≠ Some WALL.

End Maze.

(** ** Example boards (30 x 30, as the source is configured) *)

(** An empty board with Pac-Man at (5,5), the goal next to him at (5,6) and a
    single ghost at (5,7); both move intervals have elapsed at time 300. *)
Definition duel : game :=
  Game (make_grid 30 30) (Some (5, 5)) (Some (5, 6)) ∅ (Some (5, 5)) [(5, 7)]
    true false None 0 None (Some 0) None 0 0.

(** Pac-Man is already standing on the goal. *)
Definition at_goal : game :=
  Game (make_grid 30 30) (Some (5, 5)) (Some (5, 6)) ∅ (Some (5, 6)) [(0, 0)]
    true false None 0 None (Some 0) None 0 0.

(** A reward lies on Pac-Man's first step. *)
Definition snack : game :=
  Game (grid_set (make_grid 30 30) (6, 5) REWARD) (Some (5, 5)) (Some (9, 5))
    {[(6, 5)]} (Some (5, 5)) [(0, 0)] true false None 0 None (Some 0) None 0 0.

(** An editing state with a wall at (5,5). *)
Definition walled : game :=
  Game (grid_set (make_grid 30 30) (5, 5) WALL) (Some (0, 1)) (Some (0, 2)) ∅ None
    [(0, 0); (0, 29); (29, 0); (29, 29)] false false None 0 None None None 0 0.

(** A board given by the text of its top-left rows, ['#'] for a Wall;
    every cell outside the given rows is a Wall too. *)
Definition row_of_string (s : string) : list Z :=
  map (λ ch, if Ascii.eqb ch "#" then WALL else EMPTY) (list_ascii_of_string s).

Definition pad_to {A : Type} (n : nat) (x : A) (l : list A) : list A :=
  l ++ replicate (n - length l) x.

Definition board (rows : list string) : list (list Z) :=
  pad_to 30 (replicate 30 WALL) (map (λ s, pad_to 30 WALL (row_of_string s)) rows).

(** A maze on which Pac-Man at (5,7) heads for the goal at (2,0). *)
Definition detour : list (list Z) :=
  board ["#....#..";
         "##.#.#..";
         ".##.....";
         ".#......";
         ".#..#...";
         "...#..#.";
         "........";
         "#.....#."].

(** The three-line level ["S.G"], ["..."], ["..."]. *)
Definition three_lines : string :=
  String.append "S.G" (String newline
    (String.append "..." (String newline (String.append "..." (String newline ""))))).

(** ** What is drawn where (the [# DRAW] block of [main], [draw_grid], [draw_hud]) *)

Section Screen.

Variable COLS : Z.

(** [pygame.Rect(c * CELL_SIZE, r * CELL_SIZE, CELL_SIZE, CELL_SIZE)] of
    [draw_grid]: left, top, width, height. *)
Definition cell_rect (p : pos) : Z * Z * Z * Z :=
  (p.2 * CELL_SIZE COLS, p.1 * CELL_SIZE COLS, CELL_SIZE COLS, CELL_SIZE COLS).

(** A pixel lies inside a rectangle, as [Rect.collidepoint] has it. *)
Definition in_rect (rect : Z * Z * Z * Z) (xy : pos) : Prop :=
  let '(x0, y0, width, height) := rect in
  x0 ≤ xy.1 < x0 + width ∧ y0 ≤ xy.2 < y0 + height.

(** The pixel [(cx, cy)] around which a diamond or a ghost is drawn. *)
Definition cell_center (p : pos) : pos :=
  (p.2 * CELL_SIZE COLS + CELL_SIZE COLS `div` 2,
   p.1 * CELL_SIZE COLS + CELL_SIZE COLS `div` 2).

(** The pixel [(px, py)] at which Pac-Man's frame is blitted. *)
Definition sprite_corner (p : pos) : pos :=
  (p.2 * CELL_SIZE COLS, p.1 * CELL_SIZE COLS).

End Screen.

(** ** Further vocabulary *)

Section Board.

Variables ROWS COLS : Z.

(** The board is in order: the grid has the configured size and every ghost
    stands on a cell of the grid that is not a Wall. *)
Definition tidy (st : game) : Prop :=
  wf_grid ROWS COLS (grid st)
  ∧ ∀ p, p ∈ ghost_positions st → walkable ROWS COLS (grid st) p.

(** What one move of a ghost may be: none, or a step to an adjacent cell of
    the grid that is not a Wall. *)
Definition ghost_hop (g : list (list Z)) (old new : pos) : Prop :=
  new = old ∨ (adjacent old new ∧ walkable ROWS COLS g new).

(** The marks on the grid agree with the editor's variables: the start
    cell holds Start and every reward cell holds Reward, inside the grid. *)
Definition marked (st : game) : Prop :=
  (∀ p, start st = Some p →
     in_bounds ROWS COLS p = true ∧ grid_get (grid st) p = Some START)
  ∧ (∀ p, p ∈ reward_cells st →
       in_bounds ROWS COLS p = true ∧ grid_get (grid st) p = Some REWARD).

(** The mark [m] is the last of the characters [ch0] in reading order. *)
Definition marks_last (chars : pos → ascii → Prop) (ch0 : ascii) (m : option pos)
  : Prop :=
  ∀ p, chars p ch0 → ∃ q, m = Some q ∧ (p.1 < q.1 ∨ (p.1 = q.1 ∧ p.2 ≤ q.2)).

(** What one frame reads from outside: the text of level1.txt, the key
    events with the clock at each, the mouse, and the two clock readings of
    the game logic. *)
Record input : Type := Input {
  in_level : option string;
  in_events : list (key * Z);
  in_mouse : mouse;
  in_now : Z;
  in_ticks : Z
}.

(** The frames of [while True], from a given state on. *)
Definition run (inputs : list input) (st : game) : option game :=
  foldl (λ acc i, st ← acc;
           frame ROWS COLS (in_level i) (in_events i) (in_mouse i) (in_now i)
             (in_ticks i) st)
    (Some st) inputs.

(** [main()]: the state before the first frame, then the frames. *)
Definition main (inputs : list input) : option game :=
  st ← initial ROWS COLS; run inputs st.

End Board.

(** The three modes of the main loop, editing, running and over, and what
    the run variables hold in each. *)
Definition coherent (st : game) : Prop :=
  (playing st = true →
     game_over st = false ∧ is_Some (pac_pos st) ∧ is_Some (start st)
     ∧ is_Some (goal st) ∧ is_Some (start_time st))
  ∧ (game_over st = true →
       is_Some (reason st) ∧ final_score st = Some (score st)
       ∧ is_Some (end_time st) ∧ is_Some (pac_pos st))
  ∧ (game_over st = false →
       reason st = None ∧ final_score st = None ∧ end_time st = None)
  ∧ (playing st = false → game_over st = false → pac_pos st = None).

(** ** The timer of [draw_hud] *)

(** [f"{n:02d}"]: the decimal numeral of [n], filled with a zero on the
    left when it has a single character. *)
Definition two_digits (n : Z) : string :=
  let s := NilZero.string_of_int (Z.to_int n) in
  if (String.length s <? 2)%nat then String "0" s else s.

(** The timer text [time_str]; [ticks] is what [pygame.time.get_ticks()]
    returns while the HUD is drawn. *)
Definition hud_time (ticks : Z) (start_time end_time : option Z) (game_over : bool)
  : string :=
  match start_time with
  | Some t0 =>
      let elapsed_ms :=
        match game_over, end_time with
        | true, Some t1 => t1 - t0
        | _, _ => ticks - t0
        end in
      let elapsed_sec := elapsed_ms `div` 1000 in
      let mins := elapsed_sec `div` 60 in
      let secs := elapsed_sec `mod` 60 in
      (two_digits mins ++ ":" ++ two_digits secs)%string
  | None => "00:00"%string
  end.

(** The character of a decimal digit. *)
Definition digit_char (d : Z) : ascii := ascii_of_nat (48 + Z.to_nat d).

(** The state in which the game opens on the 30 x 30 board. *)
Definition fresh : game :=
  Game (make_grid 30 30) None None ∅ None [(0, 0); (0, 29); (29, 0); (29, 29)]
    false false None 0 None None None 0 0.

(** Two level files with line ends of other systems: ["S-G-"] and ["----"]
    with CR LF line ends, and ["S.SS"] with a single CR. *)
Definition crlf_level : string :=
  String.append "S-G-" (String carriage_return (String newline
    (String.append "----" (String carriage_return (String newline ""))))).

Definition cr_level : string := String.append "S.SS" (String carriage_return "").

Section Properties.

Variables ROWS COLS : Z.


(** ** Grids *)

Lemma in_bounds_spec (p : pos) :
  in_bounds ROWS COLS p = true ↔ 0 ≤ p.1 < ROWS ∧ 0 ≤ p.2 < COLS.
Proof. unfold in_bounds. rewrite !andb_true_iff. lia. Qed.

Lemma make_grid_wf : wf_grid ROWS COLS (make_grid ROWS COLS).
Proof.
  unfold make_grid. split.
  - by rewrite length_replicate.
  - intros row Hrow. apply elem_of_replicate in Hrow as [-> _].
    by rewrite length_replicate.
Qed.

Lemma grid_get_wf (g : list (list Z)) (p : pos) :
  wf_grid ROWS COLS g → in_bounds ROWS COLS p = true → is_Some (grid_get g p).
Proof.
  intros [Hlen Hrows] Hp%in_bounds_spec. unfold grid_get.
  destruct (lookup_lt_is_Some_2 g (Z.to_nat p.1)) as [row Hrow]; [lia|].
  rewrite Hrow. cbn. apply lookup_lt_is_Some_2.
  rewrite (Hrows row) by (by eapply list_elem_of_lookup_2). lia.
Qed.

Lemma make_grid_get (p : pos) :
  in_bounds ROWS COLS p = true → grid_get (make_grid ROWS COLS) p = Some EMPTY.
Proof.
  intros Hp%in_bounds_spec. unfold grid_get, make_grid.
  rewrite lookup_replicate_2 by lia. cbn. apply lookup_replicate_2. lia.
Qed.

Lemma grid_set_wf (g : list (list Z)) (p : pos) (v : Z) :
  wf_grid ROWS COLS g → wf_grid ROWS COLS (grid_set g p v).
Proof.
  intros [Hlen Hrows]. unfold grid_set. split.
  - by rewrite length_alter.
  - intros row Hrow. apply list_elem_of_lookup in Hrow as [i Hi].
    destruct (decide (i = Z.to_nat p.1)) as [->|Hne].
    + rewrite list_lookup_alter_eq in Hi.
      destruct (g !! Z.to_nat p.1) as [row0|] eqn:H0; [|done].
      injection Hi as <-. rewrite length_insert.
      apply Hrows. by eapply list_elem_of_lookup_2.
    + rewrite list_lookup_alter_ne in Hi by done.
      apply Hrows. by eapply list_elem_of_lookup_2.
Qed.

Lemma grid_get_set (g : list (list Z)) (p q : pos) (v : Z) :
  wf_grid ROWS COLS g →
  in_bounds ROWS COLS p = true → in_bounds ROWS COLS q = true →
  grid_get (grid_set g p v) q = if decide (q = p) then Some v else grid_get g q.
Proof.
  intros Hwf Hp Hq.
  destruct (grid_get_wf g p Hwf Hp) as [x Hx].
  apply in_bounds_spec in Hp, Hq. destruct Hwf as [Hlen Hrows].
  unfold grid_get, grid_set in *.
  destruct (g !! Z.to_nat p.1) as [prow|] eqn:Hprow; [|done]. cbn in Hx.
  destruct (decide (Z.to_nat q.1 = Z.to_nat p.1)) as [Hr|Hr].
  - rewrite Hr, list_lookup_alter_eq, Hprow. cbn.
    destruct (decide (Z.to_nat q.2 = Z.to_nat p.2)) as [Hc|Hc].
    + rewrite Hc, list_lookup_insert_eq by (by eapply lookup_lt_Some).
      rewrite decide_True; [done|]. destruct p, q; simpl in *. f_equal; lia.
    + rewrite list_lookup_insert_ne by done.
      rewrite decide_False; [done|]. intros ->. done.
  - rewrite list_lookup_alter_ne by done.
    rewrite decide_False; [done|]. intros ->. done.
Qed.

(** ** Paths and predecessor chains *)

Lemma adjacent_move (a b : pos) :
  adjacent a b ↔ b ∈ map (move a) directions.
Proof.
  unfold adjacent, directions, move. cbn [map]. destruct a as [r c], b as [r' c'].
  cbn [fst snd]. rewrite !elem_of_cons, elem_of_nil. split.
  - intros H.
    assert ((r' = r + 1 ∧ c' = c + 0) ∨ (r' = r + -1 ∧ c' = c + 0)
            ∨ (r' = r + 0 ∧ c' = c + 1) ∨ (r' = r + 0 ∧ c' = c + -1))
      as [[-> ->]|[[-> ->]|[[-> ->]|[-> ->]]]] by lia; auto.
  - intros [[= -> ->]|[[= -> ->]|[[= -> ->]|[[= -> ->]|[]]]]]; lia.
Qed.

Lemma adjacent_sym (a b : pos) : adjacent a b → adjacent b a.
Proof. unfold adjacent. lia. Qed.

Lemma adjacent_ne (a b : pos) : adjacent a b → a ≠ b.
Proof. unfold adjacent. intros H ->. lia. Qed.

Lemma trail_snoc (ok : pos → Prop) (l : list pos) (a b : pos) :
  trail ok l → last l = Some a → adjacent a b → ok b → trail ok (l ++ [b]).
Proof.
  intros Ht. induction Ht as [x|x y l Hadj Hok Ht IH]; intros Hl Hab Hb.
  - injection Hl as ->. by constructor; [| |constructor].
  - cbn [app]. constructor; [done..|]. apply IH; [|done..].
    by rewrite last_cons_cons in Hl.
Qed.

Lemma trail_mono (ok ok' : pos → Prop) (l : list pos) :
  (∀ x, ok x → ok' x) → trail ok l → trail ok' l.
Proof. intros H. induction 1; constructor; auto. Qed.

Section Chains.

(** Predecessor links that descend along a rank reach their root. *)
Variable cf : gmap (Z * Z) (Z * Z).
Variable rank : pos → nat.
Hypothesis ranked : ∀ n p, cf !! n = Some p → (rank p < rank n)%nat.

Lemma chain_is_Some (fuel : nat) (x : pos) :
  (rank x ≤ fuel)%nat → is_Some (chain fuel cf x).
Proof.
  revert x. induction fuel as [|fuel IH]; intros x Hx; cbn [chain].
  - destruct (cf !! x) as [p|] eqn:Hp; [|done]. apply ranked in Hp. lia.
  - destruct (cf !! x) as [p|] eqn:Hp; [|done]. apply ranked in Hp.
    destruct (IH p) as [l Hl]; [lia|]. by rewrite Hl.
Qed.

Lemma chain_head (fuel : nat) (x : pos) (l : list pos) :
  chain fuel cf x = Some l → head l = Some x.
Proof.
  destruct fuel; cbn [chain]; destruct (cf !! x); intros H; try done;
    try by injection H as <-.
  apply fmap_Some in H as (l' & _ & ->). done.
Qed.

Lemma chain_length (fuel : nat) (x : pos) (l : list pos) :
  chain fuel cf x = Some l → (length l ≤ S (rank x))%nat.
Proof.
  revert x l. induction fuel as [|fuel IH]; intros x l; cbn [chain];
    destruct (cf !! x) as [p|] eqn:Hp; intros H; try done;
    try (injection H as <-; simpl; lia).
  apply fmap_Some in H as (l' & Hl' & ->).
  apply IH in Hl'. apply ranked in Hp. simpl. lia.
Qed.

Lemma chain_trail (ok seen : pos → Prop) (fuel : nat) (x : pos) (l : list pos) :
  (∀ n p, cf !! n = Some p → ok n ∧ adjacent p n ∧ seen p) →
  seen x →
  chain fuel cf x = Some l →
  trail ok (reverse l) ∧ last (reverse l) = Some x
  ∧ ∃ e, head (reverse l) = Some e ∧ cf !! e = None ∧ seen e.
Proof.
  intros Hlink. revert x l. induction fuel as [|fuel IH]; intros x l Hx; cbn [chain];
    destruct (cf !! x) as [p|] eqn:Hp; intros H; try done;
    try (injection H as <-; split; [constructor|split; [done|by exists x]]).
  apply fmap_Some in H as (l' & Hl' & ->).
  destruct (Hlink _ _ Hp) as (Hok & Hadj & Hseen).
  destruct (IH _ _ Hseen Hl') as (Ht & Hlast & e & He & Hce).
  rewrite reverse_cons. split; [by eapply trail_snoc|].
  split; [by rewrite last_snoc|]. exists e. split; [|done].
  destruct (reverse l') as [|y k]; [done|]. cbn in He |- *. done.
Qed.

End Chains.

(** [reconstruct_path] returns a route from the root of the links. *)
Lemma reconstruct_path_route (ok seen : pos → Prop) (cf : gmap (Z * Z) (Z * Z))
  (rank : pos → nat) (s x : pos) :
  (∀ n p, cf !! n = Some p → (rank p < rank n)%nat) →
  (∀ n p, cf !! n = Some p → ok n ∧ adjacent p n ∧ seen p) →
  (∀ e, seen e → cf !! e = None → e = s) →
  seen x →
  (rank x ≤ size cf)%nat →
  ∃ path, reconstruct_path cf x = Some path ∧ route ok s path x
          ∧ (length path ≤ S (rank x))%nat.
Proof.
  intros Hrank Hlink Hroot Hx Hsize. unfold reconstruct_path.
  destruct (chain_is_Some cf rank Hrank (S (size cf)) x) as [l Hl]; [lia|].
  rewrite Hl. exists (reverse l). split; [done|].
  destruct (chain_trail cf ok seen _ _ _ Hlink Hx Hl) as (Ht & Hlast & e & He & Hce & Hse).
  rewrite (Hroot e Hse Hce) in He.
  split; [done|]. rewrite length_reverse. by eapply chain_length.
Qed.


(** ** Breadth-first search *)

Lemma walkable_spec (g : list (list Z)) (p : pos) :
  in_bounds ROWS COLS p
  && match grid_get g p with Some v => negb (v =? WALL) | None => false end = true
  ↔ walkable ROWS COLS g p.
Proof.
  unfold walkable. rewrite andb_true_iff. split.
  - intros [Hin Hv]. split; [done|]. destruct (grid_get g p) as [v|]; [|done].
    exists v. split; [done|]. apply negb_true_iff, Z.eqb_neq in Hv. done.
  - intros [Hin (v & -> & Hv)]. split; [done|]. by apply negb_true_iff, Z.eqb_neq.
Qed.

Lemma bfs_visit_step (g : list (list Z)) (cur : pos) (st : bfs_state) (d : pos) :
  wf_grid ROWS COLS g →
  bfs_visit ROWS COLS g cur (Some st) d = Some (bfs_step ROWS COLS g cur st (move cur d)).
Proof.
  intros Hwf. unfold bfs_visit, bfs_step. cbn [mbind option_bind].
  destruct (in_bounds ROWS COLS (move cur d)) eqn:Hin; [|done].
  destruct (grid_get_wf g _ Hwf Hin) as [v ->]. cbn [mbind option_bind andb].
  destruct (v =? WALL); [done|]. cbn [negb andb].
  by destruct (bool_decide (move cur d ∈ visited st)).
Qed.

Lemma bfs_expand_step (g : list (list Z)) (cur : pos) (st : bfs_state) :
  wf_grid ROWS COLS g →
  bfs_expand ROWS COLS g cur st
  = Some (foldl (bfs_step ROWS COLS g cur) st (map (move cur) directions)).
Proof.
  intros Hwf. unfold bfs_expand. generalize directions. intros ds. revert st.
  induction ds as [|d ds IH]; intros st; [done|].
  cbn [foldl map]. rewrite bfs_visit_step by done. apply IH.
Qed.

Lemma bfs_inv_init (g : list (list Z)) (s t : pos) :
  s ≠ t → bfs_inv ROWS COLS g s t s [] {[s := 0%nat]} 0 (Bfs [s] {[s]} ∅).
Proof.
  intros Hst. split; cbn [q visited bfs_came_from].
  - intros p. rewrite elem_of_singleton, lookup_singleton_is_Some. naive_solver.
  - apply lookup_singleton_eq.
  - intros n p. by rewrite lookup_empty.
  - intros n Hn _. by apply elem_of_singleton in Hn.
  - intros n j [-> <-]%lookup_singleton_Some. lia.
  - exists [s], []. split; [done|]. split.
    + intros x ->%list_elem_of_singleton. apply lookup_singleton_eq.
    + intros x Hx. by apply elem_of_nil in Hx.
  - intros n j [-> <-]%lookup_singleton_Some Hn. destruct Hn. apply list_elem_of_here.
  - intros Ht%elem_of_singleton. by destruct Hst.
  - intros p Hp%elem_of_singleton. by left.
Qed.

Lemma bfs_inv_levels (g : list (list Z)) (s t cur : pos) (pending : list pos)
  (lv : gmap pos nat) (k : nat) (st : bfs_state) (n : pos) (j : nat) :
  bfs_inv ROWS COLS g s t cur pending lv k st →
  lv !! n = Some j → (j ≤ S k)%nat.
Proof.
  intros Hi Hn. destruct (decide (n ∈ q st)) as [Hq|Hq].
  - destruct (bi_queue _ _ _ _ _ _ _ _ _ _ Hi) as (q1 & q2 & Hqq & H1 & H2).
    rewrite Hqq in Hq. apply elem_of_app in Hq as [Hq|Hq];
      [apply H1 in Hq|apply H2 in Hq]; rewrite Hq in Hn; injection Hn as <-; lia.
  - destruct (bi_closed _ _ _ _ _ _ _ _ _ _ Hi n j Hn Hq) as [? _]. lia.
Qed.

Lemma bfs_inv_pop (g : list (list Z)) (s t c0 cur : pos) (rest : list pos)
  (lv : gmap pos nat) (k : nat) (st : bfs_state) :
  bfs_inv ROWS COLS g s t c0 [] lv k st →
  q st = cur :: rest → cur ≠ t →
  ∃ k', lv !! cur = Some k'
    ∧ bfs_inv ROWS COLS g s t cur (map (move cur) directions) lv k'
        (Bfs rest (visited st) (bfs_came_from st)).
Proof.
  intros [Hdom Hs Hcf Hroot Hsize (q1 & q2 & Hqq & H1 & H2) Hcl Hgoal Hcells] Hq Hne.
  assert (Hk : ∃ k' q1' q2', lv !! cur = Some k' ∧ (k ≤ k')%nat ∧ rest = q1' ++ q2'
               ∧ (∀ x, x ∈ q1' → lv !! x = Some k')
               ∧ (∀ x, x ∈ q2' → lv !! x = Some (S k'))).
  { rewrite Hq in Hqq. destruct q1 as [|a q1].
    - destruct q2 as [|a q2]; [done|]. injection Hqq as -> ->.
      exists (S k), q2, []. rewrite app_nil_r.
      split; [apply H2, list_elem_of_here|]. split; [lia|]. split; [done|].
      split; [intros x Hx; by apply H2, list_elem_of_further|].
      intros x Hx. by apply elem_of_nil in Hx.
    - injection Hqq as -> ->. exists k, q1, q2.
      split; [apply H1, list_elem_of_here|]. split; [lia|]. split; [done|].
      split; [|done]. intros x Hx. by apply H1, list_elem_of_further. }
  destruct Hk as (k' & q1' & q2' & Hcur & Hkk & Hrest & H1' & H2').
  exists k'. split; [done|]. split; cbn [q visited bfs_came_from]; try done.
  - by exists q1', q2'.
  - intros n j Hn Hnr. destruct (decide (n = cur)) as [->|Hnc].
    + rewrite Hcur in Hn. injection Hn as <-. split; [lia|].
      intros m Hm _. left. split; [done|]. by apply adjacent_move.
    + assert (Hnq : n ∉ q st).
      { rewrite Hq. intros [->|?]%elem_of_cons; done. }
      destruct (Hcl n j Hn Hnq) as [Hj Hm]. split; [lia|].
      intros m Ham Hwm. destruct (Hm m Ham Hwm) as [[_ He]|Hr]; [|by right].
      by apply elem_of_nil in He.
  - intros Ht. specialize (Hgoal Ht). rewrite Hq in Hgoal.
    apply elem_of_cons in Hgoal as [->|]; done.
Qed.

Lemma bfs_inv_step (g : list (list Z)) (s t cur nxt : pos) (pending : list pos)
  (lv : gmap pos nat) (k : nat) (st : bfs_state) :
  bfs_inv ROWS COLS g s t cur (nxt :: pending) lv k st →
  lv !! cur = Some k → adjacent cur nxt →
  ∃ lv', bfs_inv ROWS COLS g s t cur pending lv' k (bfs_step ROWS COLS g cur st nxt)
    ∧ lv' !! cur = Some k
    ∧ (size (visited (bfs_step ROWS COLS g cur st nxt)) + length (q st)
       = size (visited st) + length (q (bfs_step ROWS COLS g cur st nxt)))%nat.
Proof.
  intros Hi Hcur Hadj.
  pose proof (λ n j, bfs_inv_levels _ _ _ _ _ _ _ _ n j Hi) as Hlev.
  destruct Hi as [Hdom Hs Hcf Hroot Hsize (q1 & q2 & Hqq & H1 & H2) Hcl Hgoal Hcells].
  unfold bfs_step.
  destruct (in_bounds ROWS COLS nxt
            && match grid_get g nxt with
               | Some v => negb (v =? WALL) | None => false end) eqn:Hw.
  2:{ cbn [andb]. exists lv. split; [|by split]. split; try done.
      - by exists q1, q2.
      - intros n j Hn Hnq. destruct (Hcl n j Hn Hnq) as [Hj Hm]. split; [done|].
        intros m Ham Hwm. destruct (Hm m Ham Hwm) as [[-> He]|Hr]; [|by right].
        apply elem_of_cons in He as [->|He]; [|by left].
        apply walkable_spec in Hwm. congruence. }
  destruct (bool_decide (nxt ∈ visited st)) eqn:Hv; cbn [andb negb].
  { apply bool_decide_eq_true in Hv. exists lv. split; [|by split]. split; try done.
    - by exists q1, q2.
    - intros n j Hn Hnq. destruct (Hcl n j Hn Hnq) as [Hj Hm]. split; [done|].
      intros m Ham Hwm. destruct (Hm m Ham Hwm) as [[-> He]|Hr]; [|by right].
      apply elem_of_cons in He as [->|He]; [|by left].
      right. apply Hdom in Hv as [i Hi]. exists i. split; [done|].
      rewrite Hcur in Hn. injection Hn as <-. by eapply Hlev. }
  apply bool_decide_eq_false in Hv. apply walkable_spec in Hw.
  assert (Hlvn : lv !! nxt = None).
  { apply eq_None_not_Some. by rewrite <- Hdom. }
  assert (Hcfn : bfs_came_from st !! nxt = None).
  { destruct (bfs_came_from st !! nxt) as [p|] eqn:Hp; [|done].
    apply Hcf in Hp as (_ & _ & j & _ & Hj). congruence. }
  exists (<[nxt := S k]> lv). split; [|split].
  - split; cbn [q visited bfs_came_from].
    + intros p. rewrite elem_of_union, elem_of_singleton, lookup_insert_is_Some, Hdom.
      destruct (decide (nxt = p)); naive_solver.
    + rewrite lookup_insert_ne; [done|]. intros ->. congruence.
    + intros n p Hp. apply lookup_insert_Some in Hp as [[<- <-]|[Hne Hp]].
      * split; [done|]. split; [done|]. exists k.
        rewrite lookup_insert_ne by (intros ->; congruence).
        by rewrite lookup_insert_eq.
      * destruct (Hcf _ _ Hp) as (Hwn & Han & j & Hj & Hj').
        split; [done|]. split; [done|]. exists j.
        rewrite !lookup_insert_ne by (intros ->; congruence). done.
    + intros n Hn Hnone. apply lookup_insert_None in Hnone as [Hnone Hne].
      apply Hroot; [|done]. set_solver.
    + intros n j Hn. rewrite map_size_insert_None by done.
      apply lookup_insert_Some in Hn as [[<- <-]|[_ Hn]].
      * specialize (Hsize _ _ Hcur). lia.
      * specialize (Hsize _ _ Hn). lia.
    + exists q1, (q2 ++ [nxt]). split; [by rewrite Hqq, app_assoc|]. split.
      * intros x Hx. rewrite lookup_insert_ne; [by apply H1|].
        intros ->. apply H1 in Hx. congruence.
      * intros x [Hx|Hx]%elem_of_app.
        -- rewrite lookup_insert_ne; [by apply H2|].
           intros ->. apply H2 in Hx. congruence.
        -- apply list_elem_of_singleton in Hx as ->. apply lookup_insert_eq.
    + intros n j Hn Hnq. apply not_elem_of_app in Hnq as [Hnq Hnn].
      rewrite list_elem_of_singleton in Hnn.
      rewrite lookup_insert_ne in Hn by done.
      destruct (Hcl n j Hn Hnq) as [Hj Hm]. split; [done|].
      intros m Ham Hwm. destruct (Hm m Ham Hwm) as [[-> He]|(i & Hi & Hle)].
      * apply elem_of_cons in He as [->|He]; [|by left].
        right. exists (S k). rewrite lookup_insert_eq. split; [done|].
        rewrite Hcur in Hn. injection Hn as <-. lia.
      * right. exists i. split; [|done].
        rewrite lookup_insert_ne; [done|]. intros ->. congruence.
    + intros Ht. apply elem_of_app. apply elem_of_union in Ht as [Ht|Ht].
      * right. apply elem_of_singleton in Ht as ->. apply list_elem_of_here.
      * left. by apply Hgoal.
    + intros p [Hp|Hp]%elem_of_union; [|by apply Hcells].
      apply elem_of_singleton in Hp as ->. right. apply Hw.
  - rewrite lookup_insert_ne; [done|]. intros ->. congruence.
  - cbn [q visited]. rewrite size_union by set_solver.
    rewrite size_singleton, length_app. simpl. lia.
Qed.

Lemma bfs_inv_fold (g : list (list Z)) (s t cur : pos) (k : nat) (ns : list pos) :
  ∀ (lv : gmap pos nat) (st : bfs_state),
  Forall (adjacent cur) ns →
  bfs_inv ROWS COLS g s t cur ns lv k st →
  lv !! cur = Some k →
  ∃ lv', bfs_inv ROWS COLS g s t cur [] lv' k (foldl (bfs_step ROWS COLS g cur) st ns)
    ∧ (size (visited (foldl (bfs_step ROWS COLS g cur) st ns)) + length (q st)
       = size (visited st) + length (q (foldl (bfs_step ROWS COLS g cur) st ns)))%nat.
Proof.
  induction ns as [|n ns IH]; intros lv st Hadj Hi Hcur; cbn [foldl].
  - by exists lv.
  - apply Forall_cons in Hadj as [Hn Hns].
    destruct (bfs_inv_step _ _ _ _ _ _ _ _ _ Hi Hcur Hn) as (lv1 & Hi1 & Hcur1 & Hsz1).
    destruct (IH _ _ Hns Hi1 Hcur1) as (lv2 & Hi2 & Hsz2).
    exists lv2. split; [done|]. lia.
Qed.

(** Walking along a trail from a cell that is closed at level at most [L],
    one stays among closed cells whose level grows by at most one per step,
    until one meets the queue. *)
Lemma bfs_reach (g : list (list Z)) (s t c0 : pos) (lv : gmap pos nat) (k : nat)
  (st : bfs_state) (p : list pos) :
  bfs_inv ROWS COLS g s t c0 [] lv k st →
  trail (walkable ROWS COLS g) p →
  ∀ (a x : pos) (L : nat),
  head p = Some a → last p = Some x →
  (∃ j, lv !! a = Some j ∧ (j ≤ L)%nat) →
  (∃ j, lv !! x = Some j ∧ (j + 1 ≤ L + length p)%nat)
  ∨ (∃ y j, y ∈ q st ∧ lv !! y = Some j ∧ (j + 1 ≤ L + length p)%nat).
Proof.
  intros Hi Ht. induction Ht as [b|b b' l Hadj Hok Ht IH]; intros a x L Ha Hx (j & Hj & HjL).
  - injection Ha as ->. injection Hx as ->. left. exists j. simpl. split; [done|lia].
  - injection Ha as ->. rewrite last_cons_cons in Hx.
    destruct (decide (a ∈ q st)) as [Hq|Hq].
    { right. exists a, j. simpl. split; [done|]. split; [done|lia]. }
    destruct (bi_closed _ _ _ _ _ _ _ _ _ _ Hi a j Hj Hq) as [_ Hm].
    destruct (Hm b' Hadj Hok) as [[_ He]|(i & Hi' & Hle)]; [by apply elem_of_nil in He|].
    destruct (IH b' x (S L) eq_refl Hx) as [(j' & Hj' & Hl')|(y & j' & Hy & Hj' & Hl')].
    + exists i. split; [done|lia].
    + left. exists j'. split; [done|]. simpl in *. lia.
    + right. exists y, j'. split; [done|]. split; [done|]. simpl in *. lia.
Qed.

Lemma size_list_to_set_le (l : list pos) :
  (size (list_to_set l : gset (Z * Z)) ≤ length l)%nat.
Proof.
  induction l as [|x l IH]; cbn [list_to_set length].
  - by rewrite size_empty.
  - rewrite size_union_alt, size_singleton.
    pose proof (subseteq_size (list_to_set l ∖ {[x]}) (list_to_set l : gset (Z * Z))
                  ltac:(set_solver)).
    lia.
Qed.

Lemma in_bounds_all_cells (p : pos) :
  in_bounds ROWS COLS p = true → p ∈ all_cells ROWS COLS.
Proof.
  intros Hp%in_bounds_spec. unfold all_cells. destruct p as [r c].
  apply list_elem_of_In, in_prod_iff.
  rewrite <- !list_elem_of_In, !elem_of_seqZ. simpl in Hp. lia.
Qed.

Lemma all_cells_length : length (all_cells ROWS COLS) = cells ROWS COLS.
Proof. unfold all_cells, cells. by rewrite length_prod, !length_seqZ. Qed.

Lemma size_le_cells (X : gset (Z * Z)) (s : pos) :
  (∀ p, p ∈ X → p = s ∨ in_bounds ROWS COLS p = true) →
  (size X ≤ S (cells ROWS COLS))%nat.
Proof.
  intros H.
  assert (Hsub : X ⊆ {[s]} ∪ list_to_set (all_cells ROWS COLS)).
  { intros p Hp. destruct (H p Hp) as [->|Hin]; [set_solver|].
    apply elem_of_union. right. by apply elem_of_list_to_set, in_bounds_all_cells. }
  apply subseteq_size in Hsub. rewrite size_union_alt, size_singleton in Hsub.
  pose proof (subseteq_size (list_to_set (all_cells ROWS COLS) ∖ {[s]})
                (list_to_set (all_cells ROWS COLS) : gset (Z * Z)) ltac:(set_solver)).
  pose proof (size_list_to_set_le (all_cells ROWS COLS)).
  rewrite all_cells_length in *. lia.
Qed.

Lemma bfs_loop_spec (g : list (list Z)) (s t : pos) :
  wf_grid ROWS COLS g → s ≠ t →
  ∀ (fuel : nat) (st : bfs_state) (c0 : pos) (lv : gmap pos nat) (k c : nat),
  bfs_inv ROWS COLS g s t c0 [] lv k st →
  (c + length (q st) = size (visited st))%nat →
  (cells ROWS COLS + 2 ≤ c + fuel)%nat →
  ∃ r, bfs_loop ROWS COLS fuel g t st = Ret r
    ∧ (∀ path, r = Some path →
         route (walkable ROWS COLS g) s path t
         ∧ ∀ p', route (walkable ROWS COLS g) s p' t → (length path ≤ length p')%nat)
    ∧ (r = None → ∀ p', ¬ route (walkable ROWS COLS g) s p' t).
Proof.
  intros Hwf Hst. induction fuel as [|fuel IH]; intros st c0 lv k c Hi Hc Hfuel.
  { pose proof (size_le_cells (visited st) s (bi_cells _ _ _ _ _ _ _ _ _ _ Hi)). lia. }
  cbn [bfs_loop]. destruct (q st) as [|cur rest] eqn:Hq.
  - exists None. split; [done|]. split; [done|]. intros _ p' (Hh & Hl & Ht).
    assert (Hs0 : ∃ j, lv !! s = Some j ∧ (j ≤ 0)%nat).
    { exists 0%nat. split; [apply Hi|lia]. }
    destruct (bfs_reach _ _ _ _ _ _ _ _ Hi Ht s t 0%nat Hh Hl Hs0)
      as [(j & Hj & _)|(y & j & Hy & _)].
    + assert (Hv : t ∈ visited st) by (by apply (bi_dom _ _ _ _ _ _ _ _ _ _ Hi)).
      apply (bi_goal _ _ _ _ _ _ _ _ _ _ Hi) in Hv. rewrite Hq in Hv.
      by apply elem_of_nil in Hv.
    + rewrite Hq in Hy. by apply elem_of_nil in Hy.
  - case_bool_decide as Hcur.
    + subst cur. cbn [bfs_came_from].
      assert (Htq : t ∈ q st) by (rewrite Hq; apply list_elem_of_here).
      assert (∃ jt, lv !! t = Some jt) as [jt Hjt].
      { destruct (bi_queue _ _ _ _ _ _ _ _ _ _ Hi) as (q1 & q2 & Hqq & H1 & H2).
        rewrite Hqq in Htq. apply elem_of_app in Htq as [?|?]; eauto. }
      destruct (reconstruct_path_route (walkable ROWS COLS g) (λ x, x ∈ visited st)
                  (bfs_came_from st) (λ x, default 0%nat (lv !! x)) s t)
        as (path & Hpath & Hroute & Hlen).
      * intros n p Hp. apply (bi_cf _ _ _ _ _ _ _ _ _ _ Hi) in Hp
          as (_ & _ & j & -> & ->). simpl. lia.
      * intros n p Hp. apply (bi_cf _ _ _ _ _ _ _ _ _ _ Hi) in Hp
          as (Hw & Ha & j & Hj & _). split; [done|]. split; [done|].
        apply (bi_dom _ _ _ _ _ _ _ _ _ _ Hi). eauto.
      * apply (bi_root _ _ _ _ _ _ _ _ _ _ Hi).
      * apply (bi_dom _ _ _ _ _ _ _ _ _ _ Hi). eauto.
      * rewrite Hjt. simpl. by eapply (bi_size _ _ _ _ _ _ _ _ _ _ Hi).
      * rewrite Hpath. exists (Some path). split; [done|]. split; [|done].
        intros ? [= <-]. split; [done|]. intros p' (Hh & Hl & Ht).
        rewrite Hjt in Hlen. simpl in Hlen.
        assert (Hs0 : ∃ j, lv !! s = Some j ∧ (j ≤ 0)%nat).
        { exists 0%nat. split; [apply Hi|lia]. }
        assert (Hmin : ∀ y j, y ∈ q st → lv !! y = Some j → (jt ≤ j)%nat).
        { destruct (bi_queue _ _ _ _ _ _ _ _ _ _ Hi) as (q1 & q2 & Hqq & H1 & H2).
          intros y j Hy Hj. rewrite Hq in Hqq.
          assert (Hyq : y ∈ q1 ++ q2) by (by rewrite <- Hqq, <- Hq).
          destruct q1 as [|a q1].
          - cbn [app] in *. rewrite (H2 y Hyq) in Hj.
            rewrite <- Hqq in H2. rewrite (H2 t (list_elem_of_here _ _)) in Hjt.
            injection Hj as <-. injection Hjt as <-. lia.
          - injection Hqq as <- _. rewrite (H1 t (list_elem_of_here _ _)) in Hjt.
            injection Hjt as <-.
            apply elem_of_app in Hyq as [Hy1|Hy2];
              [rewrite (H1 _ Hy1) in Hj|rewrite (H2 _ Hy2) in Hj];
              injection Hj as <-; lia. }
        destruct (bfs_reach _ _ _ _ _ _ _ _ Hi Ht s t 0%nat Hh Hl Hs0)
          as [(j & Hj & Hle)|(y & j & Hy & Hj & Hle)].
        -- rewrite Hjt in Hj. injection Hj as <-. lia.
        -- specialize (Hmin _ _ Hy Hj). lia.
    + destruct (bfs_inv_pop _ _ _ _ _ _ _ _ _ Hi Hq Hcur) as (k' & Hk' & Hi').
      rewrite bfs_expand_step by done.
      destruct (bfs_inv_fold g s t cur k' (map (move cur) directions) lv
                  (Bfs rest (visited st) (bfs_came_from st)))
        as (lv' & Hi'' & Hsz); [|done|done|].
      { apply Forall_forall. intros x Hx. by apply adjacent_move. }
      cbn [q visited] in Hsz.
      apply (IH _ cur lv' k' (S c) Hi''); [|lia].
      simpl in Hc. lia.
Qed.

Lemma trail_Forall (ok : pos → Prop) (l : list pos) :
  trail ok l → (∀ a, head l = Some a → ok a) → Forall ok l.
Proof.
  induction 1 as [a|a b l Hadj Hok Ht IH]; intros Ha.
  - constructor; [by apply Ha|constructor].
  - constructor; [by apply Ha|]. apply IH. by intros ? [= <-].
Qed.

(** Totality and correctness of [bfs_path] on a grid of the configured
    size: the answer is a shortest route whose cells after the start are
    walkable, [[start]] when the endpoints coincide, and [None] exactly when
    there is no such route. *)
Lemma bfs_path_spec (g : list (list Z)) (s t : pos) :
  wf_grid ROWS COLS g →
  ∃ r, bfs_path ROWS COLS g (Some s) (Some t) = Ret r
    ∧ (s = t → r = Some [s])
    ∧ (∀ path, r = Some path →
         route (walkable ROWS COLS g) s path t
         ∧ ∀ p', route (walkable ROWS COLS g) s p' t → (length path ≤ length p')%nat)
    ∧ (r = None ↔ ¬ ∃ p', route (walkable ROWS COLS g) s p' t).
Proof.
  intros Hwf. unfold bfs_path. case_bool_decide as Hst.
  - subst t. exists (Some [s]). split; [done|]. split; [done|]. split.
    + intros ? [= <-]. split; [by repeat split; constructor|].
      intros p' (Hh & _). destruct p'; [done|]. simpl. lia.
    + split; [done|]. intros H. destruct H. exists [s]. by repeat split; constructor.
  - destruct (bfs_loop_spec g s t Hwf Hst (bfs_fuel ROWS COLS) _ s _ 0%nat 0%nat
                (bfs_inv_init g s t Hst)) as (r & Hr & Hsome & Hnone).
    + cbn [q visited]. by rewrite size_singleton.
    + unfold bfs_fuel. lia.
    + exists r. split; [done|]. split; [done|]. split; [done|]. split.
      * intros Hn [p' Hp']. by eapply Hnone.
      * intros Hno. destruct r as [path|]; [|done].
        destruct Hno. exists path. by apply Hsome.
Qed.

(** C4, as the code has it.  On a grid of the configured size [bfs_path]
    always returns; its path is a shortest one among the paths whose cells
    after the start are in bounds and not Wall (the start cell itself is
    not checked, so when the start is walkable every cell of the path is);
    it is [[start]] when start and goal coincide; and it is [None] exactly
    when no such path exists, or when an endpoint is undefined. *)
Theorem bfs_path_shortest (g : list (list Z)) (s t : pos) :
  wf_grid ROWS COLS g →
  ∃ r, bfs_path ROWS COLS g (Some s) (Some t) = Ret r
    ∧ (s = t → r = Some [s])
    ∧ (∀ path, r = Some path →
         route (walkable ROWS COLS g) s path t
         ∧ (∀ p', route (walkable ROWS COLS g) s p' t → (length path ≤ length p')%nat)
         ∧ (walkable ROWS COLS g s → Forall (walkable ROWS COLS g) path))
    ∧ (r = None ↔ ¬ ∃ p', route (walkable ROWS COLS g) s p' t)
    ∧ bfs_path ROWS COLS g None (Some t) = Ret None
    ∧ bfs_path ROWS COLS g (Some s) None = Ret None
    ∧ bfs_path ROWS COLS g None None = Ret None.
Proof.
  intros Hwf. destruct (bfs_path_spec g s t Hwf) as (r & Hr & Heq & Hsome & Hnone).
  exists r. split; [done|]. split; [done|].
  split; [|split; [exact Hnone|by repeat split]].
  intros path Hp. destruct (Hsome path Hp) as [Hroute Hmin].
  split; [done|]. split; [done|]. intros Hs.
  destruct Hroute as (Hh & _ & Ht). apply trail_Forall; [done|].
  intros a Ha. rewrite Hh in Ha. by injection Ha as <-.
Qed.

(** ** A* search: what every run satisfies *)

Lemma heappush_perm (h : list (Z * Z * (Z * Z))) (e : Z * Z * (Z * Z)) :
  heappush h e ≡ₚ e :: h.
Proof.
  induction h as [|x h IH]; cbn [heappush]; [done|].
  destruct (entry_ltb e x); [done|]. rewrite IH. apply Permutation_swap.
Qed.

Lemma heappush_nodes (h : list (Z * Z * (Z * Z))) (e : Z * Z * (Z * Z)) :
  (heappush h e).*2 ≡ₚ e.2 :: h.*2.
Proof. by rewrite heappush_perm. Qed.

Lemma heappush_length (h : list (Z * Z * (Z * Z))) (e : Z * Z * (Z * Z)) :
  length (heappush h e) = S (length h).
Proof. by rewrite heappush_perm. Qed.

Lemma freeb_spec (g : list (list Z)) (blocked : gset pos) (n : pos) :
  freeb ROWS COLS g blocked n = true ↔ free ROWS COLS g blocked n.
Proof.
  unfold freeb, free. rewrite andb_true_iff, walkable_spec, negb_true_iff.
  rewrite bool_decide_eq_false. done.
Qed.

Lemma visit_step (g : list (list Z)) (blocked : gset pos) (t cur d : pos)
  (st st' : astar_state) :
  visit ROWS COLS g blocked t cur (Some st) d = Some st' →
  st' = astar_step ROWS COLS g blocked t cur st (move cur d).
Proof.
  unfold visit, astar_step, passable, freeb. cbn [mbind option_bind].
  destruct (in_bounds ROWS COLS (move cur d)); [|by intros [= <-]].
  destruct (grid_get g (move cur d)) as [v|]; [|done]. cbn [mbind option_bind andb].
  by intros [= <-].
Qed.

Lemma visit_step_wf (g : list (list Z)) (blocked : gset pos) (t cur d : pos)
  (st : astar_state) :
  wf_grid ROWS COLS g →
  visit ROWS COLS g blocked t cur (Some st) d
  = Some (astar_step ROWS COLS g blocked t cur st (move cur d)).
Proof.
  intros Hwf. unfold visit, astar_step, passable, freeb. cbn [mbind option_bind].
  destruct (in_bounds ROWS COLS (move cur d)) eqn:Hin; [|done].
  by destruct (grid_get_wf g _ Hwf Hin) as [v ->].
Qed.

Lemma expand_step (g : list (list Z)) (blocked : gset pos) (t cur : pos)
  (st st' : astar_state) :
  expand ROWS COLS g blocked t cur st = Some st' →
  st' = foldl (astar_step ROWS COLS g blocked t cur) st (map (move cur) directions).
Proof.
  unfold expand. generalize directions. intros ds. revert st.
  induction ds as [|d ds IH]; intros st; cbn [foldl map]; [by intros [= <-]|].
  destruct (visit ROWS COLS g blocked t cur (Some st) d) as [st1|] eqn:Hv.
  - apply visit_step in Hv as ->. apply IH.
  - intros H. exfalso. clear -H. induction ds as [|d' ds IH]; [done|]. by apply IH.
Qed.

Lemma expand_step_wf (g : list (list Z)) (blocked : gset pos) (t cur : pos)
  (st : astar_state) :
  wf_grid ROWS COLS g →
  expand ROWS COLS g blocked t cur st
  = Some (foldl (astar_step ROWS COLS g blocked t cur) st (map (move cur) directions)).
Proof.
  intros Hwf. unfold expand. generalize directions. intros ds. revert st.
  induction ds as [|d ds IH]; intros st; [done|].
  cbn [foldl map]. rewrite visit_step_wf by done. apply IH.
Qed.

Lemma sum_list_with_drop (f f' : pos → nat) (l : list pos) (x : pos) :
  x ∈ l → (f' x < f x)%nat → (∀ y, (f' y ≤ f y)%nat) →
  (sum_list_with f' l + 1 ≤ sum_list_with f l)%nat.
Proof.
  intros Hx Hlt Hle. induction l as [|y l IH]; [by apply elem_of_nil in Hx|].
  cbn [sum_list_with].
  assert (Hl : (sum_list_with f' l ≤ sum_list_with f l)%nat).
  { clear -Hle. induction l as [|z l IH]; cbn [sum_list_with]; [lia|].
    specialize (Hle z). lia. }
  apply elem_of_cons in Hx as [<-|Hx]; [lia|].
  specialize (IH Hx). specialize (Hle y). lia.
Qed.

Lemma sum_list_with_bound (f : pos → nat) (l : list pos) (b : nat) :
  (∀ y, (f y ≤ b)%nat) → (sum_list_with f l ≤ length l * b)%nat.
Proof.
  intros H. induction l as [|y l IH]; cbn [sum_list_with length]; [lia|].
  specialize (H y). lia.
Qed.

Lemma relax_cases (t cur nb : pos) (st : astar_state) (gc : Z) :
  g_score st !! cur = Some gc →
  (relax t cur st nb = st
   ∧ ∃ y, g_score st !! nb = Some y ∧ y ≤ gc + 1)
  ∨ (lt_inf (gc + 1) (g_score st !! nb) = true
     ∧ ∃ h' o',
       relax t cur st nb
       = AStar (<[nb := gc + 1]> (g_score st)) (<[nb := cur]> (came_from st)) h' o'
           (if bool_decide (nb ∈ in_open st) then counter st else counter st + 1)
       ∧ ((nb ∈ in_open st ∧ h' = open_set st ∧ o' = in_open st)
          ∨ ((nb ∉ in_open st)
             ∧ h' = heappush (open_set st)
                      (gc + 1 + heuristic nb t, counter st + 1, nb)
             ∧ o' = {[nb]} ∪ in_open st))).
Proof.
  intros Hc. unfold relax. rewrite Hc.
  destruct (lt_inf (gc + 1) (g_score st !! nb)) eqn:Hlt.
  - right. split; [done|]. case_bool_decide; eexists _, _; split; eauto.
  - left. split; [done|]. unfold lt_inf in Hlt.
    destruct (g_score st !! nb) as [y|]; [|done]. exists y. split; [done|lia].
Qed.

Lemma astar_inv_init (g : list (list Z)) (blocked : gset pos) (s t : pos) :
  astar_inv ROWS COLS g blocked s t s [] (astar_init s t).
Proof.
  split; cbn [astar_init g_score came_from open_set in_open].
  - apply lookup_singleton_eq.
  - intros n x [-> <-]%lookup_singleton_Some. rewrite map_size_empty. lia.
  - intros n p. by rewrite lookup_empty.
  - intros n [x [-> _]%lookup_singleton_Some] _. done.
  - intros n. cbn. rewrite elem_of_singleton, list_elem_of_singleton. done.
  - cbn. apply NoDup_singleton.
  - intros n ->%elem_of_singleton. rewrite lookup_singleton_eq. eauto.
  - intros n x [-> <-]%lookup_singleton_Some Hn. destruct Hn. by apply elem_of_singleton.
  - intros [x [<- _]%lookup_singleton_Some]. by apply elem_of_singleton.
  - intros n [x [-> _]%lookup_singleton_Some]. by left.
Qed.

Lemma astar_inv_pop (g : list (list Z)) (blocked : gset pos) (s t c0 cur : pos)
  (f c : Z) (rest : list (Z * Z * (Z * Z))) (st : astar_state) :
  astar_inv ROWS COLS g blocked s t c0 [] st →
  open_set st = (f, c, cur) :: rest → cur ≠ t →
  let st1 := AStar (g_score st) (came_from st) rest (in_open st ∖ {[cur]}) (counter st) in
  astar_inv ROWS COLS g blocked s t cur (map (move cur) directions) st1
  ∧ is_Some (g_score st !! cur) ∧ (cur ∉ in_open st1)
  ∧ S (potential ROWS COLS st1) = potential ROWS COLS st.
Proof.
  intros [Hs Hb Hcf Hroot Hheap Hnd Hopen Hcl Hgoal Hcells] Hq Hne st1.
  rewrite Hq in Hheap, Hnd. cbn [fmap list_fmap snd] in Hheap, Hnd.
  apply NoDup_cons in Hnd as [Hcr Hnd].
  split; [split; cbn [st1 g_score came_from open_set in_open]; try done|].
  - intros n. rewrite elem_of_difference, elem_of_singleton, Hheap, elem_of_cons.
    split; [naive_solver|]. intros Hn. split; [by right|]. by intros ->.
  - intros n Hn. apply Hopen. set_solver.
  - intros n x Hn Hno m Ham Hfm. destruct (decide (n = cur)) as [->|Hnc].
    + left. split; [done|]. by apply adjacent_move.
    + destruct (Hcl n x Hn) with (m := m) as [[_ He]|Hr]; [set_solver|done..| |by right].
      by apply elem_of_nil in He.
  - intros Ht. specialize (Hgoal Ht). set_solver.
  - split; [|split].
    + apply Hopen, Hheap. apply list_elem_of_here.
    + cbn [st1 in_open]. set_solver.
    + unfold potential. cbn [st1 g_score open_set]. rewrite Hq. simpl. lia.
Qed.

Lemma came_from_cells (g : list (list Z)) (blocked : gset pos) (s t cur : pos)
  (pending : list pos) (st : astar_state) :
  astar_inv ROWS COLS g blocked s t cur pending st →
  (size (came_from st) ≤ cells ROWS COLS)%nat.
Proof.
  intros Hi. rewrite <- (size_dom (D := gset (Z * Z))).
  assert (Hsub : dom (came_from st) ⊆ list_to_set (all_cells ROWS COLS)).
  { intros n [p Hp]%elem_of_dom. apply elem_of_list_to_set, in_bounds_all_cells.
    apply (ai_cf _ _ _ _ _ _ _ _ _ Hi) in Hp as ((Hin & _) & _). apply Hin. }
  apply subseteq_size in Hsub.
  pose proof (size_list_to_set_le (all_cells ROWS COLS)).
  rewrite all_cells_length in *. lia.
Qed.

Lemma astar_inv_step (g : list (list Z)) (blocked : gset pos) (s t cur nb : pos)
  (pending : list pos) (st : astar_state) (gc : Z) :
  astar_inv ROWS COLS g blocked s t cur (nb :: pending) st →
  g_score st !! cur = Some gc → cur ∉ in_open st → adjacent cur nb →
  let st' := astar_step ROWS COLS g blocked t cur st nb in
  astar_inv ROWS COLS g blocked s t cur pending st'
  ∧ g_score st' !! cur = Some gc ∧ (cur ∉ in_open st')
  ∧ (potential ROWS COLS st' ≤ potential ROWS COLS st)%nat.
Proof.
  intros Hi Hcur Hco Hadj st'. subst st'. unfold astar_step.
  pose proof Hi as [Hs Hb Hcf Hroot Hheap Hnd Hopen Hcl Hgoal Hcells].
  assert (Hkeep : ∀ y, (free ROWS COLS g blocked nb → g_score st !! nb = Some y ∧ y ≤ gc + 1) →
            astar_inv ROWS COLS g blocked s t cur pending st).
  { intros y Hy. split; try done.
    intros n x Hn Hno m Ham Hfm. destruct (Hcl n x Hn Hno m Ham Hfm) as [[-> He]|Hr]; [|by right].
    apply elem_of_cons in He as [->|He]; [|by left].
    right. exists y. rewrite Hcur in Hn. injection Hn as <-. by apply Hy. }
  destruct (freeb ROWS COLS g blocked nb) eqn:Hfree.
  2:{ split; [|done]. apply (Hkeep 0). intros Hf%freeb_spec. congruence. }
  apply freeb_spec in Hfree.
  destruct (relax_cases t cur nb st gc Hcur) as [(-> & y & Hy & Hle)|(Hlt & h' & o' & -> & Hho)].
  { split; [|done]. by apply (Hkeep y). }
  assert (Hnc : nb ≠ cur) by (intros ->; by apply adjacent_ne in Hadj).
  assert (Hgc : 0 ≤ gc) by (by apply (Hb cur gc)).
  assert (Hns : nb ≠ s).
  { intros ->. rewrite Hs in Hlt. simpl in Hlt. lia. }
  assert (Hold : ∀ y, g_score st !! nb = Some y → gc + 1 < y).
  { intros y Hy. rewrite Hy in Hlt. simpl in Hlt. lia. }
  assert (Hino : ∀ n, n ∈ o' ↔ n = nb ∨ n ∈ in_open st).
  { intros n. destruct Hho as [(Hin & _ & ->)|(Hin & _ & ->)]; set_solver. }
  assert (Hnodes : h'.*2 ≡ₚ (if bool_decide (nb ∈ in_open st) then [] else [nb])
                            ++ (open_set st).*2).
  { destruct Hho as [(Hin & -> & _)|(Hin & -> & _)].
    - by rewrite bool_decide_eq_true_2.
    - rewrite bool_decide_eq_false_2 by done. apply heappush_nodes. }
  assert (Hsz : size (<[nb := cur]> (came_from st))
                = match came_from st !! nb with
                  | Some _ => size (came_from st)
                  | None => S (size (came_from st))
                  end).
  { destruct (came_from st !! nb) eqn:Hc.
    - by erewrite map_size_insert_Some.
    - by rewrite map_size_insert_None. }
  assert (Hcfg : ∀ p, came_from st !! nb = Some p → ∃ y, g_score st !! nb = Some y).
  { intros p Hp. apply Hcf in Hp as (_ & _ & gp & gn & _ & Hgn & _). eauto. }
  assert (Hi' : astar_inv ROWS COLS g blocked s t cur pending
                  (AStar (<[nb := gc + 1]> (g_score st)) (<[nb := cur]> (came_from st)) h' o'
                     (if bool_decide (nb ∈ in_open st) then counter st else counter st + 1))).
  { split; cbn [g_score came_from open_set in_open].
    - by rewrite lookup_insert_ne.
    - intros n x Hn. rewrite Hsz. apply lookup_insert_Some in Hn as [[<- <-]|[Hne Hn]].
      + destruct (came_from st !! nb) as [p|] eqn:Hp.
        * destruct (Hcfg p eq_refl) as [y Hy]. specialize (Hold y Hy).
          specialize (Hb nb y Hy). lia.
        * specialize (Hb cur gc Hcur). lia.
      + specialize (Hb n x Hn). destruct (came_from st !! nb); lia.
    - intros n p Hp. apply lookup_insert_Some in Hp as [[<- <-]|[Hne Hp]].
      + split; [done|]. split; [done|]. exists gc, (gc + 1).
        rewrite lookup_insert_ne, lookup_insert_eq by done. split; [done|]. split; [done|lia].
      + destruct (Hcf n p Hp) as (Hfn & Han & gp & gn & Hgp & Hgn & Hlt').
        split; [done|]. split; [done|].
        rewrite (lookup_insert_ne _ nb n) by done.
        destruct (decide (p = nb)) as [->|Hpn].
        * exists (gc + 1), gn. rewrite lookup_insert_eq. split; [done|]. split; [done|].
          specialize (Hold gp Hgp). lia.
        * exists gp, gn. by rewrite lookup_insert_ne.
    - intros n Hn Hnone. apply lookup_insert_None in Hnone as [Hnone Hne].
      rewrite lookup_insert_ne in Hn by done. by apply Hroot.
    - intros n. rewrite Hino, Hnodes, elem_of_app, Hheap.
      case_bool_decide as Hin; [|rewrite list_elem_of_singleton; tauto].
      rewrite elem_of_nil. split; [|tauto]. intros [->|?]; [|tauto]. right. by apply Hheap.
    - rewrite Hnodes. case_bool_decide as Hin; [done|]. cbn [app].
      apply NoDup_cons. split; [|done]. by rewrite <- Hheap.
    - intros n [->|Hn]%Hino; [rewrite lookup_insert_eq; eauto|].
      rewrite lookup_insert_is_Some. destruct (decide (nb = n)); [by left|].
      right. split; [done|]. by apply Hopen.
    - intros n x Hn Hno m Ham Hfm. rewrite Hino in Hno.
      destruct (decide (n = nb)) as [->|Hnn]; [by destruct Hno; left|].
      rewrite lookup_insert_ne in Hn by done.
      destruct (Hcl n x Hn) with (m := m) as [[-> He]|(y & Hy & Hle)];
        [by intros ?; apply Hno; right|done..| |].
      + apply elem_of_cons in He as [->|He]; [|by left].
        right. exists (gc + 1). rewrite lookup_insert_eq. split; [done|].
        rewrite Hcur in Hn. injection Hn as <-. lia.
      + right. destruct (decide (m = nb)) as [->|Hmn].
        * exists (gc + 1). rewrite lookup_insert_eq. split; [done|].
          specialize (Hold y Hy). lia.
        * exists y. by rewrite lookup_insert_ne.
    - intros Ht. apply Hino. destruct (decide (t = nb)) as [->|Htn]; [by left|].
      right. apply Hgoal. by rewrite lookup_insert_ne in Ht.
    - intros n Hn. apply lookup_insert_is_Some in Hn as [<-|[_ Hn]]; [|by apply Hcells].
      right. apply Hfree. }
  split; [exact Hi'|]. cbn [g_score in_open].
  split; [by rewrite lookup_insert_ne|].
  split; [rewrite Hino; intros [?|?]; [by subst|done]|].
  unfold potential. cbn [g_score open_set].
  assert (Hlen : (length h' ≤ S (length (open_set st)))%nat).
  { destruct Hho as [(_ & -> & _)|(_ & -> & _)]; [lia|]. by rewrite heappush_length. }
  pose proof (came_from_cells _ _ _ _ _ _ _ Hi') as Hcells'.
  cbn [came_from] in Hcells'. rewrite Hsz in Hcells'.
  pose proof (sum_list_with_drop (weight ROWS COLS (g_score st))
                (weight ROWS COLS (<[nb := gc + 1]> (g_score st)))
                (all_cells ROWS COLS) nb) as Hdrop.
  enough (sum_list_with (weight ROWS COLS (<[nb := (gc + 1)%Z]> (g_score st)))
            (all_cells ROWS COLS) + 1
          ≤ sum_list_with (weight ROWS COLS (g_score st)) (all_cells ROWS COLS))%nat by lia.
  apply Hdrop.
  - apply in_bounds_all_cells, Hfree.
  - unfold weight. rewrite lookup_insert_eq.
    destruct (g_score st !! nb) as [y|] eqn:Hy.
    + specialize (Hold y eq_refl). lia.
    + destruct (came_from st !! nb) as [p|] eqn:Hp.
      * destruct (Hcfg p eq_refl) as [y' Hy']. congruence.
      * specialize (Hb cur gc Hcur). lia.
  - intros y. unfold weight. destruct (decide (y = nb)) as [->|Hyn].
    + rewrite lookup_insert_eq. destruct (g_score st !! nb) as [y'|] eqn:Hy'.
      * specialize (Hold y' eq_refl). lia.
      * destruct (came_from st !! nb) as [p|] eqn:Hp.
        -- destruct (Hcfg p eq_refl) as [y'' Hy'']. congruence.
        -- specialize (Hb cur gc Hcur). lia.
    + by rewrite lookup_insert_ne.
Qed.

Lemma astar_inv_fold (g : list (list Z)) (blocked : gset pos) (s t cur : pos) (gc : Z)
  (ns : list pos) :
  ∀ st : astar_state,
  Forall (adjacent cur) ns →
  astar_inv ROWS COLS g blocked s t cur ns st →
  g_score st !! cur = Some gc → cur ∉ in_open st →
  let st' := foldl (astar_step ROWS COLS g blocked t cur) st ns in
  astar_inv ROWS COLS g blocked s t cur [] st'
  ∧ (potential ROWS COLS st' ≤ potential ROWS COLS st)%nat.
Proof.
  induction ns as [|n ns IH]; intros st Hadj Hi Hcur Hco; cbn [foldl]; [done|].
  apply Forall_cons in Hadj as [Hn Hns].
  destruct (astar_inv_step _ _ _ _ _ _ _ _ _ Hi Hcur Hco Hn) as (Hi1 & Hcur1 & Hco1 & Hp1).
  destruct (IH _ Hns Hi1 Hcur1 Hco1) as (Hi2 & Hp2).
  split; [done|]. lia.
Qed.

(** With an empty open set every cell a trail leads to has a score. *)
Lemma astar_closed_reach (g : list (list Z)) (blocked : gset pos) (s t c0 : pos)
  (st : astar_state) (p : list pos) :
  astar_inv ROWS COLS g blocked s t c0 [] st →
  open_set st = [] →
  trail (free ROWS COLS g blocked) p →
  ∀ a x, head p = Some a → last p = Some x →
  is_Some (g_score st !! a) → is_Some (g_score st !! x).
Proof.
  intros Hi Hq Ht. induction Ht as [b|b b' l Hadj Hok Ht IH]; intros a x Ha Hx Hga.
  - injection Ha as ->. by injection Hx as ->.
  - injection Ha as ->. rewrite last_cons_cons in Hx. destruct Hga as [y Hy].
    assert (Hno : a ∉ in_open st).
    { rewrite (ai_heap _ _ _ _ _ _ _ _ _ Hi), Hq. apply not_elem_of_nil. }
    destruct (ai_closed _ _ _ _ _ _ _ _ _ Hi a y Hy Hno b' Hadj Hok)
      as [[_ He]|(y' & Hy' & _)]; [by apply elem_of_nil in He|].
    apply (IH b' x eq_refl Hx). eauto.
Qed.

(** The search loop, for any further property [J] of the states at the head
    of the loop that an iteration preserves: it never runs out of fuel, it
    raises only on a grid of the wrong size, [None] means there is no
    route, and a path is a route read off a state that has the goal at the
    front of the open set. *)
Lemma astar_loop_spec (g : list (list Z)) (blocked : gset pos) (s t : pos)
  (J : astar_state → Prop) :
  (∀ st c0 f c cur rest,
     astar_inv ROWS COLS g blocked s t c0 [] st → J st →
     open_set st = (f, c, cur) :: rest → cur ≠ t →
     J (foldl (astar_step ROWS COLS g blocked t cur)
          (AStar (g_score st) (came_from st) rest (in_open st ∖ {[cur]}) (counter st))
          (map (move cur) directions))) →
  ∀ (fuel : nat) (st : astar_state) (c0 : pos),
  astar_inv ROWS COLS g blocked s t c0 [] st → J st →
  (potential ROWS COLS st < fuel)%nat →
  match astar_loop ROWS COLS fuel g blocked t st with
  | Ret (Some path) =>
      route (free ROWS COLS g blocked) s path t
      ∧ ∃ st' c' f c rest gt,
          astar_inv ROWS COLS g blocked s t c' [] st' ∧ J st'
          ∧ open_set st' = (f, c, t) :: rest
          ∧ g_score st' !! t = Some gt
          ∧ Z.of_nat (length path) ≤ gt + 1
  | Ret None => ∀ p', ¬ route (free ROWS COLS g blocked) s p' t
  | Raise => ¬ wf_grid ROWS COLS g
  | Timeout => False
  end.
Proof.
  intros HJ. induction fuel as [|fuel IH]; intros st c0 Hi Hj Hfuel; [lia|].
  cbn [astar_loop]. destruct (open_set st) as [|[[f c] cur] rest] eqn:Hq; cbn [heappop].
  - intros p' (Hh & Hl & Ht).
    destruct (astar_closed_reach g blocked s t c0 st p' Hi Hq Ht s t Hh Hl) as [y Hy].
    { rewrite (ai_start _ _ _ _ _ _ _ _ _ Hi). eauto. }
    assert (Hin : t ∈ in_open st) by (apply (ai_goal _ _ _ _ _ _ _ _ _ Hi); eauto).
    rewrite (ai_heap _ _ _ _ _ _ _ _ _ Hi), Hq in Hin. by apply elem_of_nil in Hin.
  - case_bool_decide as Hcur.
    + subst cur. cbn [came_from].
      assert (Hgt : is_Some (g_score st !! t)).
      { apply (ai_open _ _ _ _ _ _ _ _ _ Hi), (ai_heap _ _ _ _ _ _ _ _ _ Hi).
        rewrite Hq. apply list_elem_of_here. }
      destruct Hgt as [gt Hgt].
      destruct (reconstruct_path_route (free ROWS COLS g blocked)
                  (λ x, is_Some (g_score st !! x)) (came_from st)
                  (λ x, Z.to_nat (default 0 (g_score st !! x))) s t)
        as (path & Hpath & Hroute & Hlen).
      * intros n p Hp. apply (ai_cf _ _ _ _ _ _ _ _ _ Hi) in Hp
          as (_ & _ & gp & gn & Hgp & Hgn & Hlt).
        rewrite Hgp, Hgn. simpl.
        pose proof (ai_bound _ _ _ _ _ _ _ _ _ Hi _ _ Hgp). lia.
      * intros n p Hp. apply (ai_cf _ _ _ _ _ _ _ _ _ Hi) in Hp
          as (Hf & Ha & gp & gn & Hgp & _). split; [done|]. split; [done|]. eauto.
      * apply (ai_root _ _ _ _ _ _ _ _ _ Hi).
      * eauto.
      * rewrite Hgt. simpl. pose proof (ai_bound _ _ _ _ _ _ _ _ _ Hi _ _ Hgt). lia.
      * rewrite Hpath. split; [done|].
        exists st, c0, f, c, rest, gt. rewrite Hgt in Hlen. simpl in Hlen.
        pose proof (ai_bound _ _ _ _ _ _ _ _ _ Hi _ _ Hgt).
        split; [done|]. split; [done|]. split; [done|]. split; [done|]. lia.
    + destruct (astar_inv_pop _ _ _ _ _ _ _ _ _ _ Hi Hq Hcur) as (Hi1 & [gc Hgc] & Hco & Hpot).
      destruct (expand ROWS COLS g blocked t cur _) as [st2|] eqn:He.
      * apply expand_step in He as ->.
        destruct (astar_inv_fold g blocked s t cur gc (map (move cur) directions)
                    (AStar (g_score st) (came_from st) rest (in_open st ∖ {[cur]})
                       (counter st)))
          as (Hi2 & Hp2); [|done..|].
        { apply Forall_forall. intros x Hx. by apply adjacent_move. }
        apply (IH _ cur Hi2); [by eapply HJ|lia].
      * intros Hwf. by rewrite expand_step_wf in He.
Qed.

Lemma astar_start_is_goal (g : list (list Z)) (p : pos) (blocked : option (gset pos)) :
  astar ROWS COLS g (Some p) (Some p) blocked = Ret (Some [p]).
Proof.
  unfold astar, astar_fuel. cbn [astar_loop astar_init open_set heappop].
  rewrite bool_decide_eq_true_2 by done.
  reflexivity.
Qed.

Lemma astar_init_potential (s t : pos) :
  (potential ROWS COLS (astar_init s t) < astar_fuel ROWS COLS)%nat.
Proof.
  unfold potential, astar_fuel. cbn [astar_init g_score open_set length].
  pose proof (sum_list_with_bound (weight ROWS COLS {[s := 0%Z]}) (all_cells ROWS COLS)
                (S (cells ROWS COLS))) as Hb.
  rewrite all_cells_length in Hb. cut (∀ y, (weight ROWS COLS {[s := 0%Z]} y ≤ S (cells ROWS COLS))%nat).
  { intros H. specialize (Hb H). lia. }
  intros y. unfold weight. destruct (decide (y = s)) as [->|Hne].
  - rewrite lookup_singleton_eq. simpl. lia.
  - by rewrite lookup_singleton_ne.
Qed.

(** What a call of [astar] with both endpoints defined amounts to. *)
Lemma astar_spec (g : list (list Z)) (blocked : gset pos) (s t : pos)
  (J : astar_state → Prop) :
  (∀ st c0 f c cur rest,
     astar_inv ROWS COLS g blocked s t c0 [] st → J st →
     open_set st = (f, c, cur) :: rest → cur ≠ t →
     J (foldl (astar_step ROWS COLS g blocked t cur)
          (AStar (g_score st) (came_from st) rest (in_open st ∖ {[cur]}) (counter st))
          (map (move cur) directions))) →
  J (astar_init s t) →
  match astar ROWS COLS g (Some s) (Some t) (Some blocked) with
  | Ret (Some path) =>
      route (free ROWS COLS g blocked) s path t
      ∧ ∃ st' c' f c rest gt,
          astar_inv ROWS COLS g blocked s t c' [] st' ∧ J st'
          ∧ open_set st' = (f, c, t) :: rest
          ∧ g_score st' !! t = Some gt
          ∧ Z.of_nat (length path) ≤ gt + 1
  | Ret None => ∀ p', ¬ route (free ROWS COLS g blocked) s p' t
  | Raise => ¬ wf_grid ROWS COLS g
  | Timeout => False
  end.
Proof.
  intros HJ Hj. unfold astar. cbn [default].
  apply (astar_loop_spec g blocked s t J HJ _ _ s).
  - apply astar_inv_init.
  - done.
  - apply astar_init_potential.
Qed.

Lemma astar_blocked_default (g : list (list Z)) (s t : option pos)
  (blocked : option (gset pos)) :
  astar ROWS COLS g s t blocked = astar ROWS COLS g s t (Some (default ∅ blocked)).
Proof. by destruct s, t, blocked. Qed.

Lemma trail_lookup (ok : pos → Prop) (l : list pos) :
  trail ok l →
  ∀ (i : nat) a b, l !! i = Some a → l !! S i = Some b → adjacent a b ∧ ok b.
Proof.
  induction 1 as [a|a b l Hadj Hok Ht IH]; intros i x y Hx Hy.
  - by destruct i.
  - destruct i as [|i].
    + injection Hx as <-. injection Hy as <-. done.
    + by apply (IH i).
Qed.

Lemma route_end (ok : pos → Prop) (s t : pos) (p : list pos) :
  route ok s p t → s ≠ t → ok t.
Proof.
  intros (Hh & Hl & Ht) Hne. revert s Hh Hne.
  induction Ht as [a|a b l Hadj Hok Ht IH]; intros s Hh Hne.
  - injection Hh as <-. injection Hl as <-. done.
  - rewrite last_cons_cons in Hl. destruct (decide (b = t)) as [<-|Hbt]; [done|].
    by apply (IH Hl b).
Qed.

(** C9.  A path returned by [astar] starts at the start and ends at the
    goal, consecutive cells are 4-adjacent, and every cell after the first
    is inside the grid, not a Wall and not blocked.  Nothing is assumed of
    the start cell: it is not checked against bounds, walls or the blocked
    set. *)
Theorem astar_path_is_route (g : list (list Z)) (s t : pos)
  (blocked : option (gset pos)) (path : list pos) :
  astar ROWS COLS g (Some s) (Some t) blocked = Ret (Some path) →
  head path = Some s ∧ last path = Some t
  ∧ (∀ (i : nat) a b, path !! i = Some a → path !! S i = Some b →
       adjacent a b
       ∧ in_bounds ROWS COLS b = true
       ∧ (∃ v, grid_get g b = Some v ∧ v ≠ WALL)
       ∧ b ∉ default ∅ blocked).
Proof.
  rewrite astar_blocked_default. intros Ha.
  pose proof (astar_spec g (default ∅ blocked) s t (λ _, True)
                ltac:(done) I) as H.
  rewrite Ha in H. destruct H as ((Hh & Hl & Ht) & _).
  split; [done|]. split; [done|]. intros i a b Hi Hb.
  destruct (trail_lookup _ _ Ht i a b Hi Hb) as (Hadj & (Hin & Hv) & Hbl). done.
Qed.

(** C8.  [astar] returns [None] when the start or the goal is undefined,
    and, on a grid of the configured size, when no path of free cells leads
    from the start to the goal; it returns [[start]] when start and goal
    coincide. *)
Theorem astar_none_or_trivial (g : list (list Z)) (s t : pos)
  (ostart ogoal : option pos) (blocked : option (gset pos)) :
  wf_grid ROWS COLS g →
  (¬ ∃ p, route (free ROWS COLS g (default ∅ blocked)) s p t) →
  astar ROWS COLS g (Some s) (Some t) blocked = Ret None
  ∧ astar ROWS COLS g None ogoal blocked = Ret None
  ∧ astar ROWS COLS g ostart None blocked = Ret None
  ∧ astar ROWS COLS g (Some s) (Some s) blocked = Ret (Some [s]).
Proof.
  intros Hwf Hno. split; [|split; [done|split; [by destruct ostart|]]].
  - rewrite astar_blocked_default.
    pose proof (astar_spec g (default ∅ blocked) s t (λ _, True)
                  ltac:(done) I) as H.
    destruct (astar ROWS COLS g (Some s) (Some t) (Some (default ∅ blocked)))
      as [[path|]| |]; [|done..].
    destruct H as (Hr & _). destruct Hno. by exists path.
  - apply astar_start_is_goal.
Qed.

(** ** The level loader *)

Lemma loaded_ext (chars chars' : pos → ascii → Prop) (lv : level) :
  (∀ p ch, chars p ch ↔ chars' p ch) →
  loaded ROWS COLS chars lv → loaded ROWS COLS chars' lv.
Proof.
  intros He [Hwf Hb Hc Hr Hrw Hgh Hs Hss Hg Hgs]. split.
  - done.
  - intros p ch H%He. eauto.
  - intros p ch H%He. eauto.
  - intros p Hp Hn. apply Hr; [done|]. intros ch H%He. by eapply Hn.
  - intros p. by rewrite Hrw, He.
  - intros p. by rewrite Hgh, He.
  - intros p H. apply He. eauto.
  - intros [p H%He]. eauto.
  - intros p H. apply He. eauto.
  - intros [p H%He]. eauto.
Qed.

Lemma place_eq (p : pos) (ch : ascii) (lv : level) :
  in_bounds ROWS COLS p = true →
  place ROWS COLS p ch lv
  = Level
      (if Ascii.eqb ch "X" then lv_grid lv
       else grid_set (lv_grid lv) p (kind_of_char ch))
      (if Ascii.eqb ch "S" then Some p else lv_start lv)
      (if Ascii.eqb ch "G" then Some p else lv_goal lv)
      (if Ascii.eqb ch "D" then {[p]} ∪ lv_rewards lv else lv_rewards lv)
      (if Ascii.eqb ch "X" then lv_ghosts lv ++ [p] else lv_ghosts lv).
Proof.
  intros Hp. unfold place, kind_of_char. rewrite Hp.
  destruct (Ascii.eqb_spec ch "#") as [->|]; [done|].
  destruct (Ascii.eqb_spec ch "S") as [->|]; [done|].
  destruct (Ascii.eqb_spec ch "G") as [->|]; [done|].
  destruct (Ascii.eqb_spec ch "D") as [->|]; [done|].
  destruct (Ascii.eqb_spec ch "X") as [->|]; [by destruct lv|done].
Qed.

Lemma place_loaded (chars : pos → ascii → Prop) (p : pos) (ch : ascii) (lv : level) :
  loaded ROWS COLS chars lv →
  (∀ c, ¬ chars p c) →
  loaded ROWS COLS
    (λ q c, chars q c ∨ (q = p ∧ c = ch ∧ in_bounds ROWS COLS p = true))
    (place ROWS COLS p ch lv).
Proof.
  intros Hl Hfresh. destruct (in_bounds ROWS COLS p) eqn:Hp.
  2:{ unfold place. rewrite Hp. eapply loaded_ext; [|exact Hl]. naive_solver. }
  rewrite place_eq by done.
  destruct Hl as [Hwf Hb Hc Hr Hrw Hgh Hs Hss Hg Hgs].
  assert (Hget : ∀ q, in_bounds ROWS COLS q = true →
            grid_get (if Ascii.eqb ch "X" then lv_grid lv
                      else grid_set (lv_grid lv) p (kind_of_char ch)) q
            = if decide (q = p) then Some (kind_of_char ch)
              else grid_get (lv_grid lv) q).
  { intros q Hq. destruct (Ascii.eqb_spec ch "X") as [->|].
    - case_decide as Hqp; [|done]. subst q. by apply Hr.
    - by apply grid_get_set. }
  split; cbn [lv_grid lv_start lv_goal lv_rewards lv_ghosts].
  - destruct (Ascii.eqb ch "X"); [done|by apply grid_set_wf].
  - intros q c [H|(-> & _ & _)]; eauto.
  - intros q c [H|(-> & -> & _)].
    + rewrite Hget by eauto. rewrite decide_False; [eauto|].
      intros ->. by eapply Hfresh.
    + rewrite Hget by done. by rewrite decide_True.
  - intros q Hq Hn. rewrite Hget by done.
    rewrite decide_False; [|intros ->; eapply Hn; eauto].
    apply Hr; [done|]. intros c H. eapply Hn; eauto.
  - intros q. destruct (Ascii.eqb_spec ch "D") as [->|Hne].
    + rewrite elem_of_union, elem_of_singleton, Hrw. naive_solver.
    + rewrite Hrw. naive_solver.
  - intros q. destruct (Ascii.eqb_spec ch "X") as [->|Hne].
    + rewrite elem_of_app, list_elem_of_singleton, Hgh. naive_solver.
    + rewrite Hgh. naive_solver.
  - intros q. destruct (Ascii.eqb_spec ch "S") as [->|Hne]; naive_solver.
  - intros [q Hq]. destruct (Ascii.eqb_spec ch "S") as [->|Hne]; [done|].
    apply Hss. naive_solver.
  - intros q. destruct (Ascii.eqb_spec ch "G") as [->|Hne]; naive_solver.
  - intros [q Hq]. destruct (Ascii.eqb_spec ch "G") as [->|Hne]; [done|].
    apply Hgs. naive_solver.
Qed.

Lemma row_chars_cons (gr gc : Z) (ch0 : ascii) (line : list ascii) (p : pos) (ch : ascii) :
  row_chars ROWS COLS gr gc (ch0 :: line) p ch
  ↔ (p = (gr, gc) ∧ ch = ch0 ∧ in_bounds ROWS COLS (gr, gc) = true)
    ∨ row_chars ROWS COLS gr (gc + 1) line p ch.
Proof.
  unfold row_chars. split.
  - intros ([|c] & Hc & -> & Hin).
    + injection Hc as ->. left. replace (gc + Z.of_nat 0) with gc in * by lia. done.
    + right. exists c. replace (gc + 1 + Z.of_nat c) with (gc + Z.of_nat (S c)) by lia. done.
  - intros [(-> & -> & Hin)|(c & Hc & -> & Hin)].
    + exists 0%nat. replace (gc + Z.of_nat 0) with gc by lia. done.
    + exists (S c). replace (gc + Z.of_nat (S c)) with (gc + 1 + Z.of_nat c) by lia. done.
Qed.

Lemma load_row_loaded (chars : pos → ascii → Prop) (gr : Z) (line : list ascii) :
  ∀ (gc : Z) (lv : level),
  loaded ROWS COLS chars lv →
  (∀ q c, chars q c → q.1 = gr → q.2 < gc) →
  loaded ROWS COLS (λ q c, chars q c ∨ row_chars ROWS COLS gr gc line q c)
    (load_row ROWS COLS gr gc line lv)
  ∧ ∀ q c, chars q c ∨ row_chars ROWS COLS gr gc line q c → chars q c ∨ q.1 = gr.
Proof.
  intros gc lv Hl Hfresh. split; [|unfold row_chars; naive_solver].
  revert chars gc lv Hl Hfresh.
  induction line as [|ch0 line IH]; intros chars gc lv Hl Hfresh; cbn [load_row].
  - eapply loaded_ext; [|exact Hl]. unfold row_chars. naive_solver.
  - eapply loaded_ext; last first.
    + apply (IH (λ q c, chars q c ∨ (q = (gr, gc) ∧ c = ch0
                          ∧ in_bounds ROWS COLS (gr, gc) = true)) (gc + 1)).
      * apply place_loaded; [done|]. intros c H. specialize (Hfresh _ _ H eq_refl).
        simpl in Hfresh. lia.
      * intros q c [H|(-> & _)] Hq; [specialize (Hfresh _ _ H Hq)|simpl]; lia.
    + intros q c. cbn beta. rewrite row_chars_cons. tauto.
Qed.

Lemma rows_chars_cons (gr gc : Z) (line : list ascii) (lines : list (list ascii))
  (p : pos) (ch : ascii) :
  rows_chars ROWS COLS gr gc (line :: lines) p ch
  ↔ row_chars ROWS COLS gr gc line p ch ∨ rows_chars ROWS COLS (gr + 1) gc lines p ch.
Proof.
  unfold rows_chars. split.
  - intros ([|r] & l & Hl & H).
    + injection Hl as ->. left. by replace (gr + Z.of_nat 0) with gr in H by lia.
    + right. exists r, l. by replace (gr + 1 + Z.of_nat r) with (gr + Z.of_nat (S r)) by lia.
  - intros [H|(r & l & Hl & H)].
    + exists 0%nat, line. by replace (gr + Z.of_nat 0) with gr by lia.
    + exists (S r), l. by replace (gr + Z.of_nat (S r)) with (gr + 1 + Z.of_nat r) by lia.
Qed.

Lemma load_rows_loaded (gc : Z) (lines : list (list ascii)) :
  ∀ (chars : pos → ascii → Prop) (gr : Z) (lv : level),
  loaded ROWS COLS chars lv →
  (∀ q c, chars q c → q.1 < gr) →
  loaded ROWS COLS (λ q c, chars q c ∨ rows_chars ROWS COLS gr gc lines q c)
    (load_rows ROWS COLS gr gc lines lv).
Proof.
  induction lines as [|line lines IH]; intros chars gr lv Hl Hfresh; cbn [load_rows].
  - eapply loaded_ext; [|exact Hl]. unfold rows_chars. naive_solver.
  - destruct (load_row_loaded chars gr line gc lv Hl) as [Hrow Hin].
    { intros q c H Hq. specialize (Hfresh _ _ H). lia. }
    eapply loaded_ext; last first.
    + apply (IH _ (gr + 1) _ Hrow).
      intros q c H. destruct (Hin _ _ H) as [H'| ->]; [specialize (Hfresh _ _ H')|]; lia.
    + intros q c. cbn beta. rewrite rows_chars_cons. tauto.
Qed.

Lemma empty_level_loaded :
  loaded ROWS COLS (λ _ _, False) (empty_level ROWS COLS).
Proof.
  split; cbn [empty_level lv_grid lv_start lv_goal lv_rewards lv_ghosts]; try done.
  - apply make_grid_wf.
  - intros p Hp _. by apply make_grid_get.
  - intros p. by rewrite elem_of_nil.
  - by intros [? ?].
  - by intros [? ?].
Qed.

(** The loaded level holds exactly the characters of the region that land
    inside the grid, each at its centred cell. *)
Lemma load_level_loaded (content : string) :
  loaded ROWS COLS
    (λ p ch, ∃ r c, region_char (level_lines content) r c ch
                    ∧ p = dest ROWS COLS (level_lines content) r c
                    ∧ in_bounds ROWS COLS p = true)
    (load_level ROWS COLS (Some content)).
Proof.
  unfold load_level. set (lines := level_lines content).
  assert (H : loaded ROWS COLS
                (λ q c, False ∨ rows_chars ROWS COLS (row_offset ROWS lines)
                                  (col_offset COLS lines) lines q c)
                (load_rows ROWS COLS (row_offset ROWS lines) (col_offset COLS lines)
                   lines (empty_level ROWS COLS))).
  { apply load_rows_loaded; [apply empty_level_loaded|done]. }
  assert (He : ∀ p ch,
    False ∨ rows_chars ROWS COLS (row_offset ROWS lines) (col_offset COLS lines) lines p ch
    ↔ ∃ r c, region_char lines r c ch ∧ p = dest ROWS COLS lines r c
             ∧ in_bounds ROWS COLS p = true).
  { intros p ch. unfold rows_chars, row_chars, region_char, dest, row_offset, col_offset.
    split.
    - intros [[]|(r & line & Hl & c & Hc & -> & Hin)].
      exists r, c. split; [eauto|]. split; [f_equal; lia|done].
    - intros (r & c & (line & Hl & Hc) & -> & Hin). right.
      exists r, line. split; [done|]. exists c. split; [done|].
      split; [f_equal; lia|done]. }
  destruct lines as [|l ls] eqn:Hlines.
  - eapply loaded_ext; [|apply empty_level_loaded].
    intros p ch. unfold region_char. split; [done|].
    intros (r & c & (line & Hl & _) & _). by destruct r.
  - eapply loaded_ext; [exact He|exact H].
Qed.

Lemma region_char_fun (lines : list (list ascii)) (r c : nat) (ch ch' : ascii) :
  region_char lines r c ch → region_char lines r c ch' → ch = ch'.
Proof. intros (l & Hl & Hc) (l' & Hl' & Hc'). congruence. Qed.

Lemma dest_inj (lines : list (list ascii)) (r c r' c' : nat) :
  dest ROWS COLS lines r c = dest ROWS COLS lines r' c' → r = r' ∧ c = c'.
Proof. unfold dest. intros [= ? ?]. lia. Qed.

(** C10.  The character at row [r], column [c] of the non-blank lines goes
    to the cell [(r + (ROWS - level_rows) / 2, c + (COLS - level_cols) / 2)]
    when that cell is inside the grid: ['#'] makes it a Wall, ['S'] the
    start, ['G'] the goal, ['D'] a reward, ['X'] a ghost on an Empty cell,
    anything else Empty.  Cells no character lands on stay Empty and carry
    nothing, and nothing is recorded outside the grid (characters that fall
    outside are dropped). *)
Theorem load_level_places (content : string) (r c : nat) (ch : ascii) :
  let lines := level_lines content in
  let lv := load_level ROWS COLS (Some content) in
  let p := (Z.of_nat r + (ROWS - level_rows lines) `div` 2,
            Z.of_nat c + (COLS - level_cols lines) `div` 2) in
  region_char lines r c ch →
  in_bounds ROWS COLS p = true →
  grid_get (lv_grid lv) p
  = Some (if Ascii.eqb ch "#" then WALL else if Ascii.eqb ch "S" then START
          else if Ascii.eqb ch "G" then GOAL else if Ascii.eqb ch "D" then REWARD
          else EMPTY)
  ∧ (p ∈ lv_rewards lv ↔ ch = "D"%char)
  ∧ (p ∈ lv_ghosts lv ↔ ch = "X"%char)
  ∧ (ch = "S"%char → is_Some (lv_start lv))
  ∧ (lv_start lv = Some p → ch = "S"%char)
  ∧ (ch = "G"%char → is_Some (lv_goal lv))
  ∧ (lv_goal lv = Some p → ch = "G"%char)
  ∧ (∀ q, in_bounds ROWS COLS q = true →
       (∀ r' c' ch', region_char lines r' c' ch' → q ≠ dest ROWS COLS lines r' c') →
       grid_get (lv_grid lv) q = Some EMPTY ∧ (q ∉ lv_rewards lv) ∧ (q ∉ lv_ghosts lv)
       ∧ lv_start lv ≠ Some q ∧ lv_goal lv ≠ Some q)
  ∧ (∀ q, q ∈ lv_rewards lv ∨ q ∈ lv_ghosts lv ∨ lv_start lv = Some q
          ∨ lv_goal lv = Some q → in_bounds ROWS COLS q = true).
Proof.
  intros lines lv p Hch Hin.
  destruct (load_level_loaded content) as [Hwf Hb Hc Hr Hrw Hgh Hs Hss Hg Hgs].
  fold lines lv in Hwf, Hb, Hc, Hr, Hrw, Hgh, Hs, Hss, Hg, Hgs.
  change p with (dest ROWS COLS lines r c) in *.
  assert (Hhere : ∀ ch', (∃ r' c', region_char lines r' c' ch'
                           ∧ dest ROWS COLS lines r c = dest ROWS COLS lines r' c'
                           ∧ in_bounds ROWS COLS (dest ROWS COLS lines r c) = true)
                         ↔ ch' = ch).
  { intros ch'. split.
    - intros (r' & c' & H' & [-> ->]%dest_inj & _). by eapply region_char_fun.
    - intros ->. by exists r, c. }
  split; [apply (Hc _ ch); by apply Hhere|].
  split; [by rewrite Hrw, Hhere|].
  split; [by rewrite Hgh, Hhere|].
  split; [intros ->; apply Hss; eexists; by apply Hhere|].
  split; [intros H%Hs; symmetry; by apply Hhere|].
  split; [intros ->; apply Hgs; eexists; by apply Hhere|].
  split; [intros H%Hg; symmetry; by apply Hhere|].
  split.
  - intros q Hq Hnone.
    assert (Hno : ∀ ch', ¬ ∃ r' c', region_char lines r' c' ch'
                     ∧ q = dest ROWS COLS lines r' c' ∧ in_bounds ROWS COLS q = true).
    { intros ch' (r' & c' & H' & -> & _). by eapply Hnone. }
    split; [by apply Hr|]. rewrite Hrw, Hgh.
    split; [apply Hno|]. split; [apply Hno|].
    split; intros H; [apply Hs in H|apply Hg in H]; by eapply Hno.
  - intros q [H%Hrw|[H%Hgh|[H%Hs|H%Hg]]]; eapply Hb; exact H.
Qed.

(** ** The game logic *)


Ltac fields :=
  cbn [grid start goal reward_cells pac_pos ghost_positions playing game_over
       reason score final_score start_time end_time last_pac_move_time
       last_ghost_move_time terminal].

Lemma terminal_fields (r : reason_t) (t : Z) (st : game) :
  playing (terminal r t st) = false ∧ game_over (terminal r t st) = true
  ∧ reason (terminal r t st) = Some r
  ∧ final_score (terminal r t st) = Some (score st)
  ∧ end_time (terminal r t st) = Some t
  ∧ score (terminal r t st) = score st
  ∧ reward_cells (terminal r t st) = reward_cells st
  ∧ pac_pos (terminal r t st) = pac_pos st
  ∧ ghost_positions (terminal r t st) = ghost_positions st.
Proof. by repeat split. Qed.

(** What the seeker's move does, case by case on the planner's answer. *)
Lemma seeker_step_cases (now : Z) (st st1 : game) :
  seeker_step ROWS COLS now st = Some st1 →
  let answer := astar ROWS COLS (grid st) (pac_pos st) (goal st)
                  (Some (list_to_set (ghost_positions st))) in
  (∃ a p rest, answer = Ret (Some (a :: p :: rest))
     ∧ pac_pos st1 = Some p
     ∧ reward_cells st1 = reward_cells st ∖ {[p]}
     ∧ score st1 = (if bool_decide (p ∈ reward_cells st) then score st + 1 else score st)
     ∧ (Some p = goal st → reason st1 = Some Win ∧ game_over st1 = true
                            ∧ end_time st1 = Some now)
     ∧ (Some p ≠ goal st → reason st1 = reason st ∧ game_over st1 = game_over st
                            ∧ playing st1 = playing st))
  ∨ ((answer = Ret None ∨ ∃ path, answer = Ret (Some path) ∧ (length path < 2)%nat)
     ∧ pac_pos st1 = pac_pos st ∧ reward_cells st1 = reward_cells st
     ∧ score st1 = score st ∧ reason st1 = Some Stuck ∧ game_over st1 = true
     ∧ playing st1 = false ∧ final_score st1 = Some (score st)
     ∧ end_time st1 = Some now).
Proof.
  unfold seeker_step. cbn [grid pac_pos goal ghost_positions reward_cells score].
  destruct (astar _ _ _ _ _ _) as [[path|]| |] eqn:Ha; try done.
  - destruct path as [|a [|p rest]]; intros [= <-]; cbn zeta.
    + right. split; [right; eexists; split; [done|simpl; lia]|]. fields. by repeat split.
    + right. split; [right; eexists; split; [done|simpl; lia]|]. fields. by repeat split.
    + left. exists a, p, rest. split; [done|].
      assert (Hrw : (if bool_decide (p ∈ reward_cells st)
                     then reward_cells st ∖ {[p]} else reward_cells st)
                    = reward_cells st ∖ {[p]}).
      { destruct (bool_decide (p ∈ reward_cells st)) eqn:Hr; [done|].
        apply bool_decide_eq_false in Hr. apply set_eq. set_solver. }
      destruct (bool_decide (Some p = goal st)) eqn:Hg;
        [apply bool_decide_eq_true in Hg | apply bool_decide_eq_false in Hg];
        fields; rewrite Hrw;
        (split; [done|]); (split; [done|]); (split; [done|]); split; intros Hc;
        first [done | by repeat split].
  - intros [= <-]. right. split; [by left|]. fields. by repeat split.
Qed.

Lemma seeker_step_ghosts (now : Z) (st st1 : game) :
  seeker_step ROWS COLS now st = Some st1 →
  ghost_positions st1 = ghost_positions st ∧ grid st1 = grid st
  ∧ last_ghost_move_time st1 = last_ghost_move_time st.
Proof.
  unfold seeker_step. cbn [grid pac_pos goal ghost_positions reward_cells score].
  destruct (astar _ _ _ _ _ _) as [[path|]| |]; try done.
  - destruct path as [|a [|p rest]]; intros [= <-]; try done.
    by case_bool_decide.
  - by intros [= <-].
Qed.

Lemma pursuer_step_keeps (now : Z) (st st2 : game) :
  pursuer_step ROWS COLS now st = Some st2 →
  pac_pos st2 = pac_pos st ∧ reward_cells st2 = reward_cells st
  ∧ score st2 = score st ∧ reason st2 = reason st ∧ game_over st2 = game_over st
  ∧ playing st2 = playing st ∧ final_score st2 = final_score st
  ∧ end_time st2 = end_time st
  ∧ mapM (ghost_move ROWS COLS (grid st) (pac_pos st)) (ghost_positions st)
    = Some (ghost_positions st2).
Proof.
  unfold pursuer_step. intros H.
  destruct (mapM _ _) as [gs|] eqn:Hm; [|done].
  injection H as <-. by repeat split.
Qed.

Lemma collision_check_cases (ticks : Z) (st : game) :
  pac_pos (collision_check ticks st) = pac_pos st
  ∧ reward_cells (collision_check ticks st) = reward_cells st
  ∧ score (collision_check ticks st) = score st
  ∧ (caught st = true →
       reason (collision_check ticks st) = Some Ghost
       ∧ game_over (collision_check ticks st) = true
       ∧ playing (collision_check ticks st) = false
       ∧ final_score (collision_check ticks st) = Some (score st)
       ∧ end_time (collision_check ticks st) = Some ticks)
  ∧ (caught st = false → collision_check ticks st = st).
Proof.
  unfold collision_check. destruct (caught st); by repeat split.
Qed.

(** The game logic of a running state, taken apart into its three steps. *)
Lemma game_logic_steps (now ticks : Z) (st st' : game) :
  running st →
  game_logic ROWS COLS now ticks st = Some st' →
  ∃ st1 st2,
    (if seeker_due now st then seeker_step ROWS COLS now st else Some st) = Some st1
    ∧ (if pursuer_due now st1 then pursuer_step ROWS COLS now st1 else Some st1)
      = Some st2
    ∧ st' = collision_check ticks st2.
Proof.
  intros (Hp & Hg & Hs). unfold game_logic.
  rewrite Hp, Hg, bool_decide_eq_true_2 by done. cbn [andb negb].
  intros H.
  destruct (if seeker_due now st then _ else _) as [st1|] eqn:H1; [|done].
  cbn [mbind option_bind] in H.
  destruct (if pursuer_due now st1 then _ else _) as [st2|] eqn:H2; [|done].
  cbn [mbind option_bind] in H. injection H as <-. by exists st1, st2.
Qed.

Lemma game_logic_idle (now ticks : Z) (st : game) :
  ¬ running st → game_logic ROWS COLS now ticks st = Some st.
Proof.
  intros H. unfold game_logic.
  destruct (playing st) eqn:Hp; [|done].
  destruct (game_over st) eqn:Hg; [done|].
  case_bool_decide; [|done]. destruct H. by repeat split.
Qed.

(** C5.  On a seeker move in the running state, a planner answer that is
    [None] or a path of fewer than two cells ends the run as Stuck: the final
    score is the current score and the end time is the time of the move.  An
    agent standing on the goal gets the one-cell path [[goal]] and is
    therefore reported Stuck. *)
Theorem seeker_without_step_is_stuck (now : Z) (st : game) (r : option (list pos)) :
  astar ROWS COLS (grid st) (pac_pos st) (goal st)
    (Some (list_to_set (ghost_positions st))) = Ret r →
  (∀ path, r = Some path → (length path < 2)%nat) →
  (∃ st', seeker_step ROWS COLS now st = Some st'
     ∧ playing st' = false ∧ game_over st' = true ∧ reason st' = Some Stuck
     ∧ final_score st' = Some (score st) ∧ end_time st' = Some now
     ∧ pac_pos st' = pac_pos st)
  ∧ (∀ p, pac_pos st = Some p → goal st = Some p → r = Some [p]).
Proof.
  intros Ha Hshort. split.
  - unfold seeker_step. cbn [grid pac_pos goal ghost_positions]. rewrite Ha.
    destruct r as [path|].
    + specialize (Hshort path eq_refl).
      destruct path as [|a [|b rest]]; [| |simpl in Hshort; lia];
        eexists; (split; [reflexivity|]); by repeat split.
    + eexists; (split; [reflexivity|]); by repeat split.
  - intros p Hp Hg. rewrite Hp, Hg, astar_start_is_goal in Ha. congruence.
Qed.

(** One tick never adds a reward, and changes the score only by collecting
    the reward under the agent. *)
Lemma game_logic_rewards (now ticks : Z) (st st' : game) :
  game_logic ROWS COLS now ticks st = Some st' →
  (reward_cells st' = reward_cells st ∧ score st' = score st)
  ∨ (∃ p, pac_pos st' = Some p ∧ p ∈ reward_cells st
        ∧ reward_cells st' = reward_cells st ∖ {[p]}
        ∧ score st' = score st + 1).
Proof.
  intros H.
  destruct (decide (running st)) as [Hr|Hr];
    [|rewrite game_logic_idle in H by done; injection H as <-; by left].
  apply game_logic_steps in H as (st1 & st2 & H1 & H2 & ->); [|done].
  destruct (collision_check_cases ticks st2) as (Cp & Cr & Cs & _).
  rewrite Cp, Cr, Cs.
  assert (pac_pos st2 = pac_pos st1 ∧ reward_cells st2 = reward_cells st1
          ∧ score st2 = score st1) as (Pp & Pr & Ps).
  { destruct (pursuer_due now st1).
    - apply pursuer_step_keeps in H2. naive_solver.
    - by injection H2 as <-. }
  rewrite Pp, Pr, Ps.
  destruct (seeker_due now st); [|injection H1 as <-; by left].
  apply seeker_step_cases in H1 as
    [(a & p & rest & _ & Hp & Hrw & Hsc & _)|(_ & Hp & Hrw & Hsc & _)].
  - rewrite Hp, Hrw, Hsc. case_bool_decide as Hin.
    + right. by exists p.
    + left. split; [|done]. apply set_eq. set_solver.
  - left. by rewrite Hrw, Hsc.
Qed.

Lemma play_snoc (clock : list (Z * Z)) (t : Z * Z) (st : game) :
  play ROWS COLS (clock ++ [t]) st
  = play ROWS COLS clock st ≫= game_logic ROWS COLS t.1 t.2.
Proof. unfold play. by rewrite foldl_app. Qed.

(** Over any number of ticks the reward set shrinks, and the score counts
    each removed reward exactly once. *)
Lemma play_rewards (clock : list (Z * Z)) (st st' : game) :
  play ROWS COLS clock st = Some st' →
  reward_cells st' ⊆ reward_cells st
  ∧ score st' = score st + Z.of_nat (size (reward_cells st ∖ reward_cells st')).
Proof.
  revert st'. induction clock as [|t clock IH] using rev_ind; intros st'.
  - intros [= <-]. split; [done|].
    replace (reward_cells st ∖ reward_cells st) with (∅ : gset (Z * Z)) by set_solver.
    rewrite size_empty. lia.
  - rewrite play_snoc. destruct (play ROWS COLS clock st) as [stm|]; [|done].
    cbn [mbind option_bind]. intros H.
    destruct (IH stm eq_refl) as (Hsub & Hsc).
    apply game_logic_rewards in H as [(Hr & Hs)|(p & _ & Hin & Hr & Hs)].
    + by rewrite Hr, Hs.
    + rewrite Hr, Hs, Hsc. split; [set_solver|].
      replace (reward_cells st ∖ (reward_cells stm ∖ {[p]}))
        with ({[p]} ∪ reward_cells st ∖ reward_cells stm).
      * rewrite (size_union {[p]} (reward_cells st ∖ reward_cells stm)) by set_solver.
        rewrite size_singleton. lia.
      * apply set_eq. intros x. rewrite elem_of_union, !elem_of_difference,
          elem_of_singleton.
        destruct (decide (x = p)) as [->|]; [|naive_solver].
        split; [|tauto]. intros _. split; [set_solver|]. tauto.
Qed.

(** C7.  When the seeker advances onto a cell [p] of the reward set, [p]
    leaves the set and the score grows by exactly 1; in one tick the reward
    set changes at most by the removal of the agent's cell; and over a whole
    run it only shrinks, a removed reward never comes back, and the score
    has counted every removed reward once. *)
Theorem reward_collection (now : Z) (st : game) (a p : pos) (rest : list pos) :
  astar ROWS COLS (grid st) (pac_pos st) (goal st)
    (Some (list_to_set (ghost_positions st))) = Ret (Some (a :: p :: rest)) →
  p ∈ reward_cells st →
  (∃ st1, seeker_step ROWS COLS now st = Some st1
     ∧ pac_pos st1 = Some p
     ∧ reward_cells st1 = reward_cells st ∖ {[p]}
     ∧ (p ∉ reward_cells st1)
     ∧ score st1 = score st + 1)
  ∧ (∀ ticks st', game_logic ROWS COLS now ticks st = Some st' →
       (reward_cells st' = reward_cells st ∧ score st' = score st)
       ∨ (∃ c, pac_pos st' = Some c ∧ c ∈ reward_cells st
             ∧ reward_cells st' = reward_cells st ∖ {[c]}
             ∧ score st' = score st + 1))
  ∧ (∀ clock st', play ROWS COLS clock st = Some st' →
       reward_cells st' ⊆ reward_cells st
       ∧ score st' = score st + Z.of_nat (size (reward_cells st ∖ reward_cells st'))
       ∧ (∀ clock' st'', play ROWS COLS clock' st' = Some st'' →
            ∀ c, c ∉ reward_cells st' → c ∉ reward_cells st'')).
Proof.
  intros Ha Hin. split; [|split].
  - destruct (seeker_step ROWS COLS now st) as [s1|] eqn:Hs.
    + exists s1. split; [done|].
      apply seeker_step_cases in Hs as
        [(a' & p' & rest' & Ha' & Hp & Hrw & Hsc & _)|([Hn|(path & Hn & Hl)] & _)].
      * rewrite Ha in Ha'. injection Ha' as -> -> ->.
        rewrite Hp, Hrw, Hsc, bool_decide_eq_true_2 by done.
        repeat split; [set_solver].
      * rewrite Ha in Hn. done.
      * rewrite Ha in Hn. injection Hn as <-. simpl in Hl. lia.
    + unfold seeker_step in Hs. cbn [grid pac_pos goal ghost_positions] in Hs.
      by rewrite Ha in Hs.
  - intros ticks st'. apply game_logic_rewards.
  - intros clock st' Hplay. destruct (play_rewards _ _ _ Hplay) as (Hsub & Hsc).
    split; [done|]. split; [done|].
    intros clock' st'' Hplay' c Hc. apply play_rewards in Hplay' as (Hsub' & _).
    set_solver.
Qed.

Lemma ghost_move_in (g : list (list Z)) (target : option pos) (gs gs' : list pos)
  (gpos p : pos) :
  mapM (ghost_move ROWS COLS g target) gs = Some gs' →
  gpos ∈ gs →
  ghost_move ROWS COLS g target gpos = Some p →
  p ∈ gs'.
Proof.
  intros Hm Hin Hg. apply mapM_Some in Hm.
  apply list_elem_of_lookup in Hin as [i Hi].
  destruct (Forall2_lookup_l _ _ _ _ _ Hm Hi) as (y & Hy & Hgy).
  rewrite Hg in Hgy. injection Hgy as <-.
  apply list_elem_of_lookup. by exists i.
Qed.

(** C3.  In a running state, when the pursuers move and the planned step of
    one of them (the second cell of its BFS path) is the agent's cell, the
    tick ends in Caught, whatever the seeker did before in the same tick,
    winning included. *)
Theorem pursuer_on_agent_is_caught (now ticks : Z) (st st1 st' : game)
  (gpos p first : pos) (rest : list pos) :
  running st →
  (if seeker_due now st then seeker_step ROWS COLS now st else Some st) = Some st1 →
  pursuer_due now st1 = true →
  gpos ∈ ghost_positions st1 →
  pac_pos st1 = Some p →
  bfs_path ROWS COLS (grid st1) (Some gpos) (Some p) = Ret (Some (first :: p :: rest)) →
  game_logic ROWS COLS now ticks st = Some st' →
  reason st' = Some Ghost ∧ reason st' ≠ Some Win
  ∧ game_over st' = true ∧ playing st' = false
  ∧ final_score st' = Some (score st') ∧ end_time st' = Some ticks.
Proof.
  intros Hrun H1 Hdue Hin Hp Hbfs Hgl.
  apply game_logic_steps in Hgl as (s1 & st2 & H1' & H2 & ->); [|done].
  rewrite H1 in H1'. injection H1' as <-. rewrite Hdue in H2.
  pose proof (pursuer_step_keeps _ _ _ H2) as (Pp & _ & Ps & _ & _ & _ & _ & _ & Hm).
  assert (Hc : caught st2 = true).
  { unfold caught. rewrite Pp, Hp. apply bool_decide_eq_true.
    eapply ghost_move_in; [exact Hm|exact Hin|].
    unfold ghost_move. by rewrite Hp, Hbfs. }
  destruct (collision_check_cases ticks st2) as (_ & _ & Cs & Hc' & _).
  destruct (Hc' Hc) as (-> & -> & -> & -> & ->). rewrite Cs. by repeat split.
Qed.

Lemma seeker_step_terminal (now : Z) (st st1 : game) :
  seeker_step ROWS COLS now st = Some st1 →
  game_over st = false →
  game_over st1 = true →
  final_score st1 = Some (score st1) ∧ end_time st1 = Some now
  ∧ playing st1 = false ∧ (reason st1 = Some Win ∨ reason st1 = Some Stuck).
Proof.
  unfold seeker_step. cbn [grid pac_pos goal ghost_positions reward_cells score].
  destruct (astar _ _ _ _ _ _) as [[path|]| |]; try done.
  - destruct path as [|a [|p rest]]; intros [= <-]; fields; try by auto.
    destruct (bool_decide (Some p = goal st)); fields; [by auto|congruence].
  - intros [= <-]. fields. by auto.
Qed.

(** C2, as the code has it.  The seeker's step comes first in a tick, but
    the pursuers' step is not gated on its outcome: it runs whenever there
    are pursuers and their interval has elapsed.  A terminal reason and end
    time set by the seeker's step survive the tick exactly when no pursuer
    stands on the agent's cell afterwards; otherwise they are replaced by
    Caught and the clock reading of the collision check.  The final score
    is the same either way. *)
Theorem seeker_terminal_then_pursuers (now ticks : Z) (st st1 st' : game) :
  running st →
  seeker_due now st = true →
  seeker_step ROWS COLS now st = Some st1 →
  game_over st1 = true →
  game_logic ROWS COLS now ticks st = Some st' →
  ∃ st2,
    (if pursuer_due now st1 then pursuer_step ROWS COLS now st1 else Some st1)
    = Some st2
    ∧ st' = collision_check ticks st2
    ∧ game_over st' = true ∧ playing st' = false
    ∧ final_score st' = final_score st1
    ∧ (caught st2 = false →
         reason st' = reason st1 ∧ end_time st' = Some now
         ∧ (reason st' = Some Win ∨ reason st' = Some Stuck))
    ∧ (caught st2 = true → reason st' = Some Ghost ∧ end_time st' = Some ticks).
Proof.
  intros Hrun Hdue H1 Hover Hgl.
  pose proof Hrun as (_ & Hg0 & _).
  apply game_logic_steps in Hgl as (s1 & st2 & H1' & H2 & ->); [|done].
  rewrite Hdue, H1 in H1'. injection H1' as <-.
  destruct (seeker_step_terminal _ _ _ H1 Hg0 Hover) as (Hfs & Het & Hpl & Hre).
  exists st2. split; [done|]. split; [done|].
  assert (reason st2 = reason st1 ∧ game_over st2 = game_over st1
          ∧ playing st2 = playing st1 ∧ final_score st2 = final_score st1
          ∧ end_time st2 = end_time st1 ∧ score st2 = score st1)
    as (Pr & Pg & Ppl & Pf & Pe & Ps).
  { destruct (pursuer_due now st1).
    - apply pursuer_step_keeps in H2. naive_solver.
    - by injection H2 as <-. }
  destruct (collision_check_cases ticks st2) as (_ & _ & _ & Hc1 & Hc0).
  destruct (caught st2) eqn:Hc.
  - destruct (Hc1 eq_refl) as (-> & -> & -> & -> & ->).
    rewrite Ps, Hfs. by repeat split.
  - rewrite (Hc0 eq_refl), Pr, Pg, Ppl, Pf, Pe. by repeat split.
Qed.

End Properties.

(** ** The properties at work on the 30 x 30 board *)

Lemma seeker_without_step_is_stuck_witness :
  (∃ st', seeker_step 30 30 300 at_goal = Some st'
     ∧ playing st' = false ∧ game_over st' = true ∧ reason st' = Some Stuck
     ∧ final_score st' = Some (score at_goal) ∧ end_time st' = Some 300
     ∧ pac_pos st' = pac_pos at_goal)
  ∧ (∀ p, pac_pos at_goal = Some p → goal at_goal = Some p → Some [(5, 6)] = Some [p]).
Proof.
  apply (seeker_without_step_is_stuck 30 30 300 at_goal (Some [(5, 6)])).
  - vm_compute. reflexivity.
  - intros path [= <-]. simpl. lia.
Defined.

Lemma reward_collection_witness :
  ∃ st1, seeker_step 30 30 300 snack = Some st1
     ∧ pac_pos st1 = Some (6, 5)
     ∧ reward_cells st1 = reward_cells snack ∖ {[(6, 5)]}
     ∧ ((6, 5) ∉ reward_cells st1)
     ∧ score st1 = score snack + 1.
Proof.
  refine (proj1 (reward_collection 30 30 300 snack (5, 5) (6, 5)
                   [(7, 5); (8, 5); (9, 5)] _ _)).
  - vm_compute. reflexivity.
  - vm_compute. reflexivity.
Defined.

Lemma pursuer_on_agent_is_caught_witness :
  ∃ st', game_logic 30 30 300 301 duel = Some st'
    ∧ reason st' = Some Ghost ∧ reason st' ≠ Some Win
    ∧ game_over st' = true ∧ playing st' = false
    ∧ final_score st' = Some (score st') ∧ end_time st' = Some 301.
Proof.
  eexists. split; [vm_compute; reflexivity|].
  eapply (pursuer_on_agent_is_caught 30 30 300 301 duel _ _ (5, 7) (5, 6) (5, 7) []).
  - repeat split. by eexists.
  - vm_compute. reflexivity.
  - vm_compute. reflexivity.
  - vm_compute. apply list_elem_of_here.
  - vm_compute. reflexivity.
  - vm_compute. reflexivity.
  - vm_compute. reflexivity.
Defined.

(** C2 as stated fails: Pac-Man steps onto the goal and wins at time 300;
    in the same tick the ghost still moves, lands on him, and the run is
    recorded as Caught at time 301. *)
Lemma win_overwritten_by_ghost :
  ∃ st1 st',
    seeker_step 30 30 300 duel = Some st1
    ∧ game_over st1 = true ∧ reason st1 = Some Win ∧ end_time st1 = Some 300
    ∧ ghost_positions st1 = [(5, 7)]
    ∧ game_logic 30 30 300 301 duel = Some st'
    ∧ ghost_positions st' = [(5, 6)]
    ∧ reason st' = Some Ghost ∧ end_time st' = Some 301.
Proof.
  eexists. eexists.
  split; [vm_compute; reflexivity|].
  do 4 (split; [reflexivity|]).
  split; [vm_compute; reflexivity|].
  by repeat split.
Qed.

Lemma seeker_terminal_then_pursuers_witness :
  ∃ st1 st' st2,
    seeker_step 30 30 300 duel = Some st1
    ∧ (if pursuer_due 300 st1 then pursuer_step 30 30 300 st1 else Some st1) = Some st2
    ∧ st' = collision_check 301 st2
    ∧ game_over st' = true ∧ playing st' = false
    ∧ final_score st' = final_score st1
    ∧ (caught st2 = false →
         reason st' = reason st1 ∧ end_time st' = Some 300
         ∧ (reason st' = Some Win ∨ reason st' = Some Stuck))
    ∧ (caught st2 = true → reason st' = Some Ghost ∧ end_time st' = Some 301).
Proof.
  eexists. eexists.
  assert (H1 : seeker_step 30 30 300 duel = Some ?[s1]) by (vm_compute; reflexivity).
  assert (Hgl : game_logic 30 30 300 301 duel = Some ?[s']) by (vm_compute; reflexivity).
  assert (Hrun : running duel) by (repeat split; by eexists).
  destruct (seeker_terminal_then_pursuers 30 30 300 301 duel _ _
              Hrun eq_refl H1 eq_refl Hgl) as (st2 & H).
  exists st2. split; [exact H1|exact H].
Defined.

(** C6 fails on the G + click: clicking a wall cell with G held adds a ghost
    there, although every ghost was off the walls before. *)
Theorem ghost_click_on_wall :
  ghosts_off_walls walled
  ∧ grid_get (grid (left_click false true (5, 5) walled)) (5, 5) = Some WALL
  ∧ (5, 5) ∈ ghost_positions (left_click false true (5, 5) walled)
  ∧ mouse_edit 30 30 (Mouse true false (110, 105) false true) walled
    = Some (left_click false true (5, 5) walled).
Proof.
  split; [|split; [|split]].
  - intros p Hp. unfold walled in Hp. cbn [ghost_positions] in Hp.
    repeat (apply elem_of_cons in Hp as [->|Hp]); try by vm_compute.
    by apply elem_of_nil in Hp.
  - vm_compute. reflexivity.
  - vm_compute. do 4 apply list_elem_of_further. apply list_elem_of_here.
  - vm_compute. reflexivity.
Qed.

Lemma load_level_places_witness :
  grid_get (lv_grid (load_level 30 30 (Some three_lines))) (13, 13) = Some START
  ∧ lv_start (load_level 30 30 (Some three_lines)) = Some (13, 13)
  ∧ lv_goal (load_level 30 30 (Some three_lines)) = Some (13, 15).
Proof.
  pose proof (load_level_places 30 30 three_lines 0 0 "S") as H.
  cbv zeta in H.
  destruct H as (Hcell & _ & _ & Hs & _).
  - exists (list_ascii_of_string "S.G"). split; vm_compute; reflexivity.
  - vm_compute. reflexivity.
  - split; [exact Hcell|]. split; vm_compute; reflexivity.
Defined.

(** Line ends of other systems are read as line ends, not as a column of
    the level: a file with CR LF line ends has its 4 columns centred, and a
    CR at the end of the only line is no fifth column. *)
Lemma load_level_universal_newlines :
  level_lines crlf_level
  = [list_ascii_of_string "S-G-"; list_ascii_of_string "----"]
  ∧ lv_start (load_level 30 30 (Some crlf_level)) = Some (14, 13)
  ∧ lv_goal (load_level 30 30 (Some crlf_level)) = Some (14, 15)
  ∧ level_lines cr_level = [list_ascii_of_string "S.SS"]
  ∧ lv_start (load_level 30 30 (Some cr_level)) = Some (14, 16).
Proof. repeat split; vm_compute; reflexivity. Qed.

(** C4 as stated fails when the start is a Wall cell (a ghost put on a wall
    by G + click): no path through non-Wall cells starts there, yet
    [bfs_path] answers with a path. *)
Lemma bfs_path_from_wall :
  grid_get (grid walled) (5, 5) = Some WALL
  ∧ ¬ walkable 30 30 (grid walled) (5, 5)
  ∧ bfs_path 30 30 (grid walled) (Some (5, 5)) (Some (5, 6))
    = Ret (Some [(5, 5); (5, 6)]).
Proof.
  split; [by vm_compute|]. split; [|by vm_compute].
  intros (_ & v & Hv & Hne). vm_compute in Hv. injection Hv as <-. by apply Hne.
Qed.

Lemma bfs_path_shortest_witness :
  ∃ r, bfs_path 30 30 (make_grid 30 30) (Some (0, 0)) (Some (2, 2)) = Ret r
    ∧ ((0, 0) = (2, 2) → r = Some [(0, 0)])
    ∧ (∀ path, r = Some path →
         route (walkable 30 30 (make_grid 30 30)) (0, 0) path (2, 2)
         ∧ (∀ p', route (walkable 30 30 (make_grid 30 30)) (0, 0) p' (2, 2) →
              (length path ≤ length p')%nat)
         ∧ (walkable 30 30 (make_grid 30 30) (0, 0) →
              Forall (walkable 30 30 (make_grid 30 30)) path))
    ∧ (r = None ↔ ¬ ∃ p', route (walkable 30 30 (make_grid 30 30)) (0, 0) p' (2, 2))
    ∧ bfs_path 30 30 (make_grid 30 30) None (Some (2, 2)) = Ret None
    ∧ bfs_path 30 30 (make_grid 30 30) (Some (0, 0)) None = Ret None
    ∧ bfs_path 30 30 (make_grid 30 30) None None = Ret None.
Proof.
  exact (bfs_path_shortest 30 30 (make_grid 30 30) (0, 0) (2, 2) (make_grid_wf 30 30)).
Defined.

(** A path that starts on a Wall cell which is also blocked. *)
Lemma astar_path_is_route_witness :
  head [(5, 5); (5, 6); (5, 7)] = Some (5, 5)
  ∧ last [(5, 5); (5, 6); (5, 7)] = Some (5, 7)
  ∧ (∀ (i : nat) a b,
       [(5, 5); (5, 6); (5, 7)] !! i = Some a →
       [(5, 5); (5, 6); (5, 7)] !! S i = Some b →
       adjacent a b
       ∧ in_bounds 30 30 b = true
       ∧ (∃ v, grid_get (grid walled) b = Some v ∧ v ≠ WALL)
       ∧ b ∉ default ∅ (Some ({[(5, 5)]} : gset (Z * Z)))).
Proof.
  apply (astar_path_is_route 30 30 (grid walled) (5, 5) (5, 7) (Some {[(5, 5)]})).
  vm_compute. reflexivity.
Defined.

(** No path leads to a goal that is a Wall cell. *)
Lemma astar_none_or_trivial_witness :
  astar 30 30 (grid walled) (Some (0, 0)) (Some (5, 5)) None = Ret None
  ∧ astar 30 30 (grid walled) None (Some (5, 5)) None = Ret None
  ∧ astar 30 30 (grid walled) (Some (0, 0)) None None = Ret None
  ∧ astar 30 30 (grid walled) (Some (0, 0)) (Some (0, 0)) None = Ret (Some [(0, 0)]).
Proof.
  apply (astar_none_or_trivial 30 30 (grid walled) (0, 0) (5, 5)
           (Some (0, 0)) (Some (5, 5)) None).
  - unfold walled. cbn [grid]. apply grid_set_wf, make_grid_wf.
  - intros [p Hp]. apply route_end in Hp as [(_ & v & Hv & Hne) _]; [|done].
    vm_compute in Hv. injection Hv as <-. by apply Hne.
Defined.

(** The scenario of the specification: on an empty board the path from
    (0,0) to (4,4) has 9 cells, with 5 rows and columns as with 30. *)
Lemma astar_open_board :
  astar 5 5 (make_grid 5 5) (Some (0, 0)) (Some (4, 4)) None
  = Ret (Some [(0,0); (1,0); (2,0); (3,0); (4,0); (4,1); (4,2); (4,3); (4,4)])
  ∧ astar 30 30 (make_grid 30 30) (Some (0, 0)) (Some (4, 4)) None
    = Ret (Some [(0,0); (1,0); (2,0); (3,0); (4,0); (4,1); (4,2); (4,3); (4,4)]).
Proof. split; vm_compute; reflexivity. Qed.

(** C1 fails on the code.  On the board [detour], from (5,7) to (2,0) with
    nothing blocked, [astar] returns a path of 15 cells although a path of
    13 cells exists (the one [bfs_path] finds).  The score of (6,2) drops
    from 10 to 6 while (6,2) is in the open set; no heap entry is pushed for
    it then, so it keeps its old priority 16 and the goal is popped first,
    at priority 14. *)
Theorem astar_takes_detour :
  wf_grid 30 30 detour
  ∧ astar 30 30 detour (Some (5, 7)) (Some (2, 0)) None
    = Ret (Some [(5,7); (4,7); (3,7); (3,6); (3,5); (3,4); (3,3); (3,2); (4,2);
                 (5,2); (5,1); (5,0); (4,0); (3,0); (2,0)])
  ∧ bfs_path 30 30 detour (Some (5, 7)) (Some (2, 0))
    = Ret (Some [(5,7); (6,7); (6,6); (6,5); (6,4); (6,3); (6,2); (5,2); (5,1);
                 (5,0); (4,0); (3,0); (2,0)])
  ∧ route (free 30 30 detour ∅) (5, 7)
      [(5,7); (6,7); (6,6); (6,5); (6,4); (6,3); (6,2); (5,2); (5,1);
       (5,0); (4,0); (3,0); (2,0)] (2, 0).
Proof.
  assert (Hwf : wf_grid 30 30 detour).
  { split; [reflexivity|]. intros row Hrow.
    apply list_elem_of_lookup in Hrow as [i Hi].
    assert (Hlt : (i < 30)%nat) by (apply lookup_lt_Some in Hi; exact Hi).
    do 30 (destruct i as [|i]; [by injection Hi as <-|]). lia. }
  split; [exact Hwf|]. split; [vm_compute; reflexivity|].
  assert (Hbfs : bfs_path 30 30 detour (Some (5, 7)) (Some (2, 0))
    = Ret (Some [(5,7); (6,7); (6,6); (6,5); (6,4); (6,3); (6,2); (5,2); (5,1);
                 (5,0); (4,0); (3,0); (2,0)])) by (vm_compute; reflexivity).
  split; [exact Hbfs|].
  destruct (bfs_path_spec 30 30 detour (5, 7) (2, 0) Hwf) as (r & Hr & _ & Hsome & _).
  rewrite Hbfs in Hr. injection Hr as <-.
  destruct (Hsome _ eq_refl) as [(Hh & Hl & Ht) _].
  split; [done|]. split; [done|].
  eapply trail_mono; [|exact Ht]. intros x Hx. split; [done|]. apply not_elem_of_empty.
Qed.

(** * Further properties of the code *)

Section Further.

Variables ROWS COLS : Z.

(** Loops that thread an optional state through a list. *)
Lemma foldl_bind_inv {A B : Type} (f : B → A → option A) (P : A → Prop) (l : list B) :
  (∀ b a a', P a → f b a = Some a' → P a') →
  ∀ a a', P a → foldl (λ acc b, a ← acc; f b a) (Some a) l = Some a' → P a'.
Proof.
  intros Hf. induction l as [|b l IH]; intros a a' Ha; cbn [foldl].
  - by intros [= <-].
  - cbn [mbind option_bind]. destruct (f b a) as [a1|] eqn:H1.
    + apply IH. by eapply Hf.
    + intros H. exfalso. clear -H. induction l as [|b' l IH]; [done|]. by apply IH.
Qed.

Lemma foldl_bind_total {A B : Type} (f : B → A → option A) (P : A → Prop) (l : list B) :
  (∀ b a, P a → ∃ a', f b a = Some a' ∧ P a') →
  ∀ a, P a → ∃ a', foldl (λ acc b, a ← acc; f b a) (Some a) l = Some a' ∧ P a'.
Proof.
  intros Hf. induction l as [|b l IH]; intros a Ha; cbn [foldl]; [by eauto|].
  cbn [mbind option_bind]. destruct (Hf b a Ha) as (a1 & -> & Ha1). by apply IH.
Qed.

(** ** The window and the grid *)

Lemma CELL_SIZE_pos : 1 ≤ COLS ≤ WIDTH → 0 < CELL_SIZE COLS.
Proof. intros H. unfold CELL_SIZE. apply Z.div_str_pos. lia. Qed.

Lemma div_cell (x k n : Z) : 0 < n → x `div` n = k ↔ k * n ≤ x < (k + 1) * n.
Proof.
  intros Hn. split.
  - intros <-. pose proof (Z.mul_div_le x n Hn). pose proof (Z.mul_succ_div_gt x n Hn). lia.
  - intros H. symmetry. apply (Z.div_unique x n k (x - k * n)); lia.
Qed.

Lemma get_cell_eq (xy : pos) :
  1 ≤ COLS ≤ WIDTH →
  get_cell_from_mouse ROWS COLS xy
  = Some (if in_bounds ROWS COLS (xy.2 `div` CELL_SIZE COLS, xy.1 `div` CELL_SIZE COLS)
          then Some (xy.2 `div` CELL_SIZE COLS, xy.1 `div` CELL_SIZE COLS)
          else None).
Proof.
  intros HC. pose proof (CELL_SIZE_pos HC) as Hpos. unfold get_cell_from_mouse.
  by destruct (Z.eqb_spec (CELL_SIZE COLS) 0) as [H0|_]; [lia|].
Qed.

Lemma get_cell_rect (p xy : pos) :
  1 ≤ COLS ≤ WIDTH →
  in_bounds ROWS COLS p = true →
  in_rect (cell_rect COLS p) xy →
  get_cell_from_mouse ROWS COLS xy = Some (Some p).
Proof.
  intros HC Hp Hxy. pose proof (CELL_SIZE_pos HC) as Hpos. rewrite get_cell_eq by done.
  unfold in_rect, cell_rect in Hxy. destruct p as [r c]. cbn [fst snd] in Hxy.
  assert (xy.2 `div` CELL_SIZE COLS = r) as -> by (apply div_cell; lia).
  assert (xy.1 `div` CELL_SIZE COLS = c) as -> by (apply div_cell; lia).
  by rewrite Hp.
Qed.

(** X1.  [get_cell_from_mouse] returns the cell whose square contains the
    pixel, and [None] exactly when no cell of the grid does (the pixel is
    left of, above, right of or below the grid). *)
Theorem get_cell_from_mouse_spec (x y : Z) :
  1 ≤ COLS ≤ WIDTH →
  ∃ cell, get_cell_from_mouse ROWS COLS (x, y) = Some cell
    ∧ ∀ r c, cell = Some (r, c)
        ↔ (0 ≤ r < ROWS ∧ 0 ≤ c < COLS
           ∧ c * CELL_SIZE COLS ≤ x < (c + 1) * CELL_SIZE COLS
           ∧ r * CELL_SIZE COLS ≤ y < (r + 1) * CELL_SIZE COLS).
Proof.
  intros HC. pose proof (CELL_SIZE_pos HC) as Hpos.
  rewrite get_cell_eq by done. cbn [fst snd].
  eexists. split; [reflexivity|]. intros r c.
  destruct (in_bounds ROWS COLS _) eqn:Hin.
  - apply in_bounds_spec in Hin. cbn [fst snd] in Hin. split.
    + intros [= <- <-]. split; [lia|]. split; [lia|].
      split; by apply div_cell.
    + intros (_ & _ & Hx & Hy). apply div_cell in Hx, Hy; [|done..]. by rewrite Hx, Hy.
  - split; [done|]. intros (Hr & Hc & Hx & Hy). apply div_cell in Hx, Hy; [|done..].
    rewrite Hx, Hy in Hin.
    assert (in_bounds ROWS COLS (r, c) = true) by (apply in_bounds_spec; simpl; lia).
    congruence.
Qed.

(** X2.  Drawing and picking agree: every pixel of the square in which
    [draw_grid] paints cell [p], the centre at which a ghost or a diamond
    on [p] is drawn and the corner at which Pac-Man's sprite is placed are
    all mapped back to [p] by [get_cell_from_mouse]. *)
Theorem picking_inverts_drawing (p xy : pos) :
  1 ≤ COLS ≤ WIDTH →
  in_bounds ROWS COLS p = true →
  (in_rect (cell_rect COLS p) xy → get_cell_from_mouse ROWS COLS xy = Some (Some p))
  ∧ get_cell_from_mouse ROWS COLS (cell_center COLS p) = Some (Some p)
  ∧ get_cell_from_mouse ROWS COLS (sprite_corner COLS p) = Some (Some p).
Proof.
  intros HC Hp. pose proof (CELL_SIZE_pos HC) as Hpos.
  split; [by apply get_cell_rect|].
  split; apply get_cell_rect; try done; unfold in_rect, cell_rect, cell_center,
    sprite_corner; cbn [fst snd]; [|lia].
  pose proof (Z.div_pos (CELL_SIZE COLS) 2 ltac:(lia) ltac:(lia)).
  pose proof (Z.div_lt (CELL_SIZE COLS) 2 ltac:(lia) ltac:(lia)). lia.
Qed.

(** X3.  A grid made by [make_grid] has exactly the cells of the configured
    size, all of them Empty: a lookup inside the bounds gives Empty, one
    beyond the last row or column raises. *)
Theorem make_grid_cells (p : pos) :
  0 ≤ p.1 → 0 ≤ p.2 →
  grid_get (make_grid ROWS COLS) p
  = if in_bounds ROWS COLS p then Some EMPTY else None.
Proof.
  intros H1 H2. destruct (in_bounds ROWS COLS p) eqn:Hin; [by apply make_grid_get|].
  assert (Hout : ¬ (0 ≤ p.1 < ROWS ∧ 0 ≤ p.2 < COLS)).
  { rewrite <- in_bounds_spec. congruence. }
  unfold grid_get, make_grid.
  destruct (decide (p.1 < ROWS)) as [Hr|Hr].
  - rewrite lookup_replicate_2 by lia. cbn.
    apply lookup_replicate_None. lia.
  - destruct (replicate (Z.to_nat ROWS) _ !! Z.to_nat p.1) as [row|] eqn:Hrow; [|done].
    apply lookup_replicate in Hrow. lia.
Qed.

(** ** The heuristic *)

(** X4.  [heuristic] is a metric on cells: it is never negative, zero
    exactly between a cell and itself, symmetric, and obeys the triangle
    inequality. *)
Theorem heuristic_metric (a b c : pos) :
  0 ≤ heuristic a b
  ∧ (heuristic a b = 0 ↔ a = b)
  ∧ heuristic a b = heuristic b a
  ∧ heuristic a c ≤ heuristic a b + heuristic b c.
Proof.
  destruct a as [a1 a2], b as [b1 b2], c as [c1 c2]. unfold heuristic. cbn [fst snd].
  split; [lia|]. split; [|lia]. split; [|intros [= -> ->]; lia].
  intros H. f_equal; lia.
Qed.

Lemma heuristic_zero (a b : pos) :
  0 ≤ heuristic a b ∧ (heuristic a b = 0 → a = b).
Proof.
  destruct a as [a1 a2], b as [b1 b2]. unfold heuristic. cbn [fst snd].
  split; [lia|]. intros H. f_equal; lia.
Qed.

Lemma heuristic_step (a b t : pos) :
  adjacent a b → heuristic a t ≤ heuristic b t + 1.
Proof. unfold adjacent, heuristic. lia. Qed.

Lemma trail_heuristic (ok : pos → Prop) (p : list pos) :
  trail ok p → ∀ s t, head p = Some s → last p = Some t →
  heuristic s t + 1 ≤ Z.of_nat (length p).
Proof.
  induction 1 as [a|a b l Hadj Hok Ht IH]; intros s t Hs Hl.
  - injection Hs as <-. injection Hl as <-. unfold heuristic. simpl. lia.
  - injection Hs as <-. rewrite last_cons_cons in Hl.
    specialize (IH b t eq_refl Hl). pose proof (heuristic_step a b t Hadj).
    cbn [length] in *. lia.
Qed.

(** X5.  [heuristic] never overestimates: whatever cells are allowed, a
    sequence of 4-adjacent steps from [s] to [t] has at least
    [heuristic s t + 1] cells; and one step changes the estimate by at most
    one. *)
Theorem heuristic_admissible (ok : pos → Prop) (s t : pos) (p : list pos) :
  route ok s p t →
  heuristic s t + 1 ≤ Z.of_nat (length p)
  ∧ ∀ a b, adjacent a b → Z.abs (heuristic a t - heuristic b t) ≤ 1.
Proof.
  intros (Hh & Hl & Ht). split; [by eapply trail_heuristic|].
  intros a b Hab. pose proof (heuristic_step a b t Hab).
  pose proof (heuristic_step b a t (adjacent_sym _ _ Hab)). lia.
Qed.

(** ** Predecessor chains *)

Lemma chain_fuel_indep (cf : gmap (Z * Z) (Z * Z)) (f : nat) :
  ∀ (f' : nat) (x : pos) (l l' : list pos),
  chain f cf x = Some l → chain f' cf x = Some l' → l = l'.
Proof.
  induction f as [|f IH]; intros f' x l l'; cbn [chain];
    destruct f' as [|f']; cbn [chain]; destruct (cf !! x) as [p|] eqn:Hp;
    intros H H'; try done; try congruence.
  apply fmap_Some in H as (k & Hk & ->). apply fmap_Some in H' as (k' & Hk' & ->).
  f_equal. by eapply IH.
Qed.

Lemma chain_suffix (cf : gmap (Z * Z) (Z * Z)) (f : nat) :
  ∀ (x : pos) (l : list pos) (i : nat) (y : pos),
  chain f cf x = Some l → l !! i = Some y →
  ∃ f', chain f' cf y = Some (drop i l).
Proof.
  induction f as [|f IH]; intros x l i y; cbn [chain];
    destruct (cf !! x) as [p|] eqn:Hp; intros H Hi; try done.
  - injection H as <-. destruct i as [|i]; [|done]. injection Hi as <-.
    exists 0%nat. cbn [chain]. by rewrite Hp.
  - apply fmap_Some in H as (k & Hk & ->). destruct i as [|i].
    + injection Hi as <-. exists (S f). cbn [chain]. by rewrite Hp, Hk.
    + cbn in Hi. cbn [drop]. by eapply IH.
  - injection H as <-. destruct i as [|i]; [|done]. injection Hi as <-.
    exists 0%nat. cbn [chain]. by rewrite Hp.
Qed.

Lemma chain_NoDup (cf : gmap (Z * Z) (Z * Z)) (f : nat) (x : pos) (l : list pos) :
  chain f cf x = Some l → NoDup l.
Proof.
  intros H. apply NoDup_alt. intros i j y Hi Hj.
  destruct (chain_suffix cf f x l i y H Hi) as (fi & Hfi).
  destruct (chain_suffix cf f x l j y H Hj) as (fj & Hfj).
  pose proof (chain_fuel_indep cf _ _ _ _ _ Hfi Hfj) as He.
  apply (f_equal length) in He. rewrite !length_drop in He.
  apply lookup_lt_Some in Hi, Hj. lia.
Qed.

Lemma chain_links (cf : gmap (Z * Z) (Z * Z)) (f : nat) :
  ∀ (x : pos) (l : list pos),
  chain f cf x = Some l →
  head l = Some x
  ∧ (∃ e, last l = Some e ∧ cf !! e = None)
  ∧ ∀ (i : nat) a b, l !! i = Some a → l !! S i = Some b → cf !! a = Some b.
Proof.
  induction f as [|f IH]; intros x l; cbn [chain];
    destruct (cf !! x) as [p|] eqn:Hp; intros H; try done.
  - injection H as <-. split; [done|]. split; [by exists x|]. by intros [|i].
  - apply fmap_Some in H as (k & Hk & ->).
    destruct (IH _ _ Hk) as (Hh & (e & He & Hce) & Hl).
    split; [done|]. split.
    + exists e. split; [|done]. destruct k; [done|]. by rewrite last_cons_cons.
    + intros [|i] a b Ha Hb.
      * injection Ha as <-. cbn in Hb. destruct k; [done|].
        injection Hh as ->. by injection Hb as <-.
      * by apply (Hl i).
  - injection H as <-. split; [done|]. split; [by exists x|]. by intros [|i].
Qed.

(** X6.  Whatever the predecessor links are, a path [reconstruct_path]
    returns ends at [current], begins at a cell without a predecessor,
    goes from each cell to the next along a link, and holds no cell twice;
    without a link at [current] it is the single cell [[current]]. *)
Theorem reconstruct_path_links (cf : gmap (Z * Z) (Z * Z)) (x : pos) (path : list pos) :
  reconstruct_path cf x = Some path →
  last path = Some x
  ∧ (∃ e, head path = Some e ∧ cf !! e = None)
  ∧ (∀ (i : nat) a b, path !! i = Some a → path !! S i = Some b → cf !! b = Some a)
  ∧ NoDup path
  ∧ (cf !! x = None → path = [x]).
Proof.
  unfold reconstruct_path. intros H. apply fmap_Some in H as (l & Hl & ->).
  destruct (chain_links cf _ _ _ Hl) as (Hh & (e & He & Hce) & Hlk).
  split; [by rewrite last_reverse|]. split; [exists e; by rewrite head_reverse|].
  split; [|split; [rewrite reverse_Permutation; by eapply chain_NoDup|]].
  - intros i a b Ha Hb.
    assert (Hlt : (S i < length l)%nat).
    { apply lookup_lt_Some in Hb. by rewrite length_reverse in Hb. }
    rewrite reverse_lookup in Ha by lia. rewrite reverse_lookup in Hb by lia.
    apply (Hlk (length l - S (S i))%nat); [done|].
    by replace (S (length l - S (S i))) with (length l - S i)%nat by lia.
  - intros Hx. cbn [chain] in Hl. rewrite Hx in Hl. by injection Hl as <-.
Qed.

(** ** The planners *)

Lemma astar_loop_path (fuel : nat) (g : list (list Z)) (blocked : gset pos) (t : pos) :
  ∀ (st : astar_state) (path : list pos),
  astar_loop ROWS COLS fuel g blocked t st = Ret (Some path) →
  ∃ cf, reconstruct_path cf t = Some path.
Proof.
  induction fuel as [|fuel IH]; intros st path; cbn [astar_loop]; [done|].
  destruct (heappop (open_set st)) as [[[[f c] cur] rest]|]; [|done].
  case_bool_decide.
  - destruct (reconstruct_path _ t) as [p|] eqn:Hp; [|done]. intros [= <-]. eauto.
  - destruct (expand _ _ _ _ _ _ _) as [st2|]; [|done]. apply IH.
Qed.

Lemma bfs_loop_path (fuel : nat) (g : list (list Z)) (t : pos) :
  ∀ (st : bfs_state) (path : list pos),
  bfs_loop ROWS COLS fuel g t st = Ret (Some path) →
  ∃ cf, reconstruct_path cf t = Some path.
Proof.
  induction fuel as [|fuel IH]; intros st path; cbn [bfs_loop]; [done|].
  destruct (q st) as [|cur rest]; [done|].
  case_bool_decide as Hc.
  - subst cur. destruct (reconstruct_path _ t) as [p|] eqn:Hp; [|done].
    intros [= <-]. eauto.
  - destruct (bfs_expand _ _ _ _ _) as [st2|]; [|done]. apply IH.
Qed.

Lemma reconstruct_path_NoDup (cf : gmap (Z * Z) (Z * Z)) (x : pos) (path : list pos) :
  reconstruct_path cf x = Some path → NoDup path.
Proof.
  unfold reconstruct_path. intros H. apply fmap_Some in H as (l & Hl & ->).
  rewrite reverse_Permutation. by eapply chain_NoDup.
Qed.

Lemma astar_answer (g : list (list Z)) (s t : pos) (blocked : option (gset pos)) :
  match astar ROWS COLS g (Some s) (Some t) blocked with
  | Ret (Some path) =>
      route (free ROWS COLS g (default ∅ blocked)) s path t
      ∧ (length path ≤ S (cells ROWS COLS))%nat
  | Ret None => ∀ p', ¬ route (free ROWS COLS g (default ∅ blocked)) s p' t
  | Raise => ¬ wf_grid ROWS COLS g
  | Timeout => False
  end.
Proof.
  rewrite astar_blocked_default.
  pose proof (astar_spec ROWS COLS g (default ∅ blocked) s t (λ _, True)
                ltac:(done) I) as H.
  destruct (astar ROWS COLS g (Some s) (Some t) (Some (default ∅ blocked)))
    as [[path|]| |]; try done.
  destruct H as (Hr & st' & c' & f & c & rest & gt & Hi & _ & _ & Hgt & Hlen).
  split; [done|].
  pose proof (ai_bound _ _ _ _ _ _ _ _ _ Hi _ _ Hgt).
  pose proof (came_from_cells ROWS COLS _ _ _ _ _ _ _ Hi). lia.
Qed.

(** X7.  [astar] always comes to an end, whatever the grid, the endpoints
    and the blocked set are; it raises only on a grid that has not the
    configured number of rows and columns, and on a grid that has it
    returns [None] or a path. *)
Theorem astar_terminates (g : list (list Z)) (s t : option pos)
  (blocked : option (gset pos)) :
  astar ROWS COLS g s t blocked ≠ Timeout
  ∧ (astar ROWS COLS g s t blocked = Raise → ¬ wf_grid ROWS COLS g)
  ∧ (wf_grid ROWS COLS g → ∃ r, astar ROWS COLS g s t blocked = Ret r).
Proof.
  destruct s as [s|], t as [t|]; try (split; [done|split; [done|by eexists]]).
  pose proof (astar_answer g s t blocked) as H.
  destruct (astar ROWS COLS g (Some s) (Some t) blocked) as [r| |]; [|done..].
  split; [done|]. split; [done|]. by eexists.
Qed.

(** X8.  On a grid of the configured size [astar] finds a path whenever
    one exists: if some sequence of adjacent cells leads from the start to
    the goal over cells that are in bounds, not Wall and not blocked, the
    answer is a path, not [None]. *)
Theorem astar_complete (g : list (list Z)) (s t : pos) (blocked : option (gset pos))
  (p : list pos) :
  wf_grid ROWS COLS g →
  route (free ROWS COLS g (default ∅ blocked)) s p t →
  ∃ path, astar ROWS COLS g (Some s) (Some t) blocked = Ret (Some path).
Proof.
  intros Hwf Hp. pose proof (astar_answer g s t blocked) as H.
  destruct (astar ROWS COLS g (Some s) (Some t) blocked) as [[path|]| |]; try done.
  - by exists path.
  - by destruct (H p).
Qed.

(** X9.  A path returned by [astar] visits no cell twice, has at least
    [heuristic start goal + 1] cells and at most one more than the grid has
    cells. *)
Theorem astar_path_simple (g : list (list Z)) (s t : pos) (blocked : option (gset pos))
  (path : list pos) :
  astar ROWS COLS g (Some s) (Some t) blocked = Ret (Some path) →
  NoDup path
  ∧ heuristic s t + 1 ≤ Z.of_nat (length path)
  ∧ (length path ≤ S (cells ROWS COLS))%nat.
Proof.
  intros Ha. pose proof (astar_answer g s t blocked) as H. rewrite Ha in H.
  destruct H as ((Hh & Hl & Ht) & Hlen).
  split; [|split; [by eapply trail_heuristic|done]].
  unfold astar in Ha. apply astar_loop_path in Ha as [cf Hcf].
  by eapply reconstruct_path_NoDup.
Qed.

(** X10.  [bfs_path] likewise never returns a path with a repeated cell. *)
Theorem bfs_path_simple (g : list (list Z)) (s t : option pos) (path : list pos) :
  bfs_path ROWS COLS g s t = Ret (Some path) → NoDup path.
Proof.
  unfold bfs_path. destruct s as [s|], t as [t|]; try done.
  case_bool_decide.
  - intros [= <-]. apply NoDup_singleton.
  - intros [cf Hcf]%bfs_loop_path. by eapply reconstruct_path_NoDup.
Qed.

Lemma visit_raises (g : list (list Z)) (blocked : gset pos) (t cur : pos)
  (ds : list pos) :
  (∀ p, grid_get g p = None) →
  ∀ acc, acc = None ∨ (∃ d, d ∈ ds ∧ in_bounds ROWS COLS (move cur d) = true) →
  foldl (visit ROWS COLS g blocked t cur) acc ds = None.
Proof.
  intros Hg. induction ds as [|d ds IH]; intros acc Hacc; cbn [foldl].
  - destruct Hacc as [->|(d & Hd & _)]; [done|]. by apply elem_of_nil in Hd.
  - apply IH. destruct acc as [st|]; [|by left].
    unfold visit, passable. cbn [mbind option_bind].
    destruct (in_bounds ROWS COLS (move cur d)) eqn:Hin.
    + rewrite Hg. by left.
    + destruct Hacc as [?|(d' & Hd' & Hin')]; [done|]. right. exists d'.
      apply elem_of_cons in Hd' as [->|?]; [congruence|done].
Qed.

Lemma bfs_visit_raises (g : list (list Z)) (cur : pos) (ds : list pos) :
  (∀ p, grid_get g p = None) →
  ∀ acc, acc = None ∨ (∃ d, d ∈ ds ∧ in_bounds ROWS COLS (move cur d) = true) →
  foldl (bfs_visit ROWS COLS g cur) acc ds = None.
Proof.
  intros Hg. induction ds as [|d ds IH]; intros acc Hacc; cbn [foldl].
  - destruct Hacc as [->|(d & Hd & _)]; [done|]. by apply elem_of_nil in Hd.
  - apply IH. destruct acc as [st|]; [|by left].
    unfold bfs_visit. cbn [mbind option_bind].
    destruct (in_bounds ROWS COLS (move cur d)) eqn:Hin.
    + rewrite Hg. by left.
    + destruct Hacc as [?|(d' & Hd' & Hin')]; [done|]. right. exists d'.
      apply elem_of_cons in Hd' as [->|?]; [congruence|done].
Qed.

(** X11.  Both planners raise on a grid without cells (no rows, or rows
    without columns) as soon as they look at the first neighbour inside the
    bounds: the size of the grid is taken from ROWS and COLS, not from the
    list. *)
Theorem planners_raise_without_cells (g : list (list Z)) (s t : pos)
  (blocked : option (gset pos)) :
  2 ≤ ROWS →
  (∀ p, grid_get g p = None) →
  in_bounds ROWS COLS s = true → s ≠ t →
  astar ROWS COLS g (Some s) (Some t) blocked = Raise
  ∧ bfs_path ROWS COLS g (Some s) (Some t) = Raise.
Proof.
  intros HR Hg Hs Hst.
  assert (Hnb : ∃ d, d ∈ directions ∧ in_bounds ROWS COLS (move s d) = true).
  { apply in_bounds_spec in Hs. destruct (decide (s.1 + 1 < ROWS)).
    - exists (1, 0). split; [set_solver|].
      apply in_bounds_spec. unfold move. cbn [fst snd]. lia.
    - exists (-1, 0). split; [set_solver|].
      apply in_bounds_spec. unfold move. cbn [fst snd]. lia. }
  split.
  - unfold astar, astar_fuel. generalize (S (cells ROWS COLS * S (cells ROWS COLS))).
    intros n. cbn [astar_loop astar_init open_set heappop].
    rewrite bool_decide_eq_false_2 by done.
    unfold expand. rewrite visit_raises; [done|done|by right].
  - unfold bfs_path, bfs_fuel. rewrite bool_decide_eq_false_2 by done.
    generalize (S (cells ROWS COLS)). intros n. cbn [bfs_loop q].
    rewrite bool_decide_eq_false_2 by done.
    unfold bfs_expand. rewrite bfs_visit_raises; [done|done|by right].
Qed.

Lemma free_walkable (g : list (list Z)) (blocked : gset pos) (p : list pos) :
  trail (free ROWS COLS g blocked) p → trail (walkable ROWS COLS g) p.
Proof. apply trail_mono. by intros x [? _]. Qed.

(** X12.  The ghosts' planner is at least as good as Pac-Man's: on a grid
    of the configured size both return, whenever [astar] finds a path
    [bfs_path] finds one that is not longer, and with nothing blocked
    [astar] finds a path whenever [bfs_path] does. *)
Theorem bfs_no_longer_than_astar (g : list (list Z)) (s t : pos)
  (blocked : option (gset pos)) :
  wf_grid ROWS COLS g →
  ∃ ra rb,
    astar ROWS COLS g (Some s) (Some t) blocked = Ret ra
    ∧ bfs_path ROWS COLS g (Some s) (Some t) = Ret rb
    ∧ (∀ pa, ra = Some pa → ∃ pb, rb = Some pb ∧ (length pb ≤ length pa)%nat)
    ∧ (default ∅ blocked = ∅ → is_Some rb → is_Some ra).
Proof.
  intros Hwf. pose proof (astar_answer g s t blocked) as Ha.
  destruct (bfs_path_spec ROWS COLS g s t Hwf) as (rb & Hb & _ & Hsome & Hnone).
  destruct (astar ROWS COLS g (Some s) (Some t) blocked) as [ra| |]; [|done..].
  exists ra, rb. split; [done|]. split; [done|]. split.
  - intros pa ->. destruct Ha as ((Hh & Hl & Ht) & _).
    assert (Hr : route (walkable ROWS COLS g) s pa t).
    { split; [done|]. split; [done|]. by eapply free_walkable. }
    destruct rb as [pb|].
    + exists pb. split; [done|]. by apply (Hsome pb eq_refl).
    + destruct (proj1 Hnone eq_refl). by exists pa.
  - intros He [pb ->]. destruct ra as [pa|]; [done|]. exfalso.
    destruct (Hsome pb eq_refl) as [(Hh & Hl & Ht) _].
    apply (Ha pb). split; [done|]. split; [done|].
    eapply trail_mono; [|exact Ht]. intros x Hx. split; [done|].
    rewrite He. apply not_elem_of_empty.
Qed.

Lemma trail_reverse (ok : pos → Prop) (l : list pos) :
  trail ok l → (∀ a, head l = Some a → ok a) → trail ok (reverse l).
Proof.
  induction 1 as [a|a b l Hadj Hok Ht IH]; intros Ha.
  - constructor.
  - rewrite reverse_cons. eapply trail_snoc.
    + apply IH. by intros ? [= <-].
    + by rewrite last_reverse.
    + by apply adjacent_sym.
    + by apply Ha.
Qed.

Lemma route_reverse (ok : pos → Prop) (s t : pos) (p : list pos) :
  route ok s p t → ok s → route ok t (reverse p) s.
Proof.
  intros (Hh & Hl & Ht) Hs. split; [by rewrite head_reverse|].
  split; [by rewrite last_reverse|]. apply trail_reverse; [done|].
  intros a Ha. rewrite Hh in Ha. by injection Ha as <-.
Qed.

(** X13.  Between two cells that are both in bounds and not Wall the BFS
    distance is symmetric: [bfs_path] finds a path one way exactly when it
    finds one the other way, and the two have the same length. *)
Theorem bfs_path_symmetric (g : list (list Z)) (s t : pos) :
  wf_grid ROWS COLS g →
  walkable ROWS COLS g s → walkable ROWS COLS g t →
  ∃ r r', bfs_path ROWS COLS g (Some s) (Some t) = Ret r
    ∧ bfs_path ROWS COLS g (Some t) (Some s) = Ret r'
    ∧ length <$> r = length <$> r'.
Proof.
  intros Hwf Hs Ht.
  destruct (bfs_path_spec ROWS COLS g s t Hwf) as (r & Hr & _ & Hsome & Hnone).
  destruct (bfs_path_spec ROWS COLS g t s Hwf) as (r' & Hr' & _ & Hsome' & Hnone').
  exists r, r'. split; [done|]. split; [done|].
  destruct r as [p|], r' as [p'|]; cbn.
  - destruct (Hsome p eq_refl) as [H1 M1]. destruct (Hsome' p' eq_refl) as [H2 M2].
    pose proof (M1 _ (route_reverse _ _ _ _ H2 Ht)) as L1.
    pose proof (M2 _ (route_reverse _ _ _ _ H1 Hs)) as L2.
    rewrite length_reverse in L1, L2. f_equal. lia.
  - destruct (Hsome p eq_refl) as [H1 _]. destruct (proj1 Hnone' eq_refl).
    eexists. by apply route_reverse.
  - destruct (Hsome' p' eq_refl) as [H2 _]. destruct (proj1 Hnone eq_refl).
    eexists. by apply route_reverse.
  - done.
Qed.

Lemma manhattan_route (n : nat) :
  ∀ s t : pos,
  in_bounds ROWS COLS s = true → in_bounds ROWS COLS t = true →
  Z.to_nat (heuristic s t) = n →
  ∃ p, route (λ x, in_bounds ROWS COLS x = true) s p t ∧ length p = S n.
Proof.
  induction n as [|n IH]; intros s t Hs Ht Hn.
  - assert (s = t) as <-.
    { apply heuristic_zero. pose proof (proj1 (heuristic_zero s t)). lia. }
    exists [s]. by repeat split; constructor.
  - assert (∃ s', adjacent s s' ∧ in_bounds ROWS COLS s' = true
                  ∧ heuristic s' t = heuristic s t - 1) as (s' & Hadj & Hs' & Hh).
    { apply in_bounds_spec in Hs, Ht. destruct s as [r c], t as [r' c'].
      unfold heuristic, adjacent in *. cbn [fst snd] in *.
      destruct (Z.lt_trichotomy r r') as [?|[?|?]];
        [exists (r + 1, c)| |exists (r - 1, c)];
        try (rewrite in_bounds_spec; cbn [fst snd]; lia).
      destruct (Z.lt_trichotomy c c') as [?|[?|?]];
        [exists (r, c + 1)|lia|exists (r, c - 1)];
        rewrite in_bounds_spec; cbn [fst snd]; lia. }
    destruct (IH s' t Hs' Ht) as (p & (Hh' & Hl' & Ht') & Hlen); [lia|].
    destruct p as [|x p]; [done|]. injection Hh' as ->.
    exists (s :: s' :: p). split; [|simpl in *; lia].
    split; [done|]. split; [by rewrite last_cons_cons|]. by constructor.
Qed.

(** X14.  On a board without walls, as [make_grid] builds it, the ghosts'
    path between two cells of the grid has exactly
    [heuristic start goal + 1] cells: it is a Manhattan path. *)
Theorem bfs_path_open_board (s t : pos) :
  in_bounds ROWS COLS s = true → in_bounds ROWS COLS t = true →
  ∃ p, bfs_path ROWS COLS (make_grid ROWS COLS) (Some s) (Some t) = Ret (Some p)
    ∧ Z.of_nat (length p) = heuristic s t + 1.
Proof.
  intros Hs Ht.
  destruct (bfs_path_spec ROWS COLS _ s t (make_grid_wf ROWS COLS))
    as (r & Hr & _ & Hsome & Hnone).
  destruct (manhattan_route _ s t Hs Ht eq_refl) as (pm & (Hh & Hl & Htr) & Hlen).
  assert (Hm : route (walkable ROWS COLS (make_grid ROWS COLS)) s pm t).
  { split; [done|]. split; [done|]. eapply trail_mono; [|exact Htr].
    intros x Hx. split; [done|]. exists EMPTY. by rewrite make_grid_get. }
  destruct r as [p|]; [|destruct (proj1 Hnone eq_refl); by exists pm].
  exists p. split; [done|]. destruct (Hsome p eq_refl) as [(Hh' & Hl' & Ht') Hmin].
  pose proof (Hmin pm Hm). pose proof (trail_heuristic _ _ Ht' s t Hh' Hl').
  pose proof (proj1 (heuristic_zero s t)). lia.
Qed.

(** X15.  A ghost that follows its path closes in: when [bfs_path] from the
    ghost to Pac-Man has at least two cells, the ghost moves to the second
    one, which is adjacent to its cell, in bounds and not Wall, and from
    there the path to Pac-Man is exactly one cell shorter. *)
Theorem ghost_step_closes_in (g : list (list Z)) (gpos t a b : pos) (rest : list pos) :
  wf_grid ROWS COLS g →
  bfs_path ROWS COLS g (Some gpos) (Some t) = Ret (Some (a :: b :: rest)) →
  ghost_move ROWS COLS g (Some t) gpos = Some b
  ∧ adjacent gpos b ∧ walkable ROWS COLS g b
  ∧ ∃ p', bfs_path ROWS COLS g (Some b) (Some t) = Ret (Some p')
          ∧ length p' = S (length rest).
Proof.
  intros Hwf Hb. split; [unfold ghost_move; by rewrite Hb|].
  destruct (bfs_path_spec ROWS COLS g gpos t Hwf) as (r & Hr & _ & Hsome & _).
  rewrite Hb in Hr. injection Hr as <-.
  destruct (Hsome _ eq_refl) as [(Hh & Hl & Ht) Hmin]. injection Hh as ->.
  inversion Ht as [|? ? ? Hadj Hok Ht']; subst. split; [done|]. split; [done|].
  destruct (bfs_path_spec ROWS COLS g b t Hwf) as (r' & Hr' & _ & Hsome' & Hnone').
  rewrite last_cons_cons in Hl.
  assert (Hrb : route (walkable ROWS COLS g) b (b :: rest) t) by done.
  destruct r' as [p'|]; [|destruct (proj1 Hnone' eq_refl); by eexists].
  exists p'. split; [done|]. destruct (Hsome' p' eq_refl) as [(Hh' & Hl' & Ht'') Hmin'].
  pose proof (Hmin' _ Hrb) as L1.
  assert (Hrg : route (walkable ROWS COLS g) gpos (gpos :: p') t).
  { destruct p' as [|x p']; [done|]. injection Hh' as ->.
    split; [done|]. split; [by rewrite last_cons_cons|]. by constructor. }
  pose proof (Hmin _ Hrg) as L2. simpl in *. lia.
Qed.

(** ** The board while it is edited and played on *)

Ltac game_fields :=
  cbn [grid start goal reward_cells pac_pos ghost_positions playing game_over
       reason score final_score start_time end_time last_pac_move_time
       last_ghost_move_time terminal with_board].

Lemma walkable_set (g : list (list Z)) (cell q : pos) (v : Z) :
  wf_grid ROWS COLS g → in_bounds ROWS COLS cell = true →
  (q = cell → v ≠ WALL) →
  walkable ROWS COLS g q → walkable ROWS COLS (grid_set g cell v) q.
Proof.
  intros Hwf Hc Hv [Hq (x & Hx & Hne)]. split; [done|].
  rewrite (grid_get_set ROWS COLS) by done. case_decide; eauto.
Qed.

Lemma list_remove_sub (x q : pos) (l : list pos) :
  q ∈ list_remove x l → q ∈ l.
Proof.
  induction l as [|y l IH]; cbn [list_remove]; [done|].
  case_bool_decide; rewrite !elem_of_cons; [by right|].
  intros [->|?]; auto.
Qed.

Lemma list_remove_NoDup (x : pos) (l : list pos) :
  NoDup l → NoDup (list_remove x l) ∧ x ∉ list_remove x l.
Proof.
  induction 1 as [|y l Hy Hl IH]; cbn [list_remove].
  - split; [constructor|apply not_elem_of_nil].
  - case_bool_decide as Hyx.
    + subst y. done.
    + destruct IH as [IH1 IH2]. split.
      * constructor; [|done]. intros Hin%list_remove_sub. done.
      * rewrite elem_of_cons. intros [?|?]; [by subst|done].
Qed.

Lemma get_cell_in_bounds (xy cell : pos) :
  get_cell_from_mouse ROWS COLS xy = Some (Some cell) → in_bounds ROWS COLS cell = true.
Proof.
  unfold get_cell_from_mouse. destruct (CELL_SIZE COLS =? 0); [done|].
  destruct (in_bounds ROWS COLS _) eqn:Hin; [|done]. by intros [= <-].
Qed.

Lemma left_click_tidy (shift gkey : bool) (cell : pos) (st : game) :
  in_bounds ROWS COLS cell = true →
  tidy ROWS COLS st → NoDup (ghost_positions st) →
  (shift = false → gkey = true → walkable ROWS COLS (grid st) cell) →
  tidy ROWS COLS (left_click shift gkey cell st)
  ∧ NoDup (ghost_positions (left_click shift gkey cell st)).
Proof.
  intros Hc [Hwf Hgh] Hnd Hg. unfold left_click, tidy.
  assert (Hset : ∀ v, v ≠ WALL →
            wf_grid ROWS COLS (grid_set (grid st) cell v)
            ∧ ∀ p, p ∈ ghost_positions st →
                   walkable ROWS COLS (grid_set (grid st) cell v) p).
  { intros v Hv. split; [by apply grid_set_wf|].
    intros p Hp. apply walkable_set; auto. }
  destruct shift.
  { destruct (_ && _); game_fields; [|done]. split; [|done]. by apply Hset. }
  destruct gkey.
  { case_bool_decide as Hin; game_fields; [done|]. split.
    - split; [done|]. intros p [Hp| ->%list_elem_of_singleton]%elem_of_app; auto.
    - apply NoDup_app. split; [done|]. split; [|apply NoDup_singleton].
      intros x Hx ->%list_elem_of_singleton. done. }
  destruct (start st) as [s0|] eqn:Hs0; game_fields.
  2:{ split; [|done]. by apply Hset. }
  destruct (_ && _); game_fields.
  { split; [|done]. by apply Hset. }
  destruct (_ && _); game_fields; [|done].
  case_bool_decide as Hin.
  - destruct (list_remove_NoDup cell _ Hnd) as [Hnd' Hout]. split; [|done].
    split; [by apply grid_set_wf|]. intros p Hp.
    apply walkable_set; [done..| |by eapply Hgh, list_remove_sub].
    intros ->. done.
  - split; [|done]. split; [by apply grid_set_wf|]. intros p Hp.
    apply walkable_set; [done..| |by apply Hgh]. intros ->. done.
Qed.

Lemma right_click_tidy (cell : pos) (st : game) :
  in_bounds ROWS COLS cell = true →
  tidy ROWS COLS st → NoDup (ghost_positions st) →
  tidy ROWS COLS (right_click cell st)
  ∧ NoDup (ghost_positions (right_click cell st)).
Proof.
  intros Hc [Hwf Hgh] Hnd. unfold right_click, tidy. game_fields.
  split; [split; [by apply grid_set_wf|]|].
  - intros p Hp. apply walkable_set; [done..| |].
    + intros _. done.
    + apply Hgh. case_bool_decide; [by eapply list_remove_sub|done].
  - case_bool_decide; [by apply list_remove_NoDup|done].
Qed.

(** X16.  Editing keeps the board in order.  On a board whose grid has the
    configured size, whose ghosts stand on cells that are not Wall and are
    pairwise distinct, a frame of mouse editing leaves all of this true,
    provided a G + click does not hit a Wall cell: painting a wall on a
    ghost removes the ghost, and no other edit makes a ghost's cell a
    Wall. *)
Theorem mouse_edit_keeps_tidy (m : mouse) (st st' : game) :
  tidy ROWS COLS st → NoDup (ghost_positions st) →
  (∀ cell, left_pressed m = true → shift_held m = false → g_held m = true →
     get_cell_from_mouse ROWS COLS (mouse_pos m) = Some (Some cell) →
     walkable ROWS COLS (grid st) cell) →
  mouse_edit ROWS COLS m st = Some st' →
  tidy ROWS COLS st' ∧ NoDup (ghost_positions st').
Proof.
  intros Ht Hnd Hg. unfold mouse_edit.
  destruct (negb (playing st) && negb (game_over st)); [|by intros [= <-]].
  destruct (left_pressed m) eqn:Hl.
  - destruct (get_cell_from_mouse ROWS COLS (mouse_pos m)) as [[cell|]|] eqn:Hcell;
      cbn [mbind option_bind]; intros [= <-]; [|done].
    apply left_click_tidy; [by eapply get_cell_in_bounds|done..|].
    intros Hs Hk. by apply Hg.
  - destruct (right_pressed m); [|by intros [= <-]].
    destruct (get_cell_from_mouse ROWS COLS (mouse_pos m)) as [[cell|]|] eqn:Hcell;
      cbn [mbind option_bind]; intros [= <-]; [|done].
    apply right_click_tidy; [by eapply get_cell_in_bounds|done..].
Qed.

(** *** The game logic *)

Lemma seeker_step_shape (now : Z) (st st1 : game) :
  seeker_step ROWS COLS now st = Some st1 →
  grid st1 = grid st ∧ start st1 = start st ∧ goal st1 = goal st
  ∧ ghost_positions st1 = ghost_positions st ∧ start_time st1 = start_time st
  ∧ last_pac_move_time st1 = now
  ∧ last_ghost_move_time st1 = last_ghost_move_time st
  ∧ (is_Some (pac_pos st) → is_Some (pac_pos st1))
  ∧ ((game_over st1 = true ∧ playing st1 = false ∧ is_Some (reason st1)
      ∧ final_score st1 = Some (score st1) ∧ is_Some (end_time st1))
     ∨ (game_over st1 = game_over st ∧ playing st1 = playing st
        ∧ reason st1 = reason st ∧ final_score st1 = final_score st
        ∧ end_time st1 = end_time st)).
Proof.
  unfold seeker_step. cbn [grid pac_pos goal ghost_positions reward_cells score].
  destruct (astar _ _ _ _ _ _) as [[path|]| |]; try done.
  - destruct path as [|a [|p rest]]; intros [= <-]; game_fields;
      try (repeat (split; [done|]); left; by repeat split).
    destruct (bool_decide (Some p = goal st)); game_fields;
      repeat (split; [by eauto|]); [left|right]; by repeat split.
  - intros [= <-]. game_fields. repeat (split; [done|]). left. by repeat split.
Qed.

Lemma astar_returns (g : list (list Z)) (s t : option pos) (blocked : option (gset pos)) :
  wf_grid ROWS COLS g → ∃ r, astar ROWS COLS g s t blocked = Ret r.
Proof.
  intros Hwf. destruct s as [s|], t as [t|]; try by eexists.
  pose proof (astar_answer g s t blocked) as H.
  destruct (astar ROWS COLS g (Some s) (Some t) blocked) as [r| |];
    [by eexists|by destruct H|done].
Qed.

Lemma seeker_step_total (now : Z) (st : game) :
  wf_grid ROWS COLS (grid st) → is_Some (seeker_step ROWS COLS now st).
Proof.
  intros Hwf.
  destruct (astar_returns (grid st) (pac_pos st) (goal st)
              (Some (list_to_set (ghost_positions st))) Hwf) as [r Hr].
  unfold seeker_step. cbn [grid pac_pos goal ghost_positions]. rewrite Hr.
  destruct r as [[|x [|p rest]]|]; by eexists.
Qed.

Lemma ghost_move_hop (g : list (list Z)) (target : option pos) (gpos : pos) :
  wf_grid ROWS COLS g →
  ∃ new, ghost_move ROWS COLS g target gpos = Some new ∧ ghost_hop ROWS COLS g gpos new.
Proof.
  intros Hwf. unfold ghost_move, ghost_hop. destruct target as [t|]; [|by eauto].
  destruct (bfs_path_spec ROWS COLS g gpos t Hwf) as (r & -> & _ & Hsome & _).
  destruct r as [[|a [|b rest]]|]; eauto.
  exists b. split; [done|]. right.
  destruct (Hsome _ eq_refl) as [(Hh & _ & Ht) _]. injection Hh as ->.
  by inversion Ht.
Qed.

Lemma ghosts_mapM (g : list (list Z)) (target : option pos) (gs : list pos) :
  wf_grid ROWS COLS g →
  ∃ gs', mapM (ghost_move ROWS COLS g target) gs = Some gs'
         ∧ Forall2 (ghost_hop ROWS COLS g) gs gs'.
Proof.
  intros Hwf. induction gs as [|x gs (gs' & Hm & Hf)].
  - exists []. by split; [|constructor].
  - destruct (ghost_move_hop g target x Hwf) as (new & Hn & Hh).
    exists (new :: gs'). split; [|by constructor].
    cbn. rewrite Hn. cbn. by rewrite Hm.
Qed.

Lemma pursuer_step_shape (now : Z) (st : game) :
  wf_grid ROWS COLS (grid st) →
  ∃ gs, Forall2 (ghost_hop ROWS COLS (grid st)) (ghost_positions st) gs
    ∧ pursuer_step ROWS COLS now st
      = Some (Game (grid st) (start st) (goal st) (reward_cells st) (pac_pos st)
                gs (playing st) (game_over st) (reason st) (score st)
                (final_score st) (start_time st) (end_time st)
                (last_pac_move_time st) now).
Proof.
  intros Hwf.
  destruct (ghosts_mapM (grid st) (pac_pos st) (ghost_positions st) Hwf) as (gs & Hm & Hf).
  exists gs. split; [done|]. unfold pursuer_step. by rewrite Hm.
Qed.

Lemma Forall2_hop_refl (g : list (list Z)) (gs : list pos) :
  Forall2 (ghost_hop ROWS COLS g) gs gs.
Proof. apply Forall_Forall2_diag, Forall_forall. intros x _. by left. Qed.

(** X17.  When the ghosts move, every ghost either stays where it is or
    steps to a 4-adjacent cell that is in bounds and not a Wall; ghosts
    are neither added nor removed, and the grid is left alone. *)
Theorem ghosts_move_one_step (now : Z) (st : game) :
  wf_grid ROWS COLS (grid st) →
  ∃ st', pursuer_step ROWS COLS now st = Some st'
    ∧ Forall2 (ghost_hop ROWS COLS (grid st)) (ghost_positions st) (ghost_positions st')
    ∧ length (ghost_positions st') = length (ghost_positions st)
    ∧ grid st' = grid st ∧ pac_pos st' = pac_pos st
    ∧ last_ghost_move_time st' = now.
Proof.
  intros Hwf. destruct (pursuer_step_shape now st Hwf) as (gs & Hf & ->).
  eexists. split; [done|]. game_fields. split; [done|].
  split; [symmetry; by eapply Forall2_length|done].
Qed.

(** X18.  When Pac-Man moves, he either ends the run as Stuck without
    moving, or steps to a 4-adjacent cell that is in bounds, not a Wall and
    not occupied by a ghost at that moment. *)
Theorem pacman_moves_one_step (now : Z) (st st1 : game) (a : pos) :
  pac_pos st = Some a →
  seeker_step ROWS COLS now st = Some st1 →
  (pac_pos st1 = Some a ∧ reason st1 = Some Stuck ∧ game_over st1 = true)
  ∨ (∃ p, pac_pos st1 = Some p ∧ adjacent a p
          ∧ walkable ROWS COLS (grid st) p ∧ p ∉ ghost_positions st).
Proof.
  intros Ha Hs. apply seeker_step_cases in Hs as
    [(a' & p & rest & Hans & Hp & _)|(_ & Hp & _ & _ & Hr & Hg & _)].
  - right. exists p. split; [done|]. destruct (goal st) as [t|] eqn:Ht.
    + rewrite Ha in Hans. pose proof (astar_answer (grid st) a t
        (Some (list_to_set (ghost_positions st)))) as H.
      rewrite Hans in H. destruct H as ((Hh & _ & Htr) & _). injection Hh as ->.
      inversion Htr as [|? ? ? Hadj [Hw Hb] _]; subst. split; [done|]. split; [done|].
      intros Hin. apply Hb. cbn. by apply elem_of_list_to_set.
    + rewrite Ha in Hans. done.
  - left. by rewrite Hp, Ha.
Qed.

Lemma hop_tidy (g : list (list Z)) (gs gs' : list pos) :
  Forall2 (ghost_hop ROWS COLS g) gs gs' →
  (∀ p, p ∈ gs → walkable ROWS COLS g p) →
  ∀ p, p ∈ gs' → walkable ROWS COLS g p.
Proof.
  intros Hf Hgs p Hp. apply list_elem_of_lookup in Hp as [i Hi].
  destruct (Forall2_lookup_r _ _ _ _ _ Hf Hi) as (x & Hx & [->|[_ Hw]]); [|done].
  by eapply Hgs, list_elem_of_lookup_2.
Qed.

Lemma collision_check_board (ticks : Z) (st : game) :
  grid (collision_check ticks st) = grid st
  ∧ start (collision_check ticks st) = start st
  ∧ goal (collision_check ticks st) = goal st
  ∧ ghost_positions (collision_check ticks st) = ghost_positions st
  ∧ start_time (collision_check ticks st) = start_time st
  ∧ last_pac_move_time (collision_check ticks st) = last_pac_move_time st
  ∧ last_ghost_move_time (collision_check ticks st) = last_ghost_move_time st.
Proof. unfold collision_check. by destruct (caught st). Qed.

(** The game logic of one frame on a grid of the configured size. *)
Lemma game_logic_board (now ticks : Z) (st : game) :
  wf_grid ROWS COLS (grid st) →
  ∃ st', game_logic ROWS COLS now ticks st = Some st'
    ∧ grid st' = grid st ∧ start st' = start st ∧ goal st' = goal st
    ∧ start_time st' = start_time st
    ∧ Forall2 (ghost_hop ROWS COLS (grid st)) (ghost_positions st) (ghost_positions st').
Proof.
  intros Hwf. unfold game_logic.
  destruct (playing st && negb (game_over st) && bool_decide (is_Some (pac_pos st))).
  2:{ exists st. repeat (split; [done|]). apply Forall2_hop_refl. }
  assert (∃ st1, (if seeker_due now st then seeker_step ROWS COLS now st else Some st)
                 = Some st1
            ∧ grid st1 = grid st ∧ start st1 = start st ∧ goal st1 = goal st
            ∧ start_time st1 = start_time st
            ∧ ghost_positions st1 = ghost_positions st)
    as (st1 & -> & G1 & S1 & T1 & B1 & P1).
  { destruct (seeker_due now st); [|by exists st].
    destruct (seeker_step_total now st Hwf) as [st1 H1]. exists st1. split; [done|].
    apply seeker_step_shape in H1. naive_solver. }
  cbn [mbind option_bind].
  assert (∃ st2, (if pursuer_due now st1 then pursuer_step ROWS COLS now st1 else Some st1)
                 = Some st2
            ∧ grid st2 = grid st ∧ start st2 = start st ∧ goal st2 = goal st
            ∧ start_time st2 = start_time st
            ∧ Forall2 (ghost_hop ROWS COLS (grid st)) (ghost_positions st)
                (ghost_positions st2))
    as (st2 & -> & G2 & S2 & T2 & B2 & P2).
  { destruct (pursuer_due now st1).
    - destruct (pursuer_step_shape now st1) as (gs & Hf & ->); [by rewrite G1|].
      eexists. split; [done|]. game_fields. rewrite G1, P1 in Hf. done.
    - exists st1. repeat (split; [done|]). rewrite P1. apply Forall2_hop_refl. }
  cbn [mbind option_bind]. eexists. split; [done|].
  destruct (collision_check_board ticks st2) as (-> & -> & -> & -> & -> & _). done.
Qed.

(** X19.  The game logic never touches the board: over any number of
    frames of it, on a grid of the configured size, it runs to its end
    without raising, leaves the grid, the start and the goal as they are,
    keeps the number of ghosts, and keeps every ghost on a cell that is not
    a Wall if the ghosts stood on such cells before. *)
Theorem play_keeps_board (clock : list (Z * Z)) (st : game) :
  wf_grid ROWS COLS (grid st) →
  ∃ st', play ROWS COLS clock st = Some st'
    ∧ grid st' = grid st ∧ start st' = start st ∧ goal st' = goal st
    ∧ length (ghost_positions st') = length (ghost_positions st)
    ∧ (tidy ROWS COLS st → tidy ROWS COLS st').
Proof.
  intros Hwf.
  destruct (foldl_bind_total (λ t, game_logic ROWS COLS t.1 t.2)
              (λ x, grid x = grid st ∧ start x = start st ∧ goal x = goal st
                    ∧ length (ghost_positions x) = length (ghost_positions st)
                    ∧ (tidy ROWS COLS st → tidy ROWS COLS x)) clock)
    with (a := st) as (st' & H & Hst'); [|done|by exists st'].
  intros t x (Hg & Hs & Hgl & Hlen & Ht).
  destruct (game_logic_board t.1 t.2 x) as (x' & -> & Hg' & Hs' & Hgl' & _ & Hf);
    [by rewrite Hg|].
  exists x'. split; [done|]. rewrite Hg', Hs', Hgl', Hg, Hs, Hgl.
  repeat (split; [done|]). split.
  - rewrite <- Hlen. symmetry. by eapply Forall2_length.
  - intros Hti. destruct (Ht Hti) as [_ Hgh]. split; [by rewrite Hg', Hg|].
    rewrite Hg'. by eapply hop_tidy.
Qed.

(** X20.  Moves are paced by the two intervals: in one frame Pac-Man's
    cell changes only if at least PAC_MOVE_INTERVAL ms have passed since
    his last move, and the ghosts' cells only if at least
    GHOST_MOVE_INTERVAL ms have passed since theirs; the time of the move
    is then recorded as the new last move time. *)
Theorem moves_are_paced (now ticks : Z) (st st' : game) :
  game_logic ROWS COLS now ticks st = Some st' →
  (pac_pos st' ≠ pac_pos st →
     PAC_MOVE_INTERVAL ≤ now - last_pac_move_time st ∧ last_pac_move_time st' = now)
  ∧ (ghost_positions st' ≠ ghost_positions st →
       GHOST_MOVE_INTERVAL ≤ now - last_ghost_move_time st
       ∧ last_ghost_move_time st' = now).
Proof.
  intros H.
  destruct (decide (running st)) as [Hr|Hr];
    [|rewrite game_logic_idle in H by done; injection H as <-; by split].
  apply game_logic_steps in H as (st1 & st2 & H1 & H2 & ->); [|done].
  destruct (collision_check_board ticks st2) as (_ & _ & _ & -> & _ & -> & ->).
  destruct (collision_check_cases ticks st2) as (-> & _).
  assert (Hp2 : pac_pos st2 = pac_pos st1 ∧ last_pac_move_time st2 = last_pac_move_time st1
                ∧ (ghost_positions st2 ≠ ghost_positions st1 →
                   GHOST_MOVE_INTERVAL ≤ now - last_ghost_move_time st1
                   ∧ last_ghost_move_time st2 = now)).
  { unfold pursuer_due in H2.
    destruct (ghost_positions st1) as [|g0 gs] eqn:Hgs;
      [injection H2 as <-; by rewrite Hgs|].
    destruct (pac_pos st1) as [pp|] eqn:Hpp; [|injection H2 as <-; by rewrite Hgs].
    case_bool_decide as Hdue; [|injection H2 as <-; by rewrite Hgs].
    unfold pursuer_step in H2. destruct (mapM _ _) as [gs'|]; [|done].
    injection H2 as <-. by game_fields. }
  destruct Hp2 as (-> & -> & Hg2).
  assert (Hp1 : (pac_pos st1 ≠ pac_pos st →
                 PAC_MOVE_INTERVAL ≤ now - last_pac_move_time st
                 ∧ last_pac_move_time st1 = now)
                ∧ ghost_positions st1 = ghost_positions st
                ∧ last_ghost_move_time st1 = last_ghost_move_time st).
  { unfold seeker_due in H1. case_bool_decide as Hdue; [|by injection H1 as <-].
    apply seeker_step_shape in H1. naive_solver. }
  destruct Hp1 as (Hp1 & Hg1 & Hl1). split; [done|].
  rewrite <- Hg1, <- Hl1. done.
Qed.

(** *** The modes of the main loop *)

Lemma coherent_terminal (r : reason_t) (t : Z) (st : game) :
  is_Some (pac_pos st) → coherent (terminal r t st).
Proof. intros Hp. unfold coherent. game_fields. by repeat split; eauto. Qed.

Lemma coherent_seeker (now : Z) (st st1 : game) :
  coherent st → running st →
  seeker_step ROWS COLS now st = Some st1 →
  coherent st1 ∧ is_Some (pac_pos st1).
Proof.
  intros (C1 & C2 & C3 & C4) (Hpl0 & Hgo0 & Hp) H.
  apply seeker_step_shape in H as (_ & Hs & Hg & _ & Hst & _ & _ & Hpp & Hcase).
  split; [|by apply Hpp]. specialize (Hpp Hp). unfold coherent.
  destruct Hcase as [(Ho & Hpl & Hr & Hf & He)|(Ho & Hpl & Hr & Hf & He)].
  - rewrite Ho, Hpl. repeat split; try done.
  - rewrite Ho, Hpl, Hr, Hf, He, Hs, Hg, Hst, Hpl0, Hgo0.
    destruct (C1 Hpl0) as (_ & _ & ? & ? & ?). destruct (C3 Hgo0) as (? & ? & ?).
    split; [done|]. split; [done|]. split; done.
Qed.

Lemma coherent_game_logic (now ticks : Z) (st st' : game) :
  coherent st → game_logic ROWS COLS now ticks st = Some st' → coherent st'.
Proof.
  intros Hc H.
  destruct (decide (running st)) as [Hr|Hr];
    [|rewrite game_logic_idle in H by done; by injection H as <-].
  pose proof Hr as (_ & _ & Hpac).
  apply game_logic_steps in H as (st1 & st2 & H1 & H2 & ->); [|done].
  assert (coherent st1 ∧ is_Some (pac_pos st1)) as [Hc1 Hp1].
  { destruct (seeker_due now st); [by eapply coherent_seeker|by injection H1 as <-]. }
  assert (coherent st2 ∧ is_Some (pac_pos st2)) as [Hc2 Hp2].
  { destruct (pursuer_due now st1); [|by injection H2 as <-].
    unfold pursuer_step in H2. destruct (mapM _ _) as [gs|]; [|done].
    injection H2 as <-. by game_fields. }
  unfold collision_check. destruct (caught st2); [by apply coherent_terminal|done].
Qed.

Lemma coherent_keydown (level1 : option string) (ticks : Z) (k : key) (st st' : game) :
  coherent st → keydown ROWS COLS level1 ticks k st = Some st' → coherent st'.
Proof.
  intros Hc. unfold keydown. destruct k.
  - destruct (spawn_corners _ _ _ _ _) as [gs|]; [|done]. by intros [= <-].
  - destruct (spawn_corners _ _ _ _ _) as [gs|]; [|done]. by intros [= <-].
  - destruct (bool_decide (is_Some (start st))) eqn:Hs; [|by intros [= <-]].
    destruct (bool_decide (is_Some (goal st))) eqn:Hg; [|by intros [= <-]].
    destruct (playing st); intros [= <-]; [done|].
    apply bool_decide_eq_true in Hs, Hg. unfold coherent. game_fields.
    by repeat split; eauto.
  - by intros [= <-].
  - by intros [= <-].
Qed.

Lemma coherent_mouse_edit (m : mouse) (st st' : game) :
  coherent st → mouse_edit ROWS COLS m st = Some st' → coherent st'.
Proof.
  intros Hc. unfold mouse_edit.
  destruct (playing st) eqn:Hp; [by intros [= <-]|].
  destruct (game_over st) eqn:Hg; [by intros [= <-]|]. cbn [negb andb].
  assert (Hwb : ∀ g s gl rw gh, coherent (with_board st g s gl rw gh)).
  { intros g s gl rw gh. destruct Hc as (C1 & C2 & C3 & C4).
    destruct (C3 Hg) as (? & ? & ?). specialize (C4 Hp Hg).
    unfold coherent. game_fields. rewrite Hp, Hg. by repeat split. }
  assert (Hl : ∀ sh gk cell, coherent (left_click sh gk cell st)).
  { intros sh gk cell. unfold left_click.
    repeat first [done | apply Hwb
                 | match goal with
                   | |- coherent (if ?b then _ else _) => destruct b
                   | |- coherent (match ?o with Some _ => _ | None => _ end) => destruct o
                   end]. }
  destruct (left_pressed m).
  - destruct (get_cell_from_mouse _ _ _) as [[cell|]|]; cbn [mbind option_bind];
      intros [= <-]; [apply Hl|done].
  - destruct (right_pressed m); [|by intros [= <-]].
    destruct (get_cell_from_mouse _ _ _) as [[cell|]|]; cbn [mbind option_bind];
      intros [= <-]; [apply Hwb|done].
Qed.

Lemma coherent_initial (st : game) : initial ROWS COLS = Some st → coherent st.
Proof.
  unfold initial. destruct (spawn_corners _ _ _ _ _) as [gs|]; [|done].
  by intros [= <-].
Qed.

Lemma coherent_frame (level1 : option string) (events : list (key * Z))
  (m : mouse) (now ticks : Z) (st st' : game) :
  coherent st → frame ROWS COLS level1 events m now ticks st = Some st' → coherent st'.
Proof.
  intros Hc. unfold frame.
  destruct (foldl _ _ _) as [st1|] eqn:Hk; [|done]. cbn [mbind option_bind].
  apply (foldl_bind_inv (λ ev, keydown ROWS COLS level1 ev.2 ev.1) coherent) in Hk;
    [|intros ev a a'; apply coherent_keydown|done].
  destruct (mouse_edit ROWS COLS m st1) as [st2|] eqn:Hm; [|done]. cbn [mbind option_bind].
  intros H. eapply coherent_game_logic; [|exact H]. by eapply coherent_mouse_edit.
Qed.

(** X21.  The main loop is always in one of three modes.  From the state
    before the first frame, and from any state that satisfies it, any
    number of frames (key events, mouse editing, game logic) keeps this
    true: [playing] and [game_over] are never set together; while playing,
    Pac-Man, the start, the goal and the start time are defined; when the
    game is over, a reason, an end time and the final score are recorded
    and the final score is the score; otherwise none of them is set and,
    unless a run is on, Pac-Man is not on the board. *)
Theorem run_keeps_modes (inputs : list input) (st st' : game) :
  (initial ROWS COLS = Some st ∨ coherent st) →
  run ROWS COLS inputs st = Some st' →
  coherent st'.
Proof.
  intros Hstart. unfold run.
  apply (foldl_bind_inv (λ i, frame ROWS COLS (in_level i) (in_events i) (in_mouse i)
                               (in_now i) (in_ticks i)) coherent).
  - intros i a a'. apply coherent_frame.
  - destruct Hstart as [Hi|?]; [by apply coherent_initial|done].
Qed.

(** ** Levels and keys *)

Lemma file_lines_blank (s : list ascii) :
  ∀ cur, forallb is_space cur = true → forallb is_space s = true →
  Forall (λ line, forallb is_space line = true) (file_lines cur s).
Proof.
  assert (Hrev : ∀ l, forallb is_space l = true → forallb is_space (reverse l) = true).
  { intros l Hl. apply forallb_forall. intros x Hx%list_elem_of_In.
    rewrite elem_of_reverse in Hx.
    rewrite forallb_forall in Hl. by apply Hl, list_elem_of_In. }
  induction s as [|ch s IH]; intros cur Hcur Hs; cbn [file_lines].
  - destruct cur; [constructor|]. constructor; [by apply Hrev|constructor].
  - cbn [forallb] in Hs. apply andb_true_iff in Hs as [Hch Hs].
    assert (Hcc : forallb is_space (ch :: cur) = true) by (cbn [forallb]; by rewrite Hch).
    destruct (Ascii.eqb ch newline).
    + constructor; [by apply Hrev|]. by apply IH.
    + by apply IH.
Qed.

Lemma universal_newlines_cons (ch : ascii) (s : list ascii) :
  universal_newlines (ch :: s)
  = if Ascii.eqb ch carriage_return then
      match s with
      | ch' :: s' =>
          if Ascii.eqb ch' newline then newline :: universal_newlines s'
          else newline :: universal_newlines s
      | [] => [newline]
      end
    else ch :: universal_newlines s.
Proof. reflexivity. Qed.

Lemma universal_newlines_blank (s : list ascii) :
  forallb is_space s = true → forallb is_space (universal_newlines s) = true.
Proof.
  assert (H : ∀ (n : nat) s, (length s ≤ n)%nat → forallb is_space s = true →
                forallb is_space (universal_newlines s) = true).
  { clear s. induction n as [|n IH]; intros [|ch s] Hn Hs; try done; [simpl in Hn; lia|].
    cbn [length] in Hn. cbn [forallb] in Hs. apply andb_true_iff in Hs as [Hch Hs].
    rewrite universal_newlines_cons. destruct (Ascii.eqb ch carriage_return).
    - destruct s as [|ch' s']; [done|].
      cbn [forallb] in Hs. pose proof Hs as Hs0. apply andb_true_iff in Hs as [Hch' Hs'].
      cbn [length] in Hn.
      destruct (Ascii.eqb ch' newline); cbn [forallb].
      + rewrite IH; [done|lia|done].
      + rewrite (IH (ch' :: s')); [done|simpl; lia|done].
    - cbn [forallb]. rewrite Hch, IH; [done|lia|done]. }
  apply (H (length s)). lia.
Qed.

(** X22.  A level file that holds nothing but white space (an empty file
    included) loads like a missing file: the board is empty, without
    start, goal, rewards or ghosts. *)
Theorem load_level_blank (content : string) :
  forallb is_space (list_ascii_of_string content) = true →
  load_level ROWS COLS (Some content) = load_level ROWS COLS None
  ∧ load_level ROWS COLS (Some content) = Level (make_grid ROWS COLS) None None ∅ [].
Proof.
  intros Hb. assert (Hl : level_lines content = []).
  { unfold level_lines.
    pose proof (file_lines_blank _ [] eq_refl (universal_newlines_blank _ Hb)) as Hf.
    induction Hf as [|line ls Hline _ IH]; [done|].
    rewrite filter_cons_False; [done|]. by rewrite Hline. }
  unfold load_level. by rewrite Hl.
Qed.

Lemma place_ghosts_NoDup (chars : pos → ascii → Prop) (p : pos) (ch : ascii)
  (lv : level) :
  loaded ROWS COLS chars lv → (∀ c, ¬ chars p c) →
  NoDup (lv_ghosts lv) → NoDup (lv_ghosts (place ROWS COLS p ch lv)).
Proof.
  intros Hl Hfresh Hnd. destruct (in_bounds ROWS COLS p) eqn:Hp.
  2:{ unfold place. by rewrite Hp. }
  rewrite (place_eq ROWS COLS) by done. cbn [lv_ghosts].
  destruct (Ascii.eqb ch "X"); [|done].
  apply NoDup_app. split; [done|]. split; [|apply NoDup_singleton].
  intros x Hx ->%list_elem_of_singleton.
  apply (loaded_ghosts _ _ _ _ Hl) in Hx. by eapply Hfresh.
Qed.

Lemma load_row_NoDup (gr : Z) (line : list ascii) :
  ∀ (chars : pos → ascii → Prop) (gc : Z) (lv : level),
  loaded ROWS COLS chars lv →
  (∀ q c, chars q c → q.1 = gr → q.2 < gc) →
  NoDup (lv_ghosts lv) → NoDup (lv_ghosts (load_row ROWS COLS gr gc line lv)).
Proof.
  induction line as [|ch0 line IH]; intros chars gc lv Hl Hfresh Hnd; cbn [load_row];
    [done|].
  assert (Hf0 : ∀ c, ¬ chars (gr, gc) c).
  { intros c H. specialize (Hfresh _ _ H eq_refl). simpl in Hfresh. lia. }
  apply (IH (λ q c, chars q c ∨ (q = (gr, gc) ∧ c = ch0
                      ∧ in_bounds ROWS COLS (gr, gc) = true)) (gc + 1)).
  - by apply place_loaded.
  - intros q c [H|(-> & _)] Hq; [specialize (Hfresh _ _ H Hq)|simpl]; lia.
  - by eapply place_ghosts_NoDup.
Qed.

Lemma load_rows_NoDup (gc : Z) (lines : list (list ascii)) :
  ∀ (chars : pos → ascii → Prop) (gr : Z) (lv : level),
  loaded ROWS COLS chars lv →
  (∀ q c, chars q c → q.1 < gr) →
  NoDup (lv_ghosts lv) → NoDup (lv_ghosts (load_rows ROWS COLS gr gc lines lv)).
Proof.
  induction lines as [|line lines IH]; intros chars gr lv Hl Hfresh Hnd;
    cbn [load_rows]; [done|].
  assert (Hfr : ∀ q c, chars q c → q.1 = gr → q.2 < gc).
  { intros q c H Hq. specialize (Hfresh _ _ H). lia. }
  destruct (load_row_loaded ROWS COLS chars gr line gc lv Hl Hfr) as [Hrow Hin].
  eapply IH; [exact Hrow| |by eapply load_row_NoDup].
  intros q c H. destruct (Hin _ _ H) as [H'| ->]; [specialize (Hfresh _ _ H')|]; lia.
Qed.

Lemma load_level_shape (file : option string) :
  (∃ chars, loaded ROWS COLS chars (load_level ROWS COLS file))
  ∧ NoDup (lv_ghosts (load_level ROWS COLS file)).
Proof.
  destruct file as [content|].
  2:{ split; [eexists; apply empty_level_loaded|constructor]. }
  split; [eexists; apply load_level_loaded|].
  unfold load_level. destruct (level_lines content) as [|l ls] eqn:Hl; [constructor|].
  eapply load_rows_NoDup; [apply empty_level_loaded|done|constructor].
Qed.

Lemma spawn_corners_fold (dedup : bool) (g : list (list Z)) (cs : list pos) :
  wf_grid ROWS COLS g →
  ∀ ghosts, ∃ gs',
    foldl (spawn_corner ROWS COLS dedup g) (Some ghosts) cs = Some gs'
    ∧ (∀ p, p ∈ gs' ↔ p ∈ ghosts ∨ (p ∈ cs ∧ walkable ROWS COLS g p))
    ∧ (dedup = true → NoDup ghosts → NoDup gs').
Proof.
  intros Hwf. induction cs as [|c cs IH]; intros ghosts; cbn [foldl].
  - exists ghosts. split; [done|]. split; [|done]. intros p. rewrite elem_of_nil. tauto.
  - assert (∃ gs1, spawn_corner ROWS COLS dedup g (Some ghosts) c = Some gs1
              ∧ (∀ p, p ∈ gs1 ↔ p ∈ ghosts ∨ (p = c ∧ walkable ROWS COLS g p))
              ∧ (dedup = true → NoDup ghosts → NoDup gs1)) as (gs1 & -> & Hin1 & Hnd1).
    { unfold spawn_corner. cbn [mbind option_bind].
      destruct (in_bounds ROWS COLS c) eqn:Hc.
      2:{ exists ghosts. split; [done|]. split; [|done]. intros p. split; [tauto|].
          intros [?|[-> [Hb _]]]; [done|congruence]. }
      destruct (grid_get_wf ROWS COLS g c Hwf Hc) as [v Hv]. rewrite Hv.
      cbn [mbind option_bind]. destruct (Z.eqb_spec v WALL) as [->|Hne].
      { exists ghosts. split; [done|]. split; [|done]. intros p. split; [tauto|].
        intros [?|[-> (_ & v' & Hv' & Hne)]]; [done|congruence]. }
      assert (Hw : walkable ROWS COLS g c) by (split; eauto).
      destruct (dedup && bool_decide (c ∈ ghosts)) eqn:Hd.
      - apply andb_true_iff in Hd as [_ Hd%bool_decide_eq_true].
        exists ghosts. split; [done|]. split; [|done]. intros p. split; [tauto|].
        intros [?|[-> _]]; done.
      - exists (ghosts ++ [c]). split; [done|]. split.
        + intros p. rewrite elem_of_app, list_elem_of_singleton. naive_solver.
        + intros -> Hnd. cbn [andb] in Hd. apply bool_decide_eq_false in Hd.
          apply NoDup_app. split; [done|]. split; [|apply NoDup_singleton].
          intros x Hx ->%list_elem_of_singleton. done. }
    destruct (IH gs1) as (gs' & -> & Hin & Hnd). exists gs'. split; [done|]. split.
    + intros p. rewrite Hin, Hin1, elem_of_cons. naive_solver.
    + auto.
Qed.

Lemma load_key_shape (level1 : option string) (ticks : Z) (st : game) :
  ∃ chars gs,
    loaded ROWS COLS chars (load_level ROWS COLS level1)
    ∧ (∀ p, p ∈ gs ↔ p ∈ lv_ghosts (load_level ROWS COLS level1)
                      ∨ (p ∈ corner_positions ROWS COLS
                         ∧ walkable ROWS COLS (lv_grid (load_level ROWS COLS level1)) p))
    ∧ NoDup gs
    ∧ keydown ROWS COLS level1 ticks K_l st
      = Some (Game (lv_grid (load_level ROWS COLS level1))
                (lv_start (load_level ROWS COLS level1))
                (lv_goal (load_level ROWS COLS level1))
                (lv_rewards (load_level ROWS COLS level1)) None gs
                false false None 0 None None None
                (last_pac_move_time st) (last_ghost_move_time st)).
Proof.
  destruct (load_level_shape level1) as [[chars Hl] Hnd].
  pose proof (loaded_wf _ _ _ _ Hl) as Hwf.
  destruct (spawn_corners_fold true _ (corner_positions ROWS COLS) Hwf
              (lv_ghosts (load_level ROWS COLS level1))) as (gs & Hgs & Hin & Hnd').
  exists chars, gs. split; [done|]. split; [done|]. split; [by apply Hnd'|].
  unfold keydown, spawn_corners. by rewrite Hgs.
Qed.

(** X23.  The L key always succeeds and leaves a board in order: the grid
    has the configured size; the ghosts (those of the level file and those
    added at the corners) are pairwise distinct and stand on cells of the
    grid that are not Wall; every corner that is not a Wall has a ghost;
    the start cell holds Start, the goal cell Goal and every reward cell
    Reward; and the run is reset. *)
Theorem load_key_board (level1 : option string) (ticks : Z) (st : game) :
  ∃ st', keydown ROWS COLS level1 ticks K_l st = Some st'
    ∧ tidy ROWS COLS st' ∧ NoDup (ghost_positions st')
    ∧ (∀ p, p ∈ corner_positions ROWS COLS → walkable ROWS COLS (grid st') p →
            p ∈ ghost_positions st')
    ∧ (∀ p, start st' = Some p → grid_get (grid st') p = Some START)
    ∧ (∀ p, goal st' = Some p → grid_get (grid st') p = Some GOAL)
    ∧ (∀ p, p ∈ reward_cells st' → grid_get (grid st') p = Some REWARD)
    ∧ playing st' = false ∧ game_over st' = false ∧ pac_pos st' = None
    ∧ score st' = 0.
Proof.
  destruct (load_key_shape level1 ticks st) as (chars & gs & Hl & Hin & Hnd & ->).
  eexists. split; [done|]. unfold tidy. game_fields.
  split; [split; [by apply (loaded_wf _ _ _ _ Hl)|]|].
  { intros p [Hp|[_ Hp]]%Hin; [|done].
    apply (loaded_ghosts _ _ _ _ Hl) in Hp.
    split; [by eapply (loaded_bounds _ _ _ _ Hl)|].
    exists EMPTY. split; [|done]. by apply (loaded_cell _ _ _ _ Hl _ _ Hp). }
  split; [done|]. split; [intros p Hp Hw; apply Hin; by right|].
  split; [intros p Hp%(loaded_start _ _ _ _ Hl); by apply (loaded_cell _ _ _ _ Hl _ _ Hp)|].
  split; [intros p Hp%(loaded_goal _ _ _ _ Hl); by apply (loaded_cell _ _ _ _ Hl _ _ Hp)|].
  split; [intros p Hp%(loaded_rewards _ _ _ _ Hl); by apply (loaded_cell _ _ _ _ Hl _ _ Hp)|].
  done.
Qed.

Lemma spawn_corner_empty (gs : list pos) (p : pos) :
  in_bounds ROWS COLS p = true →
  spawn_corner ROWS COLS false (make_grid ROWS COLS) (Some gs) p = Some (gs ++ [p]).
Proof.
  intros Hp. unfold spawn_corner. cbn [mbind option_bind].
  by rewrite Hp, make_grid_get.
Qed.

(** X24.  On a grid with at least one row and one column the game starts,
    and the C key restarts it, with an empty board, no start, no goal, no
    rewards, score 0 and one ghost in each of the four corners; the C key
    only keeps the two last move times. *)
Theorem clear_key_resets (level1 : option string) (ticks : Z) (st : game) :
  1 ≤ ROWS → 1 ≤ COLS →
  initial ROWS COLS
  = Some (Game (make_grid ROWS COLS) None None ∅ None (corner_positions ROWS COLS)
            false false None 0 None None None 0 0)
  ∧ keydown ROWS COLS level1 ticks K_c st
    = Some (Game (make_grid ROWS COLS) None None ∅ None (corner_positions ROWS COLS)
              false false None 0 None None None
              (last_pac_move_time st) (last_ghost_move_time st)).
Proof.
  intros HR HC.
  assert (Hs : spawn_corners ROWS COLS false (make_grid ROWS COLS) []
               = Some (corner_positions ROWS COLS)).
  { unfold spawn_corners, corner_positions. cbn [foldl].
    rewrite !spawn_corner_empty; [done|apply in_bounds_spec; cbn [fst snd]; lia..]. }
  unfold initial, keydown. by rewrite Hs.
Qed.

(** *** A whole frame *)

Lemma keydown_wf (level1 : option string) (ticks : Z) (k : key) (st : game) :
  wf_grid ROWS COLS (grid st) →
  ∃ st', keydown ROWS COLS level1 ticks k st = Some st' ∧ wf_grid ROWS COLS (grid st').
Proof.
  intros Hwf. destruct k.
  - destruct (spawn_corners_fold false _ (corner_positions ROWS COLS)
                (make_grid_wf ROWS COLS) []) as (gs & Hgs & _).
    unfold keydown, spawn_corners. rewrite Hgs. eexists. split; [done|]. apply make_grid_wf.
  - destruct (load_key_shape level1 ticks st) as (chars & gs & Hl & _ & _ & ->).
    eexists. split; [done|]. apply (loaded_wf _ _ _ _ Hl).
  - unfold keydown. destruct (_ && _); eauto.
  - unfold keydown. eauto.
  - unfold keydown. eauto.
Qed.

Lemma left_click_wf (shift gkey : bool) (cell : pos) (st : game) :
  wf_grid ROWS COLS (grid st) → wf_grid ROWS COLS (grid (left_click shift gkey cell st)).
Proof.
  intros Hwf. unfold left_click.
  repeat first [done | progress game_fields | by apply grid_set_wf
               | match goal with
                 | |- wf_grid _ _ (grid (if ?b then _ else _)) => destruct b
                 | |- wf_grid _ _ (grid (match ?o with Some _ => _ | None => _ end)) =>
                     destruct o
                 end].
Qed.

Lemma mouse_edit_wf (m : mouse) (st : game) :
  1 ≤ COLS ≤ WIDTH →
  wf_grid ROWS COLS (grid st) →
  ∃ st', mouse_edit ROWS COLS m st = Some st' ∧ wf_grid ROWS COLS (grid st').
Proof.
  intros HC Hwf. unfold mouse_edit.
  destruct (negb (playing st) && negb (game_over st)); [|by eauto].
  rewrite (get_cell_eq (mouse_pos m) HC). cbn [mbind option_bind].
  destruct (left_pressed m).
  - eexists. split; [done|].
    destruct (in_bounds ROWS COLS _); [by apply left_click_wf|done].
  - destruct (right_pressed m); [|by eauto].
    eexists. split; [done|]. destruct (in_bounds ROWS COLS _); [|done].
    unfold right_click. game_fields. by apply grid_set_wf.
Qed.

Lemma frame_total (level1 : option string) (events : list (key * Z))
  (m : mouse) (now ticks : Z) (st : game) :
  1 ≤ COLS ≤ WIDTH →
  wf_grid ROWS COLS (grid st) →
  ∃ st', frame ROWS COLS level1 events m now ticks st = Some st'
         ∧ wf_grid ROWS COLS (grid st').
Proof.
  intros HC Hwf. unfold frame.
  destruct (foldl_bind_total (λ ev, keydown ROWS COLS level1 ev.2 ev.1)
              (λ x, wf_grid ROWS COLS (grid x)) events) with (a := st)
    as (st1 & -> & Hwf1); [intros ev a; apply keydown_wf|done|].
  cbn [mbind option_bind].
  destruct (mouse_edit_wf m st1 HC Hwf1) as (st2 & -> & Hwf2). cbn [mbind option_bind].
  destruct (game_logic_board now ticks st2 Hwf2) as (st' & -> & Hg & _).
  exists st'. split; [done|]. by rewrite Hg.
Qed.

(** X25.  The main loop never raises and never hangs: with at most as many
    columns as the window is wide, [main] runs through any number of
    frames, whatever the keys, the mouse, the level file and the clock are
    in each, and so does the loop from any state whose grid has the
    configured size; the grid has that size again after every frame. *)
Theorem main_never_raises (inputs : list input) :
  1 ≤ COLS ≤ WIDTH →
  (∃ st', main ROWS COLS inputs = Some st' ∧ wf_grid ROWS COLS (grid st'))
  ∧ (∀ st, wf_grid ROWS COLS (grid st) →
       ∃ st', run ROWS COLS inputs st = Some st' ∧ wf_grid ROWS COLS (grid st')).
Proof.
  intros HC.
  assert (Hrun : ∀ st, wf_grid ROWS COLS (grid st) →
            ∃ st', run ROWS COLS inputs st = Some st' ∧ wf_grid ROWS COLS (grid st')).
  { intros st Hwf. unfold run. apply foldl_bind_total; [|done].
    intros i a Ha. by apply frame_total. }
  split; [|done]. unfold main, initial.
  destruct (spawn_corners_fold false _ (corner_positions ROWS COLS)
              (make_grid_wf ROWS COLS) []) as (gs & Hgs & _).
  unfold spawn_corners. rewrite Hgs. cbn [mbind option_bind].
  apply Hrun. apply make_grid_wf.
Qed.

(** ** The clock of the HUD *)

Lemma two_digits_small (n : Z) :
  0 ≤ n < 100 →
  two_digits n = String (digit_char (n `div` 10)) (String (digit_char (n `mod` 10)) "").
Proof.
  intros Hn.
  assert (H : forallb (λ k, String.eqb (two_digits k)
                 (String (digit_char (k `div` 10)) (String (digit_char (k `mod` 10)) "")))
                (seqZ 0 100) = true) by (vm_compute; reflexivity).
  rewrite forallb_forall in H. apply String.eqb_eq, H, list_elem_of_In, elem_of_seqZ. lia.
Qed.

(** X26.  The timer of the HUD shows the elapsed whole seconds as MM:SS.
    It reads 00:00 before the first run; during the first hundred minutes
    of a run it is made of the two decimal digits of the minutes, a colon
    and the two decimal digits of the seconds below 60, elapsed time being
    counted from the start time to the clock, or to the end time once the
    game is over, so that it then stands still. *)
Theorem hud_clock (ticks ticks' t0 t1 : Z) (over : bool) (end_time : option Z) :
  let elapsed := if over then default ticks end_time - t0 else ticks - t0 in
  let sec := elapsed `div` 1000 in
  0 ≤ elapsed < 6000000 →
  hud_time ticks (Some t0) end_time over
  = String (digit_char ((sec `div` 60) `div` 10))
      (String (digit_char ((sec `div` 60) `mod` 10))
         (String ":"
            (String (digit_char ((sec `mod` 60) `div` 10))
               (String (digit_char ((sec `mod` 60) `mod` 10)) ""))))
  ∧ hud_time ticks (Some t0) (Some t1) true = hud_time ticks' (Some t0) (Some t1) true
  ∧ hud_time ticks None end_time over = "00:00"%string.
Proof.
  intros elapsed sec He. split; [|done].
  assert (Hel : hud_time ticks (Some t0) end_time over
                = (two_digits (sec `div` 60) ++ ":" ++ two_digits (sec `mod` 60))%string).
  { unfold hud_time, sec, elapsed. by destruct over, end_time. }
  rewrite Hel.
  assert (0 ≤ sec < 6000).
  { unfold sec. split; [apply Z.div_pos; lia|apply Z.div_lt_upper_bound; lia]. }
  rewrite !two_digits_small; [done| |].
  - pose proof (Z.mod_pos_bound sec 60). lia.
  - split; [apply Z.div_pos; lia|apply Z.div_lt_upper_bound; lia].
Qed.

(** ** The marks on the grid *)

Lemma marked_set (st : game) (cell : pos) (v : Z) (s' gl : option pos)
  (rw' : gset pos) (gh : list pos) :
  wf_grid ROWS COLS (grid st) → in_bounds ROWS COLS cell = true →
  marked ROWS COLS st →
  (∀ p, s' = Some p → (p = cell ∧ v = START) ∨ (p ≠ cell ∧ start st = Some p)) →
  (∀ p, p ∈ rw' → (p = cell ∧ v = REWARD) ∨ (p ≠ cell ∧ p ∈ reward_cells st)) →
  marked ROWS COLS (with_board st (grid_set (grid st) cell v) s' gl rw' gh).
Proof.
  intros Hwf Hc [Hs Hr] Hs' Hr'. unfold marked. game_fields. split.
  - intros p [[-> ->]|[Hne Hp]]%Hs'.
    + split; [done|]. rewrite (grid_get_set ROWS COLS) by done. by rewrite decide_True.
    + destruct (Hs p Hp) as [Hb Hg]. split; [done|].
      rewrite (grid_get_set ROWS COLS) by done. by rewrite decide_False.
  - intros p [[-> ->]|[Hne Hp]]%Hr'.
    + split; [done|]. rewrite (grid_get_set ROWS COLS) by done. by rewrite decide_True.
    + destruct (Hr p Hp) as [Hb Hg]. split; [done|].
      rewrite (grid_get_set ROWS COLS) by done. by rewrite decide_False.
Qed.

Lemma marked_left_click (shift gkey : bool) (cell : pos) (st : game) :
  wf_grid ROWS COLS (grid st) → in_bounds ROWS COLS cell = true →
  marked ROWS COLS st → marked ROWS COLS (left_click shift gkey cell st).
Proof.
  intros Hwf Hc Hm. unfold left_click.
  destruct shift.
  { destruct (bool_decide (Some cell ≠ start st)) eqn:H1; [|done].
    destruct (bool_decide (Some cell ≠ goal st)); [|done]. cbn [andb].
    apply bool_decide_eq_true in H1. apply marked_set; [done..| |].
    - intros p Hp. right. split; [|done]. intros ->. done.
    - intros p Hp. destruct (decide (p = cell)) as [->|Hne]; [by left|right].
      split; [done|]. set_solver. }
  destruct gkey.
  { case_bool_decide; [done|]. destruct Hm as [Hs Hr]. by split. }
  destruct (start st) as [s0|] eqn:Hs0.
  2:{ apply marked_set; [done..| |].
      - intros p [= <-]. by left.
      - intros p Hp. right. set_solver. }
  destruct (bool_decide (goal st = None) && bool_decide (Some cell ≠ Some s0)) eqn:H1.
  { apply andb_true_iff in H1 as [_ H1%bool_decide_eq_true]. apply marked_set; [done..| |].
    - intros p Hp. right. split; [|by rewrite Hs0]. intros ->. done.
    - intros p Hp. right. set_solver. }
  destruct (bool_decide (Some cell ≠ Some s0)) eqn:H2; [|done].
  destruct (bool_decide (Some cell ≠ goal st)); [|done]. cbn [andb].
  apply bool_decide_eq_true in H2. apply marked_set; [done..| |].
  - intros p Hp. right. split; [|by rewrite Hs0]. intros ->. done.
  - intros p Hp. right. set_solver.
Qed.

Lemma marked_right_click (cell : pos) (st : game) :
  wf_grid ROWS COLS (grid st) → in_bounds ROWS COLS cell = true →
  marked ROWS COLS st → marked ROWS COLS (right_click cell st).
Proof.
  intros Hwf Hc Hm. unfold right_click. apply marked_set; [done..| |].
  - intros p Hp. right. case_bool_decide as H1; [done|]. split; [|done].
    intros ->. by rewrite Hp in H1.
  - intros p Hp. right. set_solver.
Qed.

Lemma marked_keydown (level1 : option string) (ticks : Z) (k : key) (st st' : game) :
  marked ROWS COLS st → keydown ROWS COLS level1 ticks k st = Some st' →
  marked ROWS COLS st'.
Proof.
  intros Hm. destruct k.
  - unfold keydown. destruct (spawn_corners _ _ _ _ _) as [gs|]; [|done].
    intros [= <-]. split; [done|]. game_fields. set_solver.
  - destruct (load_key_shape level1 ticks st) as (chars & gs & Hl & _ & _ & ->).
    intros [= <-]. split; game_fields.
    + intros p Hp%(loaded_start _ _ _ _ Hl).
      split; [by eapply (loaded_bounds _ _ _ _ Hl)|by apply (loaded_cell _ _ _ _ Hl _ _ Hp)].
    + intros p Hp%(loaded_rewards _ _ _ _ Hl).
      split; [by eapply (loaded_bounds _ _ _ _ Hl)|by apply (loaded_cell _ _ _ _ Hl _ _ Hp)].
  - unfold keydown. destruct (_ && _); intros [= <-]; [|done]. by destruct Hm.
  - unfold keydown. intros [= <-]. by destruct Hm.
  - unfold keydown. by intros [= <-].
Qed.

Lemma marked_frame (level1 : option string) (events : list (key * Z))
  (m : mouse) (now ticks : Z) (st st' : game) :
  wf_grid ROWS COLS (grid st) ∧ marked ROWS COLS st →
  frame ROWS COLS level1 events m now ticks st = Some st' →
  wf_grid ROWS COLS (grid st') ∧ marked ROWS COLS st'.
Proof.
  intros Hst. unfold frame.
  destruct (foldl _ _ _) as [st1|] eqn:Hk; [|done]. cbn [mbind option_bind].
  apply (foldl_bind_inv (λ ev, keydown ROWS COLS level1 ev.2 ev.1)
           (λ x, wf_grid ROWS COLS (grid x) ∧ marked ROWS COLS x)) in Hk; [|clear|done].
  2:{ intros ev a a' [Hwf Hm] H.
      destruct (keydown_wf level1 ev.2 ev.1 a Hwf) as (a0 & H0 & Hwf0).
      rewrite H in H0. injection H0 as <-. split; [done|]. by eapply marked_keydown. }
  destruct Hk as [Hwf1 Hm1].
  destruct (mouse_edit ROWS COLS m st1) as [st2|] eqn:He; [|done]. cbn [mbind option_bind].
  assert (wf_grid ROWS COLS (grid st2) ∧ marked ROWS COLS st2) as [Hwf2 Hm2].
  { unfold mouse_edit in He.
    destruct (negb (playing st1) && negb (game_over st1)); [|by injection He as <-].
    destruct (left_pressed m).
    - destruct (get_cell_from_mouse ROWS COLS (mouse_pos m)) as [[cell|]|] eqn:Hcell;
        cbn [mbind option_bind] in He; [| |done]; injection He as <-; [|done].
      apply get_cell_in_bounds in Hcell.
      split; [by apply left_click_wf|by apply marked_left_click].
    - destruct (right_pressed m); [|by injection He as <-].
      destruct (get_cell_from_mouse ROWS COLS (mouse_pos m)) as [[cell|]|] eqn:Hcell;
        cbn [mbind option_bind] in He; [| |done]; injection He as <-; [|done].
      apply get_cell_in_bounds in Hcell.
      split; [|by apply marked_right_click].
      unfold right_click. game_fields. by apply grid_set_wf. }
  intros H. destruct (game_logic_board now ticks st2 Hwf2) as (st3 & H3 & Hg & Hs & _).
  rewrite H in H3. injection H3 as <-. split; [by rewrite Hg|].
  destruct Hm2 as [Ms Mr]. split; rewrite Hg.
  - rewrite Hs. done.
  - intros p Hp. apply Mr.
    apply game_logic_rewards in H as [[Hr _]|(c & _ & _ & Hr & _)];
      rewrite Hr in Hp; set_solver.
Qed.

(** X27.  The marks on the grid follow the editor.  From the state before
    the first frame, and from any state with a grid of the configured size
    where it holds, any number of frames keeps it true that the start cell
    holds Start and every reward cell holds Reward, inside the grid:
    Pac-Man never starts on a Wall, no reward lies on a Wall or on the
    start, and clearing a cell or painting over it takes its reward
    away. *)
Theorem run_keeps_marks (inputs : list input) (st st' : game) :
  (initial ROWS COLS = Some st
   ∨ (wf_grid ROWS COLS (grid st) ∧ marked ROWS COLS st)) →
  run ROWS COLS inputs st = Some st' →
  wf_grid ROWS COLS (grid st') ∧ marked ROWS COLS st'.
Proof.
  intros Hstart. unfold run.
  apply (foldl_bind_inv (λ i, frame ROWS COLS (in_level i) (in_events i) (in_mouse i)
                               (in_now i) (in_ticks i))
           (λ x, wf_grid ROWS COLS (grid x) ∧ marked ROWS COLS x)).
  - intros i a a'. apply marked_frame.
  - destruct Hstart as [Hi|?]; [|done]. unfold initial in Hi.
    destruct (spawn_corners _ _ _ _ _) as [gs|]; [|done]. injection Hi as <-.
    split; [apply make_grid_wf|]. split; [done|]. game_fields. set_solver.
Qed.

(** ** How a run ends *)

(** X28.  "No path to goal" is shown exactly when there is none: when
    Pac-Man, not yet on the goal, is due to move on a grid of the
    configured size, the move succeeds, and it ends the run as Stuck if
    and only if no sequence of adjacent cells leads from him to the goal
    over cells that are in bounds, not Wall and not occupied by a ghost. *)
Theorem stuck_iff_no_route (now : Z) (st : game) (a t : pos) :
  wf_grid ROWS COLS (grid st) →
  pac_pos st = Some a → goal st = Some t → a ≠ t → reason st = None →
  ∃ st1, seeker_step ROWS COLS now st = Some st1
    ∧ (reason st1 = Some Stuck
       ↔ ¬ ∃ p, route (free ROWS COLS (grid st) (list_to_set (ghost_positions st)))
                  a p t).
Proof.
  intros Hwf Ha Ht Hne Hr0.
  destruct (seeker_step_total now st Hwf) as [st1 H1]. exists st1. split; [done|].
  pose proof (astar_answer (grid st) a t (Some (list_to_set (ghost_positions st)))) as Hans.
  cbn [default] in Hans.
  apply seeker_step_cases in H1 as
    [(a' & p & rest & Hret & _ & _ & _ & Hwin & Hgo)
    |([Hret|(path & Hret & Hlen)] & _ & _ & _ & Hr & _)];
    rewrite Ha, Ht in Hret; rewrite Hret in Hans.
  - destruct Hans as [Hroute _]. split.
    + intros Hs. destruct (decide (Some p = goal st)) as [Hg|Hg].
      * destruct (Hwin Hg) as (Hw & _). congruence.
      * destruct (Hgo Hg) as (Hw & _). congruence.
    + intros Hno. destruct Hno. by eexists.
  - split; [|done]. intros _ [p Hp]. by apply (Hans p).
  - destruct Hans as [(Hh & Hl & _) _]. destruct path as [|x [|y path]]; try done.
    + injection Hh as ->. injection Hl as ->. done.
    + simpl in Hlen. lia.
Qed.

Lemma seeker_outcome (now : Z) (st st1 : game) :
  coherent st → running st →
  (if seeker_due now st then seeker_step ROWS COLS now st else Some st) = Some st1 →
  goal st1 = goal st ∧ is_Some (pac_pos st1)
  ∧ ((reason st1 = None ∧ game_over st1 = false ∧ playing st1 = true)
     ∨ (reason st1 = Some Win ∧ pac_pos st1 = goal st ∧ game_over st1 = true)
     ∨ (reason st1 = Some Stuck ∧ pac_pos st1 = pac_pos st ∧ game_over st1 = true)).
Proof.
  intros (_ & _ & C3 & _) (Hpl & Hgo & Hp) H.
  destruct (C3 Hgo) as (Hr0 & _).
  destruct (seeker_due now st);
    [|injection H as <-; split; [done|]; split; [done|]; by left].
  pose proof (seeker_step_shape _ _ _ H) as (_ & _ & Hg & _ & _ & _ & _ & Hpp & _).
  split; [done|]. split; [by apply Hpp|].
  apply seeker_step_cases in H as
    [(a' & p & rest & _ & Hpac & _ & _ & Hwin & Hmove)|(_ & Hpac & _ & _ & Hr & Hov & _)].
  - destruct (decide (Some p = goal st)) as [Hpg|Hpg].
    + destruct (Hwin Hpg) as (Hw & Ho & _). right. left. by rewrite Hpac.
    + destruct (Hmove Hpg) as (Hw & Ho & Hq). left. by rewrite Hw, Ho, Hq.
  - right. right. done.
Qed.

(** X29.  The reason a run ends with is the true one.  After the game
    logic of a frame in a running state: the reason is Ghost exactly when
    a ghost stands on Pac-Man's cell; Win is only recorded with Pac-Man on
    the goal and no ghost on him; Stuck only with Pac-Man where he was and
    no ghost on him; and while the game goes on no ghost shares Pac-Man's
    cell. *)
Theorem end_reasons_sound (now ticks : Z) (st st' : game) :
  coherent st → running st →
  game_logic ROWS COLS now ticks st = Some st' →
  (reason st' = Some Ghost ↔ caught st' = true)
  ∧ (reason st' = Some Win → pac_pos st' = goal st' ∧ caught st' = false)
  ∧ (reason st' = Some Stuck → pac_pos st' = pac_pos st ∧ caught st' = false)
  ∧ (game_over st' = false →
       reason st' = None ∧ playing st' = true ∧ caught st' = false).
Proof.
  intros Hc Hrun H.
  apply game_logic_steps in H as (st1 & st2 & H1 & H2 & ->); [|done].
  destruct (seeker_outcome now st st1 Hc Hrun H1) as (Hg1 & Hp1 & Hcase).
  assert (goal st2 = goal st1 ∧ pac_pos st2 = pac_pos st1 ∧ reason st2 = reason st1
          ∧ game_over st2 = game_over st1 ∧ playing st2 = playing st1)
    as (Hg2 & Hp2 & Hr2 & Ho2 & Hpl2).
  { destruct (pursuer_due now st1); [|by injection H2 as <-].
    unfold pursuer_step in H2. destruct (mapM _ _) as [gs|]; [|done].
    by injection H2 as <-. }
  unfold collision_check. destruct (caught st2) eqn:Hcaught.
  - assert (Hct : caught (terminal Ghost ticks st2) = true) by done.
    rewrite Hct. game_fields. by repeat split.
  - rewrite Hcaught, Hr2, Ho2, Hpl2, Hp2, Hg2, Hg1.
    destruct Hcase as [(-> & -> & ->)|[(-> & -> & ->)|(-> & -> & ->)]];
      by repeat split.
Qed.

(** ** Several starts or goals in a level *)

Section LastMark.

Variable sel : level → option pos.
Variable ch0 : ascii.
Hypothesis sel_place : ∀ p ch lv,
  in_bounds ROWS COLS p = true →
  sel (place ROWS COLS p ch lv) = if Ascii.eqb ch ch0 then Some p else sel lv.

Lemma place_marks_last (chars : pos → ascii → Prop) (p : pos) (ch : ascii)
  (lv : level) :
  (∀ q c, chars q c → q.1 < p.1 ∨ (q.1 = p.1 ∧ q.2 < p.2)) →
  marks_last chars ch0 (sel lv) →
  marks_last (λ q c, chars q c ∨ (q = p ∧ c = ch ∧ in_bounds ROWS COLS p = true))
    ch0 (sel (place ROWS COLS p ch lv)).
Proof.
  intros Hfresh Hm q [Hq|(-> & -> & Hin)].
  - destruct (in_bounds ROWS COLS p) eqn:Hp.
    + rewrite sel_place by done. destruct (Ascii.eqb ch ch0); [|by apply Hm].
      exists p. split; [done|]. specialize (Hfresh _ _ Hq). lia.
    + unfold place. rewrite Hp. by apply Hm.
  - rewrite sel_place by done. rewrite Ascii.eqb_refl. exists p. split; [done|]. lia.
Qed.

Lemma load_row_marks_last (gr : Z) (line : list ascii) :
  ∀ (chars : pos → ascii → Prop) (gc : Z) (lv : level),
  (∀ q c, chars q c → q.1 < gr ∨ (q.1 = gr ∧ q.2 < gc)) →
  marks_last chars ch0 (sel lv) →
  marks_last (λ q c, chars q c ∨ row_chars ROWS COLS gr gc line q c) ch0
    (sel (load_row ROWS COLS gr gc line lv)).
Proof.
  induction line as [|ch1 line IH]; intros chars gc lv Hfresh Hm; cbn [load_row].
  - intros q [Hq|(c & Hc & _)]; [by apply Hm|done].
  - intros q Hq. apply (IH (λ q c, chars q c ∨ (q = (gr, gc) ∧ c = ch1
                                ∧ in_bounds ROWS COLS (gr, gc) = true)) (gc + 1)).
    + intros q' c [H|(-> & _)]; [specialize (Hfresh _ _ H)|]; simpl; lia.
    + by apply place_marks_last.
    + rewrite row_chars_cons in Hq. tauto.
Qed.

Lemma load_rows_marks_last (gc : Z) (lines : list (list ascii)) :
  ∀ (chars : pos → ascii → Prop) (gr : Z) (lv : level),
  (∀ q c, chars q c → q.1 < gr) →
  marks_last chars ch0 (sel lv) →
  marks_last (λ q c, chars q c ∨ rows_chars ROWS COLS gr gc lines q c) ch0
    (sel (load_rows ROWS COLS gr gc lines lv)).
Proof.
  induction lines as [|line lines IH]; intros chars gr lv Hfresh Hm; cbn [load_rows].
  - intros q [Hq|(r & l & Hl & _)]; [by apply Hm|done].
  - intros q Hq.
    apply (IH (λ q c, chars q c ∨ row_chars ROWS COLS gr gc line q c) (gr + 1)).
    + intros q' c [H|(c' & _ & -> & _)]; [specialize (Hfresh _ _ H)|]; simpl; lia.
    + apply load_row_marks_last; [|done].
      intros q' c H. specialize (Hfresh _ _ H). lia.
    + rewrite rows_chars_cons in Hq. tauto.
Qed.

Lemma load_level_marks_last (content : string) (r c : nat) :
  region_char (level_lines content) r c ch0 →
  in_bounds ROWS COLS (dest ROWS COLS (level_lines content) r c) = true →
  ∃ q, sel (load_level ROWS COLS (Some content)) = Some q
       ∧ ((dest ROWS COLS (level_lines content) r c).1 < q.1
          ∨ ((dest ROWS COLS (level_lines content) r c).1 = q.1
             ∧ (dest ROWS COLS (level_lines content) r c).2 ≤ q.2)).
Proof.
  intros Hrc Hin. unfold load_level.
  destruct (level_lines content) as [|l ls] eqn:Hl.
  { destruct Hrc as (line & Hline & _). by destruct r. }
  rewrite <- Hl in *. set (lines := level_lines content) in *.
  apply (load_rows_marks_last (col_offset COLS lines) lines (λ _ _, False)
           (row_offset ROWS lines) (empty_level ROWS COLS)); [done|by intros ? []|].
  right. destruct Hrc as (line & Hline & Hc). exists r, line. split; [done|].
  exists c. split; [done|]. split; [|done].
  unfold dest, row_offset, col_offset. f_equal; lia.
Qed.

End LastMark.

(** X30.  Of several S in a level file the last one counts: the start is
    the cell of the last S in reading order that falls inside the grid,
    and likewise the goal is that of the last G; the cells of the earlier
    ones keep their Start or Goal mark on the grid all the same. *)
Theorem load_level_last_mark (content : string) (r c : nat) (ch : ascii) :
  let lines := level_lines content in
  let lv := load_level ROWS COLS (Some content) in
  region_char lines r c ch →
  in_bounds ROWS COLS (dest ROWS COLS lines r c) = true →
  (∀ r' c', region_char lines r' c' ch →
     in_bounds ROWS COLS (dest ROWS COLS lines r' c') = true →
     (r' < r ∨ (r' = r ∧ c' ≤ c))%nat) →
  (ch = "S"%char → lv_start lv = Some (dest ROWS COLS lines r c))
  ∧ (ch = "G"%char → lv_goal lv = Some (dest ROWS COLS lines r c))
  ∧ (∀ r' c', region_char lines r' c' ch →
       in_bounds ROWS COLS (dest ROWS COLS lines r' c') = true →
       grid_get (lv_grid lv) (dest ROWS COLS lines r' c') = Some (kind_of_char ch)).
Proof.
  intros lines lv Hrc Hin Hlast.
  pose proof (load_level_loaded ROWS COLS content) as Hl. fold lines lv in Hl.
  assert (Hmax : ∀ q, (∃ r' c', region_char lines r' c' ch
                         ∧ q = dest ROWS COLS lines r' c'
                         ∧ in_bounds ROWS COLS q = true) →
                 (dest ROWS COLS lines r c).1 < q.1
                 ∨ ((dest ROWS COLS lines r c).1 = q.1
                    ∧ (dest ROWS COLS lines r c).2 ≤ q.2) →
                 q = dest ROWS COLS lines r c).
  { intros q (r' & c' & Hrc' & -> & Hin') Hle.
    specialize (Hlast r' c' Hrc' Hin'). unfold dest in *. cbn [fst snd] in *.
    f_equal; lia. }
  split; [|split].
  - intros ->.
    destruct (load_level_marks_last lv_start "S") with (content := content) (r := r) (c := c)
      as (q & Hq & Hle); [|done..|].
    { intros p ch lv0 Hp. rewrite (place_eq ROWS COLS) by done. done. }
    fold lv lines in Hq, Hle. rewrite Hq. f_equal. apply Hmax; [|done].
    by apply (loaded_start _ _ _ _ Hl).
  - intros ->.
    destruct (load_level_marks_last lv_goal "G") with (content := content) (r := r) (c := c)
      as (q & Hq & Hle); [|done..|].
    { intros p ch lv0 Hp. rewrite (place_eq ROWS COLS) by done. done. }
    fold lv lines in Hq, Hle. rewrite Hq. f_equal. apply Hmax; [|done].
    by apply (loaded_goal _ _ _ _ Hl).
  - intros r' c' Hrc' Hin'. apply (loaded_cell _ _ _ _ Hl). by exists r', c'.
Qed.

End Further.

(** ** The further properties at work on the 30 x 30 board *)

Lemma walled_tidy : tidy 30 30 walled ∧ NoDup (ghost_positions walled).
Proof.
  split; [split|].
  - unfold walled. cbn [grid]. apply grid_set_wf, make_grid_wf.
  - intros p Hp. unfold walled in Hp. cbn [ghost_positions] in Hp.
    repeat (apply elem_of_cons in Hp as [->|Hp]);
      try (split; [reflexivity|exists EMPTY; split; [vm_compute; reflexivity|done]]).
    by apply elem_of_nil in Hp.
  - unfold walled. cbn [ghost_positions]. repeat (apply NoDup_cons; split; [set_solver|]).
    apply NoDup_nil_2.
Qed.

Lemma free_cell_open_board (p : pos) (blocked : gset (Z * Z)) :
  in_bounds 30 30 p = true → p ∉ blocked → free 30 30 (make_grid 30 30) blocked p.
Proof.
  intros Hp Hb. split; [|done]. split; [done|]. exists EMPTY.
  split; [by apply make_grid_get|done].
Qed.

Lemma get_cell_from_mouse_spec_witness :
  ∃ cell, get_cell_from_mouse 30 30 (110, 105) = Some cell
    ∧ ∀ r c, cell = Some (r, c)
        ↔ (0 ≤ r < 30 ∧ 0 ≤ c < 30
           ∧ c * CELL_SIZE 30 ≤ 110 < (c + 1) * CELL_SIZE 30
           ∧ r * CELL_SIZE 30 ≤ 105 < (r + 1) * CELL_SIZE 30).
Proof. apply (get_cell_from_mouse_spec 30 30 110 105). unfold WIDTH. lia. Defined.

Lemma picking_inverts_drawing_witness :
  (in_rect (cell_rect 30 (5, 5)) (110, 105) →
   get_cell_from_mouse 30 30 (110, 105) = Some (Some (5, 5)))
  ∧ get_cell_from_mouse 30 30 (cell_center 30 (5, 5)) = Some (Some (5, 5))
  ∧ get_cell_from_mouse 30 30 (sprite_corner 30 (5, 5)) = Some (Some (5, 5)).
Proof.
  apply (picking_inverts_drawing 30 30 (5, 5) (110, 105)).
  - unfold WIDTH. lia.
  - reflexivity.
Defined.

Lemma make_grid_cells_witness :
  grid_get (make_grid 30 30) (30, 0)
  = if in_bounds 30 30 (30, 0) then Some EMPTY else None.
Proof. apply (make_grid_cells 30 30 (30, 0)); simpl; lia. Defined.

Lemma heuristic_admissible_witness :
  heuristic (0, 0) (1, 1) + 1 ≤ Z.of_nat (length [(0, 0); (0, 1); (1, 1)])
  ∧ ∀ a b, adjacent a b → Z.abs (heuristic a (1, 1) - heuristic b (1, 1)) ≤ 1.
Proof.
  apply (heuristic_admissible (λ _, True) (0, 0) (1, 1) [(0, 0); (0, 1); (1, 1)]).
  split; [reflexivity|]. split; [reflexivity|].
  repeat (constructor; [reflexivity|exact I|]). constructor.
Defined.

Lemma reconstruct_path_links_witness :
  last [(0, 0); (0, 1)] = Some (0, 1)
  ∧ (∃ e, head [(0, 0); (0, 1)] = Some e
          ∧ ({[(0, 1) := (0, 0)]} : gmap (Z * Z) (Z * Z)) !! e = None)
  ∧ (∀ (i : nat) a b,
       [(0, 0); (0, 1)] !! i = Some a → [(0, 0); (0, 1)] !! S i = Some b →
       ({[(0, 1) := (0, 0)]} : gmap (Z * Z) (Z * Z)) !! b = Some a)
  ∧ NoDup [(0, 0); (0, 1)]
  ∧ (({[(0, 1) := (0, 0)]} : gmap (Z * Z) (Z * Z)) !! (0, 1) = None →
     [(0, 0); (0, 1)] = [(0, 1)]).
Proof.
  apply (reconstruct_path_links {[(0, 1) := (0, 0)]} (0, 1) [(0, 0); (0, 1)]).
  vm_compute. reflexivity.
Defined.

Lemma astar_complete_witness :
  ∃ path, astar 30 30 (make_grid 30 30) (Some (0, 0)) (Some (0, 2)) None
          = Ret (Some path).
Proof.
  apply (astar_complete 30 30 (make_grid 30 30) (0, 0) (0, 2) None
           [(0, 0); (0, 1); (0, 2)]).
  - apply make_grid_wf.
  - split; [reflexivity|]. split; [reflexivity|].
    repeat (constructor;
            [reflexivity|apply free_cell_open_board; [reflexivity|apply not_elem_of_empty]|]).
    constructor.
Defined.

Lemma astar_path_simple_witness :
  NoDup [(0, 0); (1, 0); (2, 0); (2, 1); (2, 2)]
  ∧ heuristic (0, 0) (2, 2) + 1
    ≤ Z.of_nat (length [(0, 0); (1, 0); (2, 0); (2, 1); (2, 2)])
  ∧ (length [(0, 0); (1, 0); (2, 0); (2, 1); (2, 2)] ≤ S (cells 30 30))%nat.
Proof.
  apply (astar_path_simple 30 30 (make_grid 30 30) (0, 0) (2, 2) None).
  vm_compute. reflexivity.
Defined.

Lemma bfs_path_simple_witness : NoDup [(0, 0); (1, 0); (2, 0); (2, 1); (2, 2)].
Proof.
  apply (bfs_path_simple 30 30 (make_grid 30 30) (Some (0, 0)) (Some (2, 2))).
  vm_compute. reflexivity.
Defined.

Lemma planners_raise_without_cells_witness :
  astar 30 30 [] (Some (0, 0)) (Some (2, 2)) None = Raise
  ∧ bfs_path 30 30 [] (Some (0, 0)) (Some (2, 2)) = Raise.
Proof.
  apply (planners_raise_without_cells 30 30 [] (0, 0) (2, 2) None).
  - lia.
  - reflexivity.
  - reflexivity.
  - intros [=].
Defined.

Lemma bfs_no_longer_than_astar_witness :
  ∃ ra rb,
    astar 30 30 detour (Some (5, 7)) (Some (2, 0)) None = Ret ra
    ∧ bfs_path 30 30 detour (Some (5, 7)) (Some (2, 0)) = Ret rb
    ∧ (∀ pa, ra = Some pa → ∃ pb, rb = Some pb ∧ (length pb ≤ length pa)%nat)
    ∧ (default ∅ (None : option (gset (Z * Z))) = ∅ → is_Some rb → is_Some ra).
Proof.
  apply (bfs_no_longer_than_astar 30 30 detour (5, 7) (2, 0) None).
  split; [reflexivity|]. intros row Hrow.
  apply list_elem_of_lookup in Hrow as [i Hi].
  assert (Hlt : (i < 30)%nat) by (apply lookup_lt_Some in Hi; exact Hi).
  do 30 (destruct i as [|i]; [by injection Hi as <-|]). lia.
Defined.

Lemma walkable_open_board (p : pos) :
  in_bounds 30 30 p = true → walkable 30 30 (make_grid 30 30) p.
Proof.
  intros Hp. split; [done|]. exists EMPTY. split; [by apply make_grid_get|done].
Qed.

Lemma bfs_path_symmetric_witness :
  ∃ r r', bfs_path 30 30 (make_grid 30 30) (Some (0, 0)) (Some (2, 2)) = Ret r
    ∧ bfs_path 30 30 (make_grid 30 30) (Some (2, 2)) (Some (0, 0)) = Ret r'
    ∧ length <$> r = length <$> r'.
Proof.
  apply (bfs_path_symmetric 30 30 (make_grid 30 30) (0, 0) (2, 2)).
  - apply make_grid_wf.
  - by apply walkable_open_board.
  - by apply walkable_open_board.
Defined.

Lemma bfs_path_open_board_witness :
  ∃ p, bfs_path 30 30 (make_grid 30 30) (Some (0, 0)) (Some (29, 29)) = Ret (Some p)
    ∧ Z.of_nat (length p) = heuristic (0, 0) (29, 29) + 1.
Proof. apply (bfs_path_open_board 30 30 (0, 0) (29, 29)); reflexivity. Defined.

Lemma ghost_step_closes_in_witness :
  ghost_move 30 30 (make_grid 30 30) (Some (5, 5)) (5, 7) = Some (5, 6)
  ∧ adjacent (5, 7) (5, 6) ∧ walkable 30 30 (make_grid 30 30) (5, 6)
  ∧ ∃ p', bfs_path 30 30 (make_grid 30 30) (Some (5, 6)) (Some (5, 5)) = Ret (Some p')
          ∧ length p' = S (length [(5, 5)]).
Proof.
  apply (ghost_step_closes_in 30 30 (make_grid 30 30) (5, 7) (5, 5) (5, 7) (5, 6) [(5, 5)]).
  - apply make_grid_wf.
  - vm_compute. reflexivity.
Defined.

Lemma mouse_edit_keeps_tidy_witness :
  tidy 30 30 (left_click false false (0, 29) walled)
  ∧ NoDup (ghost_positions (left_click false false (0, 29) walled)).
Proof.
  apply (mouse_edit_keeps_tidy 30 30 (Mouse true false (590, 5) false false) walled).
  - apply walled_tidy.
  - apply walled_tidy.
  - intros cell _ _ [=].
  - vm_compute. reflexivity.
Defined.

Lemma ghosts_move_one_step_witness :
  ∃ st', pursuer_step 30 30 300 duel = Some st'
    ∧ Forall2 (ghost_hop 30 30 (grid duel)) (ghost_positions duel) (ghost_positions st')
    ∧ length (ghost_positions st') = length (ghost_positions duel)
    ∧ grid st' = grid duel ∧ pac_pos st' = pac_pos duel
    ∧ last_ghost_move_time st' = 300.
Proof. exact (ghosts_move_one_step 30 30 300 duel (make_grid_wf 30 30)). Defined.

Lemma pacman_moves_one_step_witness :
  ∃ st1, seeker_step 30 30 300 snack = Some st1
    ∧ ((pac_pos st1 = Some (5, 5) ∧ reason st1 = Some Stuck ∧ game_over st1 = true)
       ∨ (∃ p, pac_pos st1 = Some p ∧ adjacent (5, 5) p
               ∧ walkable 30 30 (grid snack) p ∧ p ∉ ghost_positions snack)).
Proof.
  eexists. split; [vm_compute; reflexivity|].
  apply (pacman_moves_one_step 30 30 300 snack _ (5, 5)).
  - reflexivity.
  - vm_compute. reflexivity.
Defined.

Lemma play_keeps_board_witness :
  ∃ st', play 30 30 [(300, 301); (600, 601)] snack = Some st'
    ∧ grid st' = grid snack ∧ start st' = start snack ∧ goal st' = goal snack
    ∧ length (ghost_positions st') = length (ghost_positions snack)
    ∧ (tidy 30 30 snack → tidy 30 30 st').
Proof.
  apply (play_keeps_board 30 30 [(300, 301); (600, 601)] snack).
  unfold snack. cbn [grid]. apply grid_set_wf, make_grid_wf.
Defined.

Lemma moves_are_paced_witness :
  ∃ st', game_logic 30 30 300 301 duel = Some st'
    ∧ (pac_pos st' ≠ pac_pos duel →
         PAC_MOVE_INTERVAL ≤ 300 - last_pac_move_time duel
         ∧ last_pac_move_time st' = 300)
    ∧ (ghost_positions st' ≠ ghost_positions duel →
         GHOST_MOVE_INTERVAL ≤ 300 - last_ghost_move_time duel
         ∧ last_ghost_move_time st' = 300).
Proof.
  eexists. split; [vm_compute; reflexivity|].
  apply (moves_are_paced 30 30 300 301 duel). vm_compute. reflexivity.
Defined.

Lemma run_keeps_modes_witness :
  ∃ st', run 30 30 [Input None [(K_SPACE, 100)] (Mouse false false (0, 0) false false)
                      300 301;
                    Input None [] (Mouse false false (0, 0) false false) 600 601]
           walled = Some st'
    ∧ coherent st'.
Proof.
  eexists. split; [vm_compute; reflexivity|].
  apply (run_keeps_modes 30 30
           [Input None [(K_SPACE, 100)] (Mouse false false (0, 0) false false) 300 301;
            Input None [] (Mouse false false (0, 0) false false) 600 601] walled).
  - right. unfold coherent, walled.
    cbn [playing game_over reason final_score end_time pac_pos]. by repeat split.
  - vm_compute. reflexivity.
Defined.

Lemma load_level_blank_witness :
  load_level 30 30 (Some (String " " (String newline ""))) = load_level 30 30 None
  ∧ load_level 30 30 (Some (String " " (String newline "")))
    = Level (make_grid 30 30) None None ∅ [].
Proof.
  apply (load_level_blank 30 30 (String " " (String newline ""))).
  vm_compute. reflexivity.
Defined.

Lemma clear_key_resets_witness :
  initial 30 30
  = Some (Game (make_grid 30 30) None None ∅ None (corner_positions 30 30)
            false false None 0 None None None 0 0)
  ∧ keydown 30 30 None 0 K_c duel
    = Some (Game (make_grid 30 30) None None ∅ None (corner_positions 30 30)
              false false None 0 None None None
              (last_pac_move_time duel) (last_ghost_move_time duel)).
Proof. apply (clear_key_resets 30 30 None 0 duel); lia. Defined.

Lemma main_never_raises_witness :
  (∃ st', main 30 30 [Input (Some three_lines) [(K_l, 0); (K_SPACE, 100)]
                        (Mouse true false (110, 105) false true) 300 301]
          = Some st'
          ∧ wf_grid 30 30 (grid st'))
  ∧ (∀ st, wf_grid 30 30 (grid st) →
       ∃ st', run 30 30 [Input (Some three_lines) [(K_l, 0); (K_SPACE, 100)]
                           (Mouse true false (110, 105) false true) 300 301] st
              = Some st'
              ∧ wf_grid 30 30 (grid st')).
Proof.
  apply (main_never_raises 30 30
           [Input (Some three_lines) [(K_l, 0); (K_SPACE, 100)]
              (Mouse true false (110, 105) false true) 300 301]).
  unfold WIDTH. lia.
Defined.

Lemma hud_clock_witness :
  hud_time 75500 (Some 0) None false = "01:15"%string.
Proof.
  destruct (hud_clock 75500 0 0 0 false None) as [H _].
  - vm_compute. split; [intros [=]|reflexivity].
  - rewrite H. vm_compute. reflexivity.
Defined.

Lemma run_keeps_marks_witness :
  ∃ st', run 30 30 [Input None [] (Mouse true false (110, 105) false false) 300 301;
                    Input None [] (Mouse true false (210, 105) true false) 600 601]
           fresh = Some st'
    ∧ wf_grid 30 30 (grid st') ∧ marked 30 30 st'.
Proof.
  eexists. split; [vm_compute; reflexivity|].
  apply (run_keeps_marks 30 30
           [Input None [] (Mouse true false (110, 105) false false) 300 301;
            Input None [] (Mouse true false (210, 105) true false) 600 601] fresh).
  - left. vm_compute. reflexivity.
  - vm_compute. reflexivity.
Defined.

Lemma stuck_iff_no_route_witness :
  ∃ st1, seeker_step 30 30 300 snack = Some st1
    ∧ (reason st1 = Some Stuck
       ↔ ¬ ∃ p, route (free 30 30 (grid snack) (list_to_set (ghost_positions snack)))
                  (5, 5) p (9, 5)).
Proof.
  apply (stuck_iff_no_route 30 30 300 snack (5, 5) (9, 5)).
  - unfold snack. cbn [grid]. apply grid_set_wf, make_grid_wf.
  - reflexivity.
  - reflexivity.
  - intros [=].
  - reflexivity.
Defined.

Lemma end_reasons_sound_witness :
  ∃ st', game_logic 30 30 300 301 duel = Some st'
    ∧ (reason st' = Some Ghost ↔ caught st' = true)
    ∧ (reason st' = Some Win → pac_pos st' = goal st' ∧ caught st' = false)
    ∧ (reason st' = Some Stuck → pac_pos st' = pac_pos duel ∧ caught st' = false)
    ∧ (game_over st' = false →
         reason st' = None ∧ playing st' = true ∧ caught st' = false).
Proof.
  eexists. split; [vm_compute; reflexivity|].
  apply (end_reasons_sound 30 30 300 301 duel).
  - unfold coherent, duel.
    cbn [playing game_over reason final_score end_time pac_pos start goal start_time].
    by repeat split.
  - by repeat split.
  - vm_compute. reflexivity.
Defined.

Lemma load_level_last_mark_witness :
  lv_start (load_level 30 30 (Some cr_level)) = Some (14, 16)
  ∧ grid_get (lv_grid (load_level 30 30 (Some cr_level))) (14, 13) = Some START.
Proof.
  pose proof (load_level_last_mark 30 30 cr_level 0 3 "S") as H. cbv zeta in H.
  destruct H as (Hs & _ & Hcell).
  - exists (list_ascii_of_string "S.SS"). split; vm_compute; reflexivity.
  - vm_compute. reflexivity.
  - intros r' c' (line & Hl & Hc) _. vm_compute in Hl.
    destruct r' as [|r']; [|by destruct r']. injection Hl as <-.
    right. split; [done|]. apply lookup_lt_Some in Hc. simpl in Hc. lia.
  - split; [exact (Hs eq_refl)|].
    apply (Hcell 0%nat 0%nat).
    + exists (list_ascii_of_string "S.SS"). split; vm_compute; reflexivity.
    + vm_compute. reflexivity.
Defined.
